(** * Flux control-plane transport: the structural diff oracle, the HTTP
      error writer, its client-side decoder, URL construction and the
      daemon registration handler.

    The development follows the Go sources:
    - [remote/mock.go]            ([Diff], [diffValue], [diffStruct],
                                   [diffArrayOrSlice], [diffMap], [sorted]);
    - the [http] transport helpers ([MakeURL], [WriteError], [JSONResponse],
                                   [ErrorResponse]);
    - [http/client/client.go]     ([executeRequest]);
    - the service HTTP handlers   ([doRegister]).

    Go values are embedded shallowly: a function that may fail returns a
    [result], code that writes to an [http.ResponseWriter] threads the
    writer explicitly. *)

From Stdlib Require Import ZArith Lia Structures.OrdersEx.
From stdpp Require Import base option list strings gmap pretty sorting.

Set Default Proof Using "Type".
Local Open Scope list_scope.
Local Open Scope stdpp_scope.

(** ** Errors, panics and results *)

(** Go [error] values that occur in the sources.  [flux.BaseError] carries
    a help text and an underlying error; [flux.Missing],
    [flux.UserConfigProblem] and [flux.ServerException] are the three
    struct types that embed a [*flux.BaseError]. *)
Inductive error : Type :=
  | ErrorString (s : string)                  (* errors.New, fmt.Errorf *)
  | WithMessage (cause : error) (msg : string) (* errors.Wrap, errors.Wrapf *)
  | BaseErrorPtr (b : BaseError)              (* *flux.BaseError *)
  | Missing (b : BaseError)                   (* flux.Missing{b} *)
  | UserConfigProblem (b : BaseError)         (* flux.UserConfigProblem{b} *)
  | ServerException (b : BaseError)           (* flux.ServerException{b} *)
with BaseError : Type :=
  | MkBaseError (Help : string) (Err : error).

Definition Help (b : BaseError) : string := let 'MkBaseError h _ := b in h.
Definition Err (b : BaseError) : error := let 'MkBaseError _ e := b in e.

(** [err.Error()] *)
Fixpoint Error (e : error) : string :=
  match e with
  | ErrorString s => s
  | WithMessage cause msg => msg +:+ ": " +:+ Error cause
  | BaseErrorPtr b | Missing b | UserConfigProblem b | ServerException b =>
      BaseError_Error b
  end
with BaseError_Error (b : BaseError) : string :=
  match b with
  | MkBaseError _ e => Error e
  end.

(** [errors.Cause]: strip the wrappers added by [errors.Wrap]. *)
Fixpoint errors_Cause (e : error) : error :=
  match e with
  | WithMessage cause _ => errors_Cause cause
  | _ => e
  end.

(** The outcome of a Go call: a value, a non-nil [error], or a run-time
    panic (named after the call or statement that raised it). *)
Inductive result (A : Type) : Type :=
  | Ok (x : A)
  | Fail (e : error)
  | Panic (what : string).
Arguments Ok {A} x.
Arguments Fail {A} e.
Arguments Panic {A} what.

Definition result_bind {A B} (f : A → result B) (m : result A) : result B :=
  match m with
  | Ok x => f x
  | Fail e => Fail e
  | Panic w => Panic w
  end.

#[global] Instance result_mret : MRet result := λ A x, Ok x.
#[global] Instance result_mbind : MBind result := λ A B f m, result_bind f m.

(** ** remote/mock.go: the diff oracle *)

(** *** reflect.Type and reflect.Value *)

(** Ground kinds and ground values.  The model covers [bool], the integer
    kinds and [string]; these are the scalars of the values exchanged over
    the transports. *)
Inductive gkind : Type := KBool | KInt | KString.

Inductive ground : Type :=
  | GBool (b : bool)
  | GInt (z : Z)
  | GString (s : string).

#[global] Instance gkind_eq_dec : EqDecision gkind.
Proof. solve_decision. Defined.
#[global] Instance ground_eq_dec : EqDecision ground.
Proof. solve_decision. Defined.

Definition ground_kind (g : ground) : gkind :=
  match g with
  | GBool _ => KBool
  | GInt _ => KInt
  | GString _ => KString
  end.

(** A [reflect.Type].  A struct type lists its fields in declaration
    order; [PkgPath] is empty exactly for exported fields. *)
Inductive type : Type :=
  | TGround (name : string) (k : gkind)
  | TArray (len : nat) (elem : type)
  | TSlice (elem : type)
  | TInterface (name : string)
  | TPtr (elem : type)
  | TStruct (name : string) (fs : fields)
  | TMap (key : type) (elem : type)
  | TFunc (name : string)
with fields : Type :=
  | FNil
  | FCons (Name : string) (PkgPath : string) (Type_ : type) (rest : fields).

Scheme type_fields_rect := Induction for type Sort Type
  with fields_type_rect := Induction for fields Sort Type.
Scheme type_fields_ind := Induction for type Sort Prop
  with fields_type_ind := Induction for fields Sort Prop.
Combined Scheme type_and_fields_ind from type_fields_ind, fields_type_ind.

Fixpoint type_eq_dec' (t u : type) : {t = u} + {t ≠ u}
with fields_eq_dec' (f g : fields) : {f = g} + {f ≠ g}.
Proof.
  - decide equality; solve [ apply String.string_dec | apply Nat.eq_dec
                           | apply gkind_eq_dec ].
  - decide equality; apply String.string_dec.
Defined.

#[global] Instance type_eq_dec : EqDecision type := type_eq_dec'.
#[global] Instance fields_eq_dec : EqDecision fields := fields_eq_dec'.

(** A Go value.  A pointer is [nil] or points to a value; a map lists its
    entries in the order in which [MapKeys] returns its keys (an order Go
    leaves unspecified); an interface value is [nil] or holds a value with
    its dynamic type. *)
#[warnings="-register-all"] Inductive value : Type :=
  | VGround (g : ground)
  | VSeq (elems : list value)                  (* array or slice *)
  | VPtr (pointee : option value)
  | VStruct (fs : list value)
  | VMap (entries : list (ground * value))
  | VInterface (dyn : option (type * value))
  | VFunc (name : string).

(** A [reflect.Value]: [None] is the zero Value (kind Invalid). *)
Definition Value : Type := option value.

(** A Go [interface{}] argument: [nil], or a value with its dynamic type. *)
Definition iface : Type := option (type * value).

Definition TypeOf (a : iface) : option type := fst <$> a.
Definition ValueOf (a : iface) : Value := snd <$> a.

(** [reflect.Indirect]: a nil pointer yields the zero Value, a Value that
    is not a pointer is returned as it is. *)
Definition Indirect (v : Value) : Value :=
  match v with
  | Some (VPtr p) => p
  | _ => v
  end.

(** [v.Interface()] panics on the zero Value. *)
Definition Interface (v : Value) : result value :=
  match v with
  | Some x => Ok x
  | None => Panic "reflect.Value.Interface"
  end.

(** [v.Len()] for arrays and slices. *)
Definition Len (v : Value) : result nat :=
  match v with
  | Some (VSeq l) => Ok (length l)
  | _ => Panic "reflect.Value.Len"
  end.

(** [v.Field(i)] *)
Definition Field (v : Value) (i : nat) : result Value :=
  match v with
  | Some (VStruct vs) =>
      match vs !! i with
      | Some x => Ok (Some x)
      | None => Panic "reflect: Field index out of range"
      end
  | _ => Panic "reflect.Value.Field"
  end.

(** [v.MapKeys()] and [v.MapIndex(k)] on the entries of a map;
    [MapIndex] returns the zero Value for an absent key. *)
Definition MapKeys (es : list (ground * value)) : list ground := es.*1.

Fixpoint MapIndex (es : list (ground * value)) (k : ground) : Value :=
  match es with
  | [] => None
  | (k', v) :: rest => if decide (k' = k) then Some v else MapIndex rest k
  end.

(** *** Chunks *)

Record Chunk : Type := MkChunk {
  Deleted : list value;
  Added_ : list value;
  Path : string
}.

Definition ErrNotDiffable : error := ErrorString "values are not diffable".

Definition Changed (A B : value) (path : string) : Chunk :=
  {| Path := path; Deleted := [A]; Added_ := [B] |}.

Definition Added (B : value) (path : string) : Chunk :=
  {| Path := path; Deleted := []; Added_ := [B] |}.

Definition Removed (A : value) (path : string) : Chunk :=
  {| Path := path; Deleted := [A]; Added_ := [] |}.

(** [fmt.Sprintf("%s[%d]", path, i)] *)
Definition indexPath (path : string) (i : nat) : string :=
  path +:+ "[" +:+ pretty i +:+ "]".

(** [%v] of a map key *)
Definition format_v (k : ground) : string :=
  match k with
  | GBool true => "true"
  | GBool false => "false"
  | GInt z => pretty z
  | GString s => s
  end.

(** [fmt.Sprintf(`%s[%v]`, path, key)] *)
Definition keyPath (path : string) (k : ground) : string :=
  path +:+ "[" +:+ format_v k +:+ "]".

(** *** sort.Sort(sorted(diffs)) *)

(** [strings.Compare]: bytewise lexical comparison, as -1, 0 or 1. *)
Definition strings_Compare (a b : string) : Z :=
  match String_as_OT.compare a b with
  | Lt => (-1)%Z
  | Eq => 0%Z
  | Gt => 1%Z
  end.

(** [sorted.Less], on the two chunks at the given indices *)
Definition Less (x y : Chunk) : bool :=
  bool_decide (strings_Compare (Path x) (Path y) = (-1)%Z).

(** The library's [insertionSort], which [sort.Sort] runs on short inputs:
    each element in turn is swapped backwards while it is [Less] than its
    left neighbour.  [insertBack x rp] places [x] after the already sorted
    prefix, given in reverse as [rp]. *)
Fixpoint insertBack (x : Chunk) (rp : list Chunk) : list Chunk :=
  match rp with
  | [] => [x]
  | y :: rp' => if Less x y then y :: insertBack x rp' else x :: y :: rp'
  end.

Definition sort_Sort (data : list Chunk) : list Chunk :=
  reverse (foldl (λ rp x, insertBack x rp) [] data).

(** *** diffArrayOrSlice *)

Section diffArrayOrSlice.
(** [diffElem a b path] stands for [diffValue(a, b, elemTyp, path)]. *)
Variable diffElem : Value → Value → string → result (list Chunk).

(** The first loop: from index [i], with at most [n] iterations left
    ([n] is [a.Len() - i], so the bound is never the reason to stop).
    Returns the final index and the chunks. *)
Fixpoint diffElems (la lb : list value) (path : string) (n i : nat)
    (changed : list Chunk) : result (nat * list Chunk) :=
  match n with
  | 0 => Ok (i, changed)
  | S n' =>
      match la !! i, lb !! i with
      | Some x, Some y =>
          d ← diffElem (Some x) (Some y) (indexPath path i);
          diffElems la lb path n' (S i) (changed ++ d)
      | _, _ => Ok (i, changed)
      end
  end.

(** The loops collecting the over- or underbite:
    [for j := i; j < l.Len(); j++ { acc = append(acc, l.Index(j).Interface()) }] *)
Fixpoint surplus (l : list value) (n j : nat) (acc : list value) : list value :=
  match n with
  | 0 => acc
  | S n' =>
      match l !! j with
      | Some v => surplus l n' (S j) (acc ++ [v])
      | None => acc
      end
  end.

Definition diffArrayOrSlice (a b : Value) (path : string) : result (list Chunk) :=
  match a, b with
  | Some (VSeq la), Some (VSeq lb) =>
      '(i, changed) ← diffElems la lb path (length la) 0 [];
      if decide (i < length la) then
        let deleted := surplus la (length la - i) i [] in
        Ok (changed ++ [{| Deleted := deleted; Added_ := []; Path := indexPath path i |}])
      else if decide (i < length lb) then
        let added := surplus lb (length lb - i) i [] in
        Ok (changed ++ [{| Deleted := []; Added_ := added; Path := indexPath path i |}])
      else Ok changed
  | _, _ => Panic "reflect.Value.Len"
  end.
End diffArrayOrSlice.

(** *** diffMap *)

Section diffMap.
Variable diffElem : Value → Value → string → result (list Chunk).

(** [for _, keyA := range a.MapKeys() { ... }] *)
Fixpoint diffMap_rangeA (ea eb : list (ground * value)) (path : string)
    (keys : list ground) (diffs : list Chunk) : result (list Chunk) :=
  match keys with
  | [] => Ok diffs
  | keyA :: keys' =>
      let valA := MapIndex ea keyA in
      let valB := MapIndex eb keyA in
      if decide (valB ≠ None) then
        moreDiffs ← diffElem valA valB (keyPath path keyA);
        diffMap_rangeA ea eb path keys' (diffs ++ moreDiffs)
      else
        A ← Interface valA;
        diffMap_rangeA ea eb path keys' (diffs ++ [Removed A (keyPath path keyA)])
  end.

(** [for _, keyB := range b.MapKeys() { ... }] *)
Fixpoint diffMap_rangeB (ea eb : list (ground * value)) (path : string)
    (keys : list ground) (diffs : list Chunk) : result (list Chunk) :=
  match keys with
  | [] => Ok diffs
  | keyB :: keys' =>
      let valB := MapIndex eb keyB in
      if decide (MapIndex ea keyB = None) then
        B ← Interface valB;
        diffMap_rangeB ea eb path keys' (diffs ++ [Added B (keyPath path keyB)])
      else diffMap_rangeB ea eb path keys' diffs
  end.

Definition diffMap (a b : Value) (path : string) : result (list Chunk) :=
  match a, b with
  | Some (VMap ea), Some (VMap eb) =>
      diffs ← diffMap_rangeA ea eb path (MapKeys ea) [];
      diffs ← diffMap_rangeB ea eb path (MapKeys eb) diffs;
      Ok (sort_Sort diffs)
  | _, _ => Fail (ErrorString "both values must be maps")
  end.
End diffMap.

(** *** diffValue and diffStruct *)

(** The comparison of the default branch, [a.Interface() != b.Interface()].
    A value of a ground type is ground; the last case is not reachable
    from [Diff]. *)
Definition diffGround (a b : Value) (path : string) : result (list Chunk) :=
  x ← Interface a;
  y ← Interface b;
  match x, y with
  | VGround g, VGround h =>
      if decide (g ≠ h) then Ok [Changed x y path] else Ok []
  | _, _ => Panic "runtime error: comparing values of a kind that is not ground"
  end.

(** [diffValue] recurses on the type: the element type of an array, slice,
    pointer or map, and the type of each field of a struct.  [diffStruct]
    is the loop over the fields, [i] being the index of the first field
    of [fs] in the struct. *)
Fixpoint diffValue (typ : type) (a b : Value) (path : string) {struct typ}
    : result (list Chunk) :=
  match typ with
  | TArray _ elemTyp => diffArrayOrSlice (diffValue elemTyp) a b path
  | TSlice elemTyp => diffArrayOrSlice (diffValue elemTyp) a b path
  | TInterface _ => Fail (ErrorString "interface diff not implemented")
  | TPtr elemTyp => diffValue elemTyp (Indirect a) (Indirect b) path
  | TStruct _ fs => diffStruct fs 0 a b path []
  | TMap _ elemTyp => diffMap (diffValue elemTyp) a b path
  | TFunc _ =>
      Fail (ErrorString "func diff not implemented (and not implementable)")
  | TGround _ _ => diffGround a b path
  end
with diffStruct (fs : fields) (i : nat) (a b : Value) (path : string)
    (diffs : list Chunk) {struct fs} : result (list Chunk) :=
  match fs with
  | FNil => Ok diffs
  | FCons name pkgPath fieldTyp rest =>
      if decide (pkgPath = EmptyString) then
        fa ← Field a i;
        fb ← Field b i;
        fieldDiffs ← diffValue fieldTyp fa fb (path +:+ "." +:+ name);
        diffStruct rest (S i) a b path (diffs ++ fieldDiffs)
      else diffStruct rest (S i) a b path diffs
  end.

(** *** Diff *)

Definition Diff (a b : iface) : result (list Chunk) :=
  let typA := TypeOf a in
  let typB := TypeOf b in
  if decide (typA ≠ typB) then Fail ErrNotDiffable
  else
    match typA with
    | Some typ => diffValue typ (ValueOf a) (ValueOf b) EmptyString
    | None => Panic "runtime error: invalid memory address or nil pointer dereference"
    end.

(** *** The order on paths *)

(** [str_le a b]: [strings.Compare(a, b)] is not 1. *)
Definition str_le (a b : string) : Prop := strings_Compare a b ≠ 1%Z.

(** Chunks ordered by path, the order [sort.Sort(sorted(diffs))] sorts by. *)
Definition path_le (x y : Chunk) : Prop := str_le (Path x) (Path y).


(** *** What the claims say about sequences and mappings *)

Section seq_spec.
Variable diffElem : Value → Value → string → result (list Chunk).

(** The chunks of the common prefix: the elements at the positions [i],
    [i+1], ... of both sequences are compared pairwise, each under the
    path extended by its index; the first failure is the result. *)
Fixpoint prefixDiffs (path : string) (i : nat) (la lb : list value)
    : result (list Chunk) :=
  match la, lb with
  | x :: la', y :: lb' =>
      d ← diffElem (Some x) (Some y) (indexPath path i);
      ds ← prefixDiffs path (S i) la' lb';
      Ok (d ++ ds)
  | _, _ => Ok []
  end.

(** The trailing chunk: none for equal lengths, otherwise one chunk at
    the index of the shorter length holding every surplus element. *)
Definition overbite (path : string) (la lb : list value) : list Chunk :=
  let n := length la `min` length lb in
  if decide (length lb < length la) then
    [{| Deleted := drop n la; Added_ := []; Path := indexPath path n |}]
  else if decide (length la < length lb) then
    [{| Deleted := []; Added_ := drop n lb; Path := indexPath path n |}]
  else [].

Definition diffSeq_spec (path : string) (la lb : list value)
    : result (list Chunk) :=
  changed ← prefixDiffs path 0 la lb;
  Ok (changed ++ overbite path la lb).
End seq_spec.

Section map_spec.
Variable diffElem : Value → Value → string → result (list Chunk).

(** An entry of the left mapping: compared with the right value under
    the path extended by the key when the key is in the right mapping,
    a pure deletion otherwise. *)
Definition leftEntry (eb : list (ground * value)) (path : string)
    (e : ground * value) : result (list Chunk) :=
  match MapIndex eb e.1 with
  | Some vb => diffElem (Some e.2) (Some vb) (keyPath path e.1)
  | None => Ok [Removed e.2 (keyPath path e.1)]
  end.

(** An entry of the right mapping: a pure addition when its key is not
    in the left mapping. *)
Definition rightEntry (ea : list (ground * value)) (path : string)
    (e : ground * value) : list Chunk :=
  match MapIndex ea e.1 with
  | Some _ => []
  | None => [Added e.2 (keyPath path e.1)]
  end.

Fixpoint leftChunks (eb : list (ground * value)) (path : string)
    (ea : list (ground * value)) : result (list Chunk) :=
  match ea with
  | [] => Ok []
  | e :: ea' =>
      cs ← leftEntry eb path e;
      rest ← leftChunks eb path ea';
      Ok (cs ++ rest)
  end.

Definition rightChunks (ea : list (ground * value)) (path : string)
    (eb : list (ground * value)) : list Chunk :=
  flat_map (rightEntry ea path) eb.

Definition diffMap_spec (path : string) (ea eb : list (ground * value))
    : result (list Chunk) :=
  ls ← leftChunks eb path ea;
  Ok (sort_Sort (ls ++ rightChunks ea path eb)).
End map_spec.


(** Values used in the examples. *)
Definition int : type := TGround "int" KInt.
Definition string_ : type := TGround "string" KString.
Definition ints (l : list Z) : iface :=
  Some (TSlice int, VSeq ((λ z, VGround (GInt z)) <$> l)).
Definition nilIntPtr : iface := Some (TPtr int, VPtr None).

(** Two orders of iteration of the map
    [map[string][]int{"x": {1}, "x][0": {}}], and the map
    [map[string][]int{"x": {2}}]. *)
Definition mapA1 : list (ground * value) :=
  [(GString "x", VSeq [VGround (GInt 1)]); (GString "x][0", VSeq [])].
Definition mapOf (es : list (ground * value)) : iface :=
  Some (TMap string_ (TSlice int), VMap es).

(** Two maps whose diff has chunks at three distinct paths, the left one
    in two orders of iteration. *)
Definition mapC1 : list (ground * value) :=
  [(GString "a", VSeq [VGround (GInt 1)]); (GString "b", VSeq [])].
Definition mapD : list (ground * value) :=
  [(GString "a", VSeq [VGround (GInt 2)]); (GString "c", VSeq [])].
Definition diffCD : list Chunk :=
  [Changed (VGround (GInt 1)) (VGround (GInt 2)) "m[a][0]";
   Removed (VSeq []) "m[b]";
   Added (VSeq []) "m[c]"].

(** *** Values up to the order of iteration of their maps *)

(** [sameValue v v']: [v'] is [v] with the entries of the maps inside it,
    at any depth, listed in another order. *)
#[warnings="-register-all"] Inductive sameValue : value → value → Prop :=
  | same_ground g : sameValue (VGround g) (VGround g)
  | same_seq l l' : Forall2 sameValue l l' → sameValue (VSeq l) (VSeq l')
  | same_nil : sameValue (VPtr None) (VPtr None)
  | same_ptr x x' : sameValue x x' → sameValue (VPtr (Some x)) (VPtr (Some x'))
  | same_struct vs vs' :
      Forall2 sameValue vs vs' → sameValue (VStruct vs) (VStruct vs')
  | same_map es es' mid :
      es ≡ₚ mid →
      Forall2 (λ e e', e.1 = e'.1 ∧ sameValue e.2 e'.2) mid es' →
      sameValue (VMap es) (VMap es')
  | same_interface d : sameValue (VInterface d) (VInterface d)
  | same_func name : sameValue (VFunc name) (VFunc name).

(** [distinctKeys v]: the keys of every map inside [v] are distinct, as
    they are in Go. *)
#[warnings="-register-all"] Inductive distinctKeys : value → Prop :=
  | distinct_ground g : distinctKeys (VGround g)
  | distinct_seq l : Forall distinctKeys l → distinctKeys (VSeq l)
  | distinct_nil : distinctKeys (VPtr None)
  | distinct_ptr x : distinctKeys x → distinctKeys (VPtr (Some x))
  | distinct_struct vs : Forall distinctKeys vs → distinctKeys (VStruct vs)
  | distinct_map es :
      NoDup (MapKeys es) → Forall (λ e, distinctKeys e.2) es →
      distinctKeys (VMap es)
  | distinct_interface d : distinctKeys (VInterface d)
  | distinct_func name : distinctKeys (VFunc name).

(** The same chunk: the same path, and the same values up to the order
    of their maps. *)
Definition sameChunk (c c' : Chunk) : Prop :=
  Path c = Path c' ∧
  Forall2 sameValue (Deleted c) (Deleted c') ∧
  Forall2 sameValue (Added_ c) (Added_ c').

Definition sameV : Value → Value → Prop := option_Forall2 sameValue.
Definition distinctV (a : Value) : Prop := ∀ x, a = Some x → distinctKeys x.

Definition sameEntries (es es' : list (ground * value)) : Prop :=
  Forall2 (λ e e', e.1 = e'.1 ∧ sameValue e.2 e'.2) es es'.

(** A comparison [d] does not depend on the order of the maps inside its
    arguments: when it returns chunks with pairwise distinct paths, it
    returns the same chunks on the same values in another order. *)
Definition orderIndependent
    (d : Value → Value → string → result (list Chunk)) : Prop :=
  ∀ a a' b b' path cs,
    distinctV a → distinctV b → sameV a a' → sameV b b' →
    d a b path = Ok cs → NoDup (Path <$> cs) →
    ∃ cs', d a' b' path = Ok cs' ∧ Forall2 sameChunk cs cs'.

(** The map [map[string]map[string]int{"a": {"x": 1, "y": 2}}] with its
    inner map in two orders, and the map
    [map[string]map[string]int{"a": {"x": 3}}]. *)
Definition nestedMaps : type := TMap string_ (TMap string_ int).
Definition nestedA1 : value :=
  VMap [(GString "a", VMap [(GString "x", VGround (GInt 1));
                            (GString "y", VGround (GInt 2))])].
Definition nestedA2 : value :=
  VMap [(GString "a", VMap [(GString "y", VGround (GInt 2));
                            (GString "x", VGround (GInt 1))])].
Definition nestedB : value :=
  VMap [(GString "a", VMap [(GString "x", VGround (GInt 3))])].

(** ** The HTTP transport *)

(** *** net/http: requests, response writers, responses *)

Definition StatusOK : Z := 200.
Definition StatusCreated : Z := 201.
Definition StatusNoContent : Z := 204.
Definition StatusBadRequest : Z := 400.
Definition StatusUnauthorized : Z := 401.
Definition StatusNotFound : Z := 404.
Definition StatusGone : Z := 410.
Definition StatusUnprocessableEntity : Z := 422.
Definition StatusInternalServerError : Z := 500.

(** [http.Header], with canonical keys; [Get] returns the empty string for
    a key that is not set. *)
Definition Header_Get (h : gmap string string) (key : string) : string :=
  default EmptyString (h !! key).

Record Request : Type := MkRequest {
  ReqHeader : gmap string string
}.

(** An [http.ResponseWriter] is modelled by the calls made on it, oldest
    first. *)
Inductive wcall : Type :=
  | SetHeader (key value : string)   (* w.Header().Set(key, value) *)
  | WriteHeader (code : Z)           (* w.WriteHeader(code) *)
  | Write (body : string).           (* w.Write(body), fmt.Fprint(w, body) *)

Definition ResponseWriter : Type := list wcall.

(** The body of an [http.Response]: the bytes that [ioutil.ReadAll]
    returns, or the error with which reading fails. *)
Inductive ReadCloser : Type :=
  | BodyBytes (data : string)
  | BodyError (e : error).

Record Response : Type := MkResponse {
  StatusCode : Z;
  Status : string;
  RespHeader : gmap string string;
  Body : ReadCloser
}.

(** What net/http sends for the calls made on a fresh writer: the headers
    set before the first [WriteHeader] or [Write], the code of the first
    [WriteHeader] (200 when a [Write] comes first or nothing is written),
    and the written bodies in order. *)
Fixpoint sentHeaders (calls : list wcall) (h : gmap string string)
    : gmap string string :=
  match calls with
  | SetHeader k v :: rest => sentHeaders rest (<[k := v]> h)
  | _ => h
  end.

Fixpoint sentStatus (calls : list wcall) : Z :=
  match calls with
  | SetHeader _ _ :: rest => sentStatus rest
  | WriteHeader code :: _ => code
  | Write _ :: _ => StatusOK
  | [] => StatusOK
  end.

Fixpoint sentBody (calls : list wcall) : string :=
  match calls with
  | Write body :: rest => body +:+ sentBody rest
  | _ :: rest => sentBody rest
  | [] => EmptyString
  end.

Definition StatusText (code : Z) : string :=
  if decide (code = StatusOK) then "OK"
  else if decide (code = StatusBadRequest) then "Bad Request"
  else if decide (code = StatusUnauthorized) then "Unauthorized"
  else if decide (code = StatusNotFound) then "Not Found"
  else if decide (code = StatusGone) then "Gone"
  else if decide (code = StatusUnprocessableEntity) then "Unprocessable Entity"
  else if decide (code = StatusInternalServerError) then "Internal Server Error"
  else EmptyString.

Definition sentResponse (calls : ResponseWriter) : Response :=
  {| StatusCode := sentStatus calls;
     Status := pretty (sentStatus calls) +:+ " " +:+ StatusText (sentStatus calls);
     RespHeader := sentHeaders calls ∅;
     Body := BodyBytes (sentBody calls) |}.

(** A [*url.URL], as far as [MakeURL] touches it. *)
Record URL : Type := MkURL {
  Scheme : string;
  Host : string;
  URLPath : string;
  RawQuery : string
}.

(** [url.Values] and [Values.Add], which appends the value to the values
    of the key. *)
Definition Values_Get (v : gmap string (list string)) (key : string) : list string :=
  default [] (v !! key).

Definition Values_Add (v : gmap string (list string)) (key value : string)
    : gmap string (list string) :=
  <[key := Values_Get v key ++ [value]]> v.

(** *** Code of the repository and of libraries that the sources call *)

(** The functions below are called by the sources and are not part of
    them: the JSON codec, the content negotiation, the constructors of the
    [flux] and [http] error values, the URL and routing libraries, the
    websocket upgrade and the service behind the handlers. *)
Class Externals : Type := {
  (** [negotiateContentType(r, orderedPref)] *)
  negotiateContentType : Request → list string → string;
  (** [json.Marshal(err)] on an error value: the body or the encoding error *)
  json_Marshal_error : error → string + error;
  (** the JSON values handed to [JSONResponse], and [json.Marshal] on them *)
  JSONValue : Type;
  json_Marshal : JSONValue → string + error;
  (** [json.NewDecoder(body).Decode(&niceError)] for a [flux.BaseError] *)
  json_Decode_BaseError : string → BaseError + error;
  (** [flux.CoverAllError] *)
  CoverAllError : error → BaseError;
  (** [transport.ErrorUnauthorized], [transport.ErrorDeprecated] *)
  ErrorUnauthorized : BaseError;
  ErrorDeprecated : BaseError;
  (** [fmt.Fprintf(w, format)] without operands: the text written *)
  fmt_Sprintf : string → string;
  (** [url.Parse], [router.Get(routeName).URL()], [path.Join],
      [Values.Encode] *)
  Router : Type;
  url_Parse : string → URL + error;
  Route_URL : Router → string → result URL;
  path_Join : string → string → string;
  Values_Encode : gmap string (list string) → string;
  (** [websocket.Upgrade(w, r, nil)], which may write to [w], and the
      connection it returns *)
  Websocket : Type;
  websocket_Upgrade : ResponseWriter → Request → ResponseWriter * (Websocket + error);
  (** the RPC clients, [getInstanceID], and the service with
      [RegisterDaemon] *)
  RPCClient : Type;
  InstanceID : Type;
  getInstanceID : Request → InstanceID;
  Service : Type;
  RegisterDaemon : Service → InstanceID → RPCClient → Service
}.

(** [errors.Wrap], [errors.Wrapf] with the message already formatted. *)
Definition errors_Wrap (err : error) (msg : string) : error := WithMessage err msg.

(** A line feed. *)
Definition LF : string := String (Ascii.ascii_of_nat 10) EmptyString.

Section transport.
Context `{ext : Externals}.

(** *** MakeURL *)

(** [for i := 0; i < len(urlParams); i += 2 { v.Add(urlParams[i], urlParams[i+1]) }],
    from index [i], with at most [n] iterations left.  An index out of
    range panics. *)
Fixpoint addParams (urlParams : list string) (n i : nat)
    (v : gmap string (list string)) : result (gmap string (list string)) :=
  match n with
  | 0 => Ok v
  | S n' =>
      if decide (i < length urlParams) then
        match urlParams !! i, urlParams !! (i + 1) with
        | Some key, Some value =>
            addParams urlParams n' (i + 2) (Values_Add v key value)
        | _, _ => Panic "runtime error: index out of range"
        end
      else Ok v
  end.

Definition MakeURL (endpoint : string) (router : Router) (routeName : string)
    (urlParams : list string) : result URL :=
  if decide (length urlParams `mod` 2 ≠ 0) then Panic "urlParams must be even!"
  else
    match url_Parse endpoint with
    | inr err => Fail (errors_Wrap err ("parsing endpoint " +:+ endpoint))
    | inl endpointURL =>
        match Route_URL router routeName with
        | Panic what => Panic what
        | Fail err => Fail (errors_Wrap err ("retrieving route path " +:+ routeName))
        | Ok routeURL =>
            v ← addParams urlParams (length urlParams) 0 ∅;
            Ok {| Scheme := Scheme endpointURL;
                  Host := Host endpointURL;
                  URLPath := path_Join (URLPath endpointURL) (URLPath routeURL);
                  RawQuery := Values_Encode v |}
        end
    end.

(** *** WriteError *)

(** The last three statements of [WriteError], also reached when the
    negotiation yields neither of the two content types. *)
Definition writePlainError (w : ResponseWriter) (code : Z) (err : error)
    : ResponseWriter :=
  w ++ [SetHeader "Content-Type" "text/plain; charset=utf-8";
        WriteHeader code;
        Write (Error err)].

Definition WriteError (w : ResponseWriter) (r : Request) (code : Z) (err : error)
    : ResponseWriter :=
  if decide (0 < String.length (Header_Get (ReqHeader r) "Accept")) then
    let negotiated := negotiateContentType r ["application/json"; "text/plain"] in
    if decide (negotiated = "application/json") then
      match json_Marshal_error err with
      | inr encodeErr =>
          w ++ [SetHeader "Content-Type" "text/plain; charset=utf-8";
                WriteHeader StatusInternalServerError;
                Write ("Error encoding error response: " +:+ Error encodeErr
                       +:+ LF +:+ LF +:+ "Original error: " +:+ Error err)]
      | inl body =>
          w ++ [SetHeader "Content-Type" "application/json; charset=utf-8";
                WriteHeader code;
                Write body]
      end
    else if decide (negotiated = "text/plain") then
      w ++ [SetHeader "Content-Type" "text/plain; charset=utf-8";
            WriteHeader code;
            Write (match err with
                   | BaseErrorPtr b => Help b
                   | _ => Error err
                   end)]
    else writePlainError w code err
  else writePlainError w code err.

(** *** ErrorResponse *)

Definition ErrorResponse (w : ResponseWriter) (r : Request) (apiError : error)
    : ResponseWriter :=
  let err := errors_Cause apiError in
  let '(code, outErr) :=
    match err with
    | Missing b => (StatusNotFound, b)
    | UserConfigProblem b => (StatusUnprocessableEntity, b)
    | ServerException b => (StatusInternalServerError, b)
    | _ => (StatusInternalServerError, CoverAllError apiError)
    end in
  WriteError w r code (BaseErrorPtr outErr).

(** *** JSONResponse *)

Definition JSONResponse (w : ResponseWriter) (r : Request) (result : JSONValue)
    : ResponseWriter :=
  match json_Marshal result with
  | inr err => ErrorResponse w r err
  | inl body =>
      w ++ [SetHeader "Content-Type" "application/json; charset=utf-8";
            WriteHeader StatusOK;
            Write body]
  end.

(** *** http/routes.go: the handler of the deprecated routes *)

Definition deprecated (w : ResponseWriter) (r : Request) : ResponseWriter :=
  WriteError w r StatusGone (BaseErrorPtr ErrorDeprecated).

(** *** http/client/client.go: executeRequest *)

(** [ioutil.ReadAll(resp.Body)] *)
Definition ReadAll (body : ReadCloser) : string + error :=
  match body with
  | BodyBytes data => inl data
  | BodyError e => inr e
  end.

(** [json.NewDecoder(resp.Body).Decode(&niceError)] *)
Definition Decode_BaseError (body : ReadCloser) : BaseError + error :=
  match body with
  | BodyBytes data => json_Decode_BaseError data
  | BodyError e => inr e
  end.

(** [do] is the outcome of [c.client.Do(req)].  The result is the pair
    that [executeRequest] returns, a [nil] component being [None]. *)
Definition executeRequest (do : Response + error)
    : option Response * option error :=
  match do with
  | inr err => (None, Some (errors_Wrap err "executing HTTP request"))
  | inl resp =>
      if decide (StatusCode resp = StatusOK ∨ StatusCode resp = StatusCreated
                 ∨ StatusCode resp = StatusNoContent) then
        (Some resp, None)
      else if decide (StatusCode resp = StatusUnauthorized) then
        (Some resp, Some (BaseErrorPtr ErrorUnauthorized))
      else if String.prefix "application/json"
                (Header_Get (RespHeader resp) "Content-Type") then
        match Decode_BaseError (Body resp) with
        | inr err =>
            (Some resp, Some (errors_Wrap err "decoding error in response body"))
        | inl niceError => (Some resp, Some (BaseErrorPtr niceError))
        end
      else
        match ReadAll (Body resp) with
        | inr err =>
            (Some resp,
             Some (errors_Wrap err "reading assumed plaintext response body"))
        | inl body =>
            (Some resp, Some (ErrorString (Status resp +:+ " " +:+ body)))
        end
  end.

(** *** The service handlers: doRegister *)

(** The calls that [doRegister] makes besides writing to [w]. *)
Inductive rcall : Type :=
  | NewRPC (ws : Websocket)                          (* newRPCFn(ws) *)
  | CallRegisterDaemon (inst : InstanceID) (c : RPCClient)
  | CallClose (c : RPCClient).                       (* rpcClient.Close() *)

Record registerOutcome : Type := MkRegisterOutcome {
  writer : ResponseWriter;
  service : Service;
  calls : list rcall
}.

Definition doRegister (s : Service) (w : ResponseWriter) (r : Request)
    (newRPCFn : Websocket → RPCClient) : registerOutcome :=
  let inst := getInstanceID r in
  match websocket_Upgrade w r with
  | (w, inr err) =>
      {| writer := w ++ [WriteHeader StatusBadRequest;
                         Write (fmt_Sprintf (Error err))];
         service := s;
         calls := [] |}
  | (w, inl ws) =>
      let rpcClient := newRPCFn ws in
      {| writer := w;
         service := RegisterDaemon s inst rpcClient;
         calls := [NewRPC ws; CallRegisterDaemon inst rpcClient;
                   CallClose rpcClient] |}
  end.
End transport.

(** What the claims say about [MakeURL]: the consecutive entries of
    [urlParams] taken two by two, and the values they add up to. *)
Fixpoint pairs (l : list string) : list (string * string) :=
  match l with
  | key :: value :: rest => (key, value) :: pairs rest
  | _ => []
  end.

Definition valuesOf (ps : list (string * string)) (v : gmap string (list string))
    : gmap string (list string) :=
  foldl (λ v p, Values_Add v p.1 p.2) v ps.

(** The three kinds of error that [ErrorResponse] tells apart, with the
    status code it gives each. *)
Inductive kind : Type := KMissing | KUserConfigProblem | KServerException.

Definition errorOf (k : kind) (b : BaseError) : error :=
  match k with
  | KMissing => Missing b
  | KUserConfigProblem => UserConfigProblem b
  | KServerException => ServerException b
  end.

Definition statusOf (k : kind) : Z :=
  match k with
  | KMissing => StatusNotFound
  | KUserConfigProblem => StatusUnprocessableEntity
  | KServerException => StatusInternalServerError
  end.

(** The kind of an error value, as the type switch of [ErrorResponse]
    classifies it; [None] is the default branch. *)
Definition kindOf (e : error) : option kind :=
  match errors_Cause e with
  | Missing _ => Some KMissing
  | UserConfigProblem _ => Some KUserConfigProblem
  | ServerException _ => Some KServerException
  | _ => None
  end.

(** An instance of the externals for the examples: the negotiation yields
    the [Accept] header when it is one of the preferences, the JSON of an
    error is its text, and decoding yields a [BaseError] with that text. *)
Definition exampleExternals : Externals := {|
  negotiateContentType r prefs :=
    if decide (Header_Get (ReqHeader r) "Accept" ∈ prefs)
    then Header_Get (ReqHeader r) "Accept" else EmptyString;
  json_Marshal_error e := inl (Error e);
  JSONValue := option string;
  json_Marshal x :=
    match x with
    | Some s => inl s
    | None => inr (ErrorString "json: unsupported value")
    end;
  json_Decode_BaseError s := inl (MkBaseError EmptyString (ErrorString s));
  CoverAllError e := MkBaseError "Internal server error" e;
  ErrorUnauthorized :=
    MkBaseError "authenticate" (ErrorString "request failed authentication");
  ErrorDeprecated :=
    MkBaseError "upgrade" (ErrorString "API endpoint deprecated");
  fmt_Sprintf s := s;
  Router := gmap string string;
  url_Parse s := inl {| Scheme := "http"; Host := s; URLPath := "/api/flux";
                        RawQuery := EmptyString |};
  Route_URL router name :=
    match router !! name with
    | Some p => Ok {| Scheme := EmptyString; Host := EmptyString; URLPath := p;
                      RawQuery := EmptyString |}
    | None => Panic "runtime error: invalid memory address or nil pointer dereference"
    end;
  path_Join a b := a +:+ b;
  Values_Encode v :=
    String.concat "&"
      (flat_map (λ kvs, (λ x, kvs.1 +:+ "=" +:+ x) <$> kvs.2) (map_to_list v));
  Websocket := nat;
  websocket_Upgrade w r :=
    if decide (Header_Get (ReqHeader r) "Upgrade" = "websocket") then (w, inl 0)
    else (w ++ [WriteHeader StatusBadRequest; Write "Bad Request"],
          inr (ErrorString "websocket: not a websocket handshake"));
  RPCClient := nat;
  InstanceID := string;
  getInstanceID r := Header_Get (ReqHeader r) "X-Scope-OrgID";
  Service := list (string * nat);
  RegisterDaemon s inst c := (inst, c) :: s
|}.

Definition jsonRequest : Request :=
  {| ReqHeader := {["Accept" := "application/json"]} |}.
Definition plainRequest : Request :=
  {| ReqHeader := {["Accept" := "text/plain"]} |}.
Definition oldRequest : Request := {| ReqHeader := ∅ |}.
Definition upgradeRequest : Request :=
  {| ReqHeader := {["Upgrade" := "websocket"]} |}.
Definition exampleRouter : gmap string string :=
  {["ListServices" := "/v3/services"]}.
Definition noDaemons : list (string * nat) := [].
Definition notFound : BaseError :=
  MkBaseError "no such service" (ErrorString "not found").

(** *** Shapes of written responses *)

(** A content type with a charset parameter. *)
Definition charsetQualified (contentType : string) : Prop :=
  ∃ media, contentType = media +:+ "; charset=utf-8".

(** [calls] is one header call that sets a charset-qualified content
    type, then a status code, then a body. *)
Definition writesResponse (calls : list wcall) (code : Z) : Prop :=
  ∃ contentType body,
    charsetQualified contentType ∧
    calls = [SetHeader "Content-Type" contentType; WriteHeader code; Write body].

(** *** Further notions for [Diff] *)


(** A chunk of [Diff(a, b)] as [Diff(b, a)] reports it: the deletions and
    the additions change places. *)
Definition mirror (c : Chunk) : Chunk :=
  {| Deleted := Added_ c; Added_ := Deleted c; Path := Path c |}.

(** The path of the chunk starts with [path]. *)
Definition extends (path : string) (c : Chunk) : Prop :=
  ∃ s, Path c = path +:+ s.

(** The chunk reports at least one value. *)
Definition nonEmpty (c : Chunk) : Prop := Deleted c ≠ [] ∨ Added_ c ≠ [].

(** A chunk as [diffValue] returns it when called with [path]. *)
Definition chunkAt (path : string) (c : Chunk) : Prop :=
  extends path c ∧ nonEmpty c.

(** A struct with an exported and an unexported field, and two values of
    it that differ in the unexported field only. *)
Definition account : type :=
  TStruct "account"
    (FCons "Name" EmptyString string_ (FCons "secret" "remote" int FNil)).
Definition account1 : value := VStruct [VGround (GString "ann"); VGround (GInt 1)].
Definition account2 : value := VStruct [VGround (GString "ann"); VGround (GInt 2)].

(** A comparison [d] is mirrored: with its two arguments exchanged it
    returns the mirrored chunks, up to their order, and in the same order
    when their paths are pairwise distinct. *)
Definition mirrored (d : Value → Value → string → result (list Chunk)) : Prop :=
  ∀ a b path cs,
    distinctV a → distinctV b → d a b path = Ok cs →
    ∃ cs', d b a path = Ok cs' ∧ cs' ≡ₚ mirror <$> cs ∧
           (NoDup (Path <$> cs) → cs' = mirror <$> cs).

(** ** service/config.go: patching the untyped configuration *)

From Stdlib Require Floats.SpecFloat.

(** What [json.Unmarshal] stores in an [interface{}]: [nil], a [bool], a
    [float64], a [string], a [[]interface{}] or a
    [map[string]interface{}].  A value is a tree: no map is shared between
    two places, as in what the decoder builds. *)
#[warnings="-register-all"] Inductive json : Type :=
  | JNull
  | JBool (b : bool)
  | JNumber (x : SpecFloat.spec_float)
  | JString (s : string)
  | JArray (l : list json)
  | JObject (m : gmap string json).

(** The body of the loop of [applyPatch], for the entry [key], [value]
    of the patch: the map [uc] after the iteration.  The nested call
    patches the map stored under [key] in place. *)
Fixpoint applyPatchEntry (key : string) (value : json) (uc : gmap string json)
    {struct value} : gmap string json :=
  match value with
  | JNull => delete key uc
  | JObject cp =>
      let uc :=
        match uc !! key with
        | None | Some JNull => <[key := JObject ∅]> uc
        | _ => uc
        end in
      match uc !! key with
      | Some (JObject nested) =>
          <[key := JObject (map_fold applyPatchEntry nested cp)]> uc
      | _ => uc
      end
  | _ => <[key := value]> uc
  end.

(** [applyPatch(uc, cp)]: the map [uc] after the call. *)
Definition applyPatch (uc cp : gmap string json) : gmap string json :=
  map_fold applyPatchEntry uc cp.

(** [for key, value := range cp { ... }] with the entries of the patch
    visited in the order [entries]. *)
Definition applyPatchIn (entries : list (string * json)) (uc : gmap string json)
    : gmap string json :=
  foldl (λ uc e, applyPatchEntry e.1 e.2 uc) uc entries.

(** What a patch value makes of the old value of its key. *)
Definition patchAt (value : json) (old : option json) : option json :=
  match value with
  | JNull => None
  | JObject cp =>
      match old with
      | None | Some JNull => Some (JObject (applyPatch ∅ cp))
      | Some (JObject nested) => Some (JObject (applyPatch nested cp))
      | Some other => Some other
      end
  | _ => Some value
  end.

(** The number of nodes of a value. *)
Fixpoint size (v : json) : nat :=
  match v with
  | JArray l => S (foldr (λ x n, size x + n) 0 l)
  | JObject m => S (map_fold (λ _ x n, size x + n) 0 m)
  | _ => 1
  end.

(** The same loop with the order of [range] left open, as in Go: the
    entries of the patch are visited in any order, in the nested calls
    too.  [patched uc cp uc'] says that [applyPatch(uc, cp)] can leave the
    map [uc'] behind. *)
Definition ensureObject (uc : gmap string json) (key : string) : gmap string json :=
  match uc !! key with
  | None | Some JNull => <[key := JObject ∅]> uc
  | _ => uc
  end.

Inductive patched : gmap string json → gmap string json → gmap string json → Prop :=
  | patched_range uc cp entries uc' :
      entries ≡ₚ map_to_list cp → patchedIn uc entries uc' → patched uc cp uc'
with patchedIn : gmap string json → list (string * json) → gmap string json → Prop :=
  | patchedIn_done uc : patchedIn uc [] uc
  | patchedIn_next uc key value entries uc1 uc' :
      patchedEntry uc key value uc1 → patchedIn uc1 entries uc' →
      patchedIn uc ((key, value) :: entries) uc'
with patchedEntry : gmap string json → string → json → gmap string json → Prop :=
  | patched_nil uc key : patchedEntry uc key JNull (delete key uc)
  | patched_map uc key cp nested nested' :
      ensureObject uc key !! key = Some (JObject nested) →
      patched nested cp nested' →
      patchedEntry uc key (JObject cp)
        (<[key := JObject nested']> (ensureObject uc key))
  | patched_map_skipped uc key cp :
      (∀ nested, ensureObject uc key !! key ≠ Some (JObject nested)) →
      patchedEntry uc key (JObject cp) (ensureObject uc key)
  | patched_default uc key value :
      value ≠ JNull → (∀ cp, value ≠ JObject cp) →
      patchedEntry uc key value (<[key := value]> uc).

Scheme patched_min := Minimality for patched Sort Prop
  with patchedIn_min := Minimality for patchedIn Sort Prop
  with patchedEntry_min := Minimality for patchedEntry Sort Prop.
Combined Scheme patched_mutind from patched_min, patchedIn_min, patchedEntry_min.

(** ** http/client/client.go: the client *)

(** [update.ReleaseSpec]; its service, image and kind specifications and
    [flux.ServiceID] are string types. *)
Record ReleaseCause : Type := MkReleaseCause {
  User : string;
  Message : string
}.

Record ReleaseSpec : Type := MkReleaseSpec {
  ServiceSpecs : list string;
  ImageSpec : string;
  Kind : string;
  Excludes : list string;
  Cause : ReleaseCause
}.

(** An outgoing [*http.Request]. *)
Record ClientRequest : Type := MkClientRequest {
  Method : string;
  RequestURL : string;
  RequestBody : option string;
  Header : gmap string string
}.

(** What the client calls besides the transport: the text of a URL, the
    error with which [http.NewRequest] rejects a method or a URL, the
    round trip of [c.client.Do], and the JSON decoders. *)
Class ClientExternals `{ext : Externals} : Type := {
  (** [u.String()] *)
  URL_String : URL → string;
  (** [http.NewRequest(method, url, body)]: its error, if any *)
  http_NewRequest_error : string → string → option error;
  (** [c.client.Do(req)] *)
  client_Do : ClientRequest → Response + error;
  (** [json.Unmarshal(respBytes, &dest)]: the decoded value or the error *)
  json_Unmarshal : string → JSONValue + error;
  (** [json.NewDecoder(resp.Body).Decode(dest)] on the bytes of the body *)
  json_Decode : string → JSONValue + error
}.

Section client.
Context `{cext : ClientExternals}.

(** The [Client], without its [*http.Client], whose [Do] is among the
    functions above. *)
Record Client : Type := MkClient {
  token : string;
  router : Router;
  endpoint : string
}.

(** [SetToken] and [(c *Client) setToken] *)
Definition SetToken (t : string) (req : ClientRequest) : ClientRequest :=
  {| Method := Method req;
     RequestURL := RequestURL req;
     RequestBody := RequestBody req;
     Header := <["Authorization" := "Scope-Probe token=" +:+ t]> (Header req) |}.

Definition setToken (c : Client) (req : ClientRequest) : ClientRequest :=
  if decide (token c ≠ EmptyString) then SetToken (token c) req else req.

(** [req.Header.Set("Accept", "application/json")] *)
Definition setAccept (req : ClientRequest) : ClientRequest :=
  {| Method := Method req;
     RequestURL := RequestURL req;
     RequestBody := RequestBody req;
     Header := <["Accept" := "application/json"]> (Header req) |}.

(** [http.NewRequest], then [c.setToken(req)] and the [Accept] header. *)
Definition newRequest (c : Client) (method : string) (u : URL)
    (body : option string) : ClientRequest + error :=
  match http_NewRequest_error method (URL_String u) with
  | Some err => inr (errors_Wrap err ("constructing request " +:+ URL_String u))
  | None =>
      inl (setAccept (setToken c {| Method := method;
                                    RequestURL := URL_String u;
                                    RequestBody := body;
                                    Header := ∅ |}))
  end.

(** The outcome of a method of the client: what was decoded into [dest],
    if anything, and the error returned. *)
Record outcome : Type := MkOutcome {
  decoded : option JSONValue;
  returned : option error
}.

Definition failed (err : error) : outcome :=
  {| decoded := None; returned := Some err |}.

(** [methodWithResp]; [body] is [None] for a [nil] body. *)
Definition methodWithResp (c : Client) (method route : string)
    (body : option JSONValue) (queryParams : list string) : result outcome :=
  match MakeURL (endpoint c) (router c) route queryParams with
  | Panic what => Panic what
  | Fail err => Ok (failed (errors_Wrap err "constructing URL"))
  | Ok u =>
      match (match body with
             | Some b => json_Marshal b
             | None => inl EmptyString
             end) with
      | inr err => Ok (failed (errors_Wrap err "encoding request body"))
      | inl bodyBytes =>
          match newRequest c method u (Some bodyBytes) with
          | inr err => Ok (failed err)
          | inl req =>
              match executeRequest (client_Do req) with
              | (_, Some err) => Ok (failed (errors_Wrap err "executing HTTP request"))
              | (None, None) =>
                  Panic "runtime error: invalid memory address or nil pointer dereference"
              | (Some resp, None) =>
                  match ReadAll (Body resp) with
                  | inr err =>
                      Ok (failed (errors_Wrap err "decoding response from server"))
                  | inl respBytes =>
                      if decide (String.length respBytes ≤ 0) then
                        Ok {| decoded := None; returned := None |}
                      else
                        match json_Unmarshal respBytes with
                        | inr err =>
                            Ok (failed (errors_Wrap err "decoding response from server"))
                        | inl v => Ok {| decoded := Some v; returned := None |}
                        end
                  end
              end
          end
      end
  end.

(** [get] *)
Definition get (c : Client) (route : string) (queryParams : list string)
    : result outcome :=
  match MakeURL (endpoint c) (router c) route queryParams with
  | Panic what => Panic what
  | Fail err => Ok (failed (errors_Wrap err "constructing URL"))
  | Ok u =>
      match newRequest c "GET" u None with
      | inr err => Ok (failed err)
      | inl req =>
          match executeRequest (client_Do req) with
          | (_, Some err) => Ok (failed (errors_Wrap err "executing HTTP request"))
          | (None, None) =>
              Panic "runtime error: invalid memory address or nil pointer dereference"
          | (Some resp, None) =>
              match (match Body resp with
                     | BodyBytes data => json_Decode data
                     | BodyError e => inr e
                     end) with
              | inr err =>
                  Ok (failed (errors_Wrap err "decoding response from server"))
              | inl v => Ok {| decoded := Some v; returned := None |}
              end
          end
      end
  end.

(** The [args] that [UpdateImages] builds. *)
Definition updateImagesArgs (s : ReleaseSpec) : list string :=
  let args := ["image"; ImageSpec s; "kind"; Kind s; "user"; User (Cause s)] in
  let args := foldl (λ args spec, args ++ ["service"; spec]) args (ServiceSpecs s) in
  let args := foldl (λ args ex, args ++ ["exclude"; ex]) args (Excludes s) in
  if decide (Message (Cause s) ≠ EmptyString)
  then args ++ ["message"; Message (Cause s)] else args.

Definition UpdateImages (c : Client) (s : ReleaseSpec) : result outcome :=
  methodWithResp c "POST" "UpdateImages" None (updateImagesArgs s).

Definition ListServices (c : Client) (namespace : string) : result outcome :=
  get c "ListServices" ["namespace"; namespace].

Definition ListImages (c : Client) (s : string) : result outcome :=
  get c "ListImages" ["service"; s].

Definition JobStatus (c : Client) (jobID : string) : result outcome :=
  get c "JobStatus" ["id"; jobID].

Definition SyncStatus (c : Client) (ref : string) : result outcome :=
  get c "SyncStatus" ["ref"; ref].

Definition Export (c : Client) : result outcome := get c "Export" [].

(** [postWithBody] and [post]; the [dest] of both is [nil], so what is
    decoded is dropped. *)
Definition postWithBody (c : Client) (route : string) (body : option JSONValue)
    (queryParams : list string) : result (option error) :=
  o ← methodWithResp c "POST" route body queryParams; Ok (returned o).

Definition post (c : Client) (route : string) (queryParams : list string)
    : result (option error) :=
  postWithBody c route None queryParams.

Definition SyncNotify (c : Client) : result (option error) := post c "SyncNotify" [].

Definition LogEvent (c : Client) (event : JSONValue) : result (option error) :=
  postWithBody c "LogEvent" (Some event) [].

Definition UpdatePolicies (c : Client) (updates : JSONValue) : result outcome :=
  methodWithResp c "PATCH" "UpdatePolicies" (Some updates) [].
End client.

(** Externals of the client for the examples: the server answers a
    request for [/api/flux/v6/jobs?id=1] with the JSON text [1] and status
    200, and every other request with status 404 and a plain text. *)
Definition exampleClientExternals : ClientExternals (ext := exampleExternals) :=
  Build_ClientExternals exampleExternals
    (λ u, URLPath u +:+ "?" +:+ RawQuery u)
    (λ method url, None)
    (λ req,
       if decide (RequestURL req = "/api/flux/v6/jobs?id=1") then
         inl {| StatusCode := StatusOK; Status := "200 OK";
                RespHeader := {["Content-Type" := "application/json; charset=utf-8"]};
                Body := BodyBytes "1" |}
       else
         inl {| StatusCode := StatusNotFound; Status := "404 Not Found";
                RespHeader := ∅; Body := BodyBytes "no such route" |})
    (λ data, @inl (option string) error (Some data))
    (λ data, @inl (option string) error (Some data)).

Definition exampleClient : Client (ext := exampleExternals) :=
  {| token := "t0ken"; router := {["UpdateImages" := "/v6/update-images";
                                   "JobStatus" := "/v6/jobs"]};
     endpoint := "flux" |}.

Definition exampleRelease : ReleaseSpec :=
  {| ServiceSpecs := ["default/a"; "default/b"]; ImageSpec := "<all latest>";
     Kind := "execute"; Excludes := ["default/c"];
     Cause := {| User := "ann"; Message := EmptyString |} |}.

(** ** api.go: the handlers of the service *)

(** What the handlers call besides the transport: the request accessors
    of net/http and mux, the parsers of the [update] and [flux] packages
    (their results are string types), the methods of the service, the
    GitHub client, and what the logging wrapper takes from the request,
    the clock and the strings package. *)
Class ServerExternals `{ext : Externals} : Type := {
  (** [mux.Vars(r)[name]] *)
  mux_Var : Request → string → string;
  (** [r.ParseForm()]: its error, if any *)
  ParseForm : Request → option error;
  (** [r.Form[key]], [r.URL.Query()[key]], [r.FormValue(key)] *)
  Form : Request → string → list string;
  URL_Query : Request → string → list string;
  FormValue : Request → string → string;
  (** [update.ParseServiceSpec], [update.ParseImageSpec],
      [update.ParseReleaseKind], [flux.ParseServiceID] *)
  ParseServiceSpec : string → string + error;
  ParseImageSpec : string → string + error;
  ParseReleaseKind : string → string + error;
  ParseServiceID : string → string + error;
  (** the verb [%q] of the fmt package on a string *)
  fmt_q : string → string;
  (** [s.service.UpdateImages], [IsDaemonConnected], [GenerateDeployKey] *)
  server_UpdateImages : Service → InstanceID → ReleaseSpec → JSONValue + error;
  server_IsDaemonConnected : Service → InstanceID → option error;
  server_GenerateDeployKey : Service → InstanceID → option error;
  (** [github.NewGithubClient(tok).InsertDeployKey(owner, repo, publicKey)] *)
  InsertDeployKey : string → string → string → string → option error;
  (** the type assertion of [err] to a pointer to [httperror.APIError],
      and the [StatusCode] of the result *)
  APIError_StatusCode : error → option Z;
  (** [r.URL.String()], [url.QueryUnescape], [time.Since(begin).String()],
      [strings.TrimSpace] *)
  Request_URL_String : Request → string;
  url_QueryUnescape : string → string + error;
  time_Since : string;
  strings_TrimSpace : string → string
}.

Definition StatusAccepted : Z := 202.

(** The calls that a handler makes on the service and on GitHub. *)
Inductive serviceCall `{ext : Externals} : Type :=
  | CallUpdateImages (inst : InstanceID) (spec : ReleaseSpec)
  | CallIsDaemonConnected (inst : InstanceID)
  | CallGenerateDeployKey (inst : InstanceID)
  | CallInsertDeployKey (tok owner repo publicKey : string).

(** What a handler leaves behind: the calls on the response writer and
    the calls on the service, both in order. *)
Record handled `{ext : Externals} : Type := MkHandled {
  response : ResponseWriter;
  called : list serviceCall
}.

Section handlers.
Context `{sext : ServerExternals}.

(** The loops [for _, x := range texts { y, err := parse(x); ... }] of
    [UpdateImages]: the parsed values in order, or the first text that
    does not parse, with its error. *)
Fixpoint parseEach (parse : string → string + error) (texts : list string)
    (parsed : list string) : list string + string * error :=
  match texts with
  | [] => inl parsed
  | text :: rest =>
      match parse text with
      | inr err => inr (text, err)
      | inl x => parseEach parse rest (parsed ++ [x])
      end
  end.

(** [(s HTTPService) UpdateImages] *)
Definition HTTPService_UpdateImages (s : Service) (w : ResponseWriter)
    (r : Request) : handled :=
  let inst := getInstanceID r in
  let image := mux_Var r "image" in
  let kind := mux_Var r "kind" in
  let badRequest err := {| response := WriteError w r StatusBadRequest err;
                           called := [] |} in
  match ParseForm r with
  | Some err => badRequest (errors_Wrap err "parsing form")
  | None =>
  match parseEach ParseServiceSpec (Form r "service") [] with
  | inr (service, err) =>
      badRequest (errors_Wrap err ("parsing service spec " +:+ fmt_q service))
  | inl serviceSpecs =>
  match ParseImageSpec image with
  | inr err => badRequest (errors_Wrap err ("parsing image spec " +:+ fmt_q image))
  | inl imageSpec =>
  match ParseReleaseKind kind with
  | inr err => badRequest (errors_Wrap err ("parsing release kind " +:+ fmt_q kind))
  | inl releaseKind =>
  match parseEach ParseServiceID (URL_Query r "exclude") [] with
  | inr (ex, err) =>
      badRequest (errors_Wrap err ("parsing excluded service " +:+ fmt_q ex))
  | inl excludes =>
      let spec := {| ServiceSpecs := serviceSpecs;
                     ImageSpec := imageSpec;
                     Kind := releaseKind;
                     Excludes := excludes;
                     Cause := {| User := FormValue r "user";
                                 Message := FormValue r "message" |} |} in
      match server_UpdateImages s inst spec with
      | inr err => {| response := ErrorResponse w r err;
                      called := [CallUpdateImages inst spec] |}
      | inl jobID => {| response := JSONResponse w r jobID;
                        called := [CallUpdateImages inst spec] |}
      end
  end end end end end.


(** [(s HTTPService) PostIntegrationsGithub] *)
Definition HTTPService_PostIntegrationsGithub (s : Service) (w : ResponseWriter)
    (r : Request) : handled :=
  let inst := getInstanceID r in
  let owner := mux_Var r "owner" in
  let repo := mux_Var r "repository" in
  let tok := Header_Get (ReqHeader r) "GithubToken" in
  if decide (repo = EmptyString ∨ owner = EmptyString ∨ tok = EmptyString) then
    {| response := WriteError w r StatusUnprocessableEntity
                     (ErrorString "repo, owner or token is empty");
       called := [] |}
  else
    match server_GenerateDeployKey s inst with
    | Some err => {| response := ErrorResponse w r err;
                     called := [CallGenerateDeployKey inst] |}
    | None =>
        let publicKey := "abc123" in
        let called := [CallGenerateDeployKey inst;
                       CallInsertDeployKey tok owner repo publicKey] in
        match InsertDeployKey tok owner repo publicKey with
        | Some err =>
            let code := match APIError_StatusCode err with
                        | Some statusCode => statusCode
                        | None => StatusInternalServerError
                        end in
            {| response := WriteError w r code err; called := called |}
        | None => {| response := w ++ [WriteHeader StatusOK]; called := called |}
        end
    end.

(** *** The logging wrapper *)

(** [codeWriter] and [teeWriter]: the writer they wrap, with the status
    code and the bytes they keep. *)
Record codeWriter : Type := MkCodeWriter {
  cw_ResponseWriter : ResponseWriter;
  code : Z
}.

Record teeWriter : Type := MkTeeWriter {
  tw_ResponseWriter : codeWriter;
  buf : string
}.

(** [(w *codeWriter) WriteHeader]; the other methods are those of the
    writer it embeds. *)
Definition codeWriter_WriteHeader (w : codeWriter) (c : Z) : codeWriter :=
  {| code := c; cw_ResponseWriter := cw_ResponseWriter w ++ [WriteHeader c] |}.

Definition codeWriter_call (w : codeWriter) (c : wcall) : codeWriter :=
  match c with
  | WriteHeader c => codeWriter_WriteHeader w c
  | _ => {| code := code w; cw_ResponseWriter := cw_ResponseWriter w ++ [c] |}
  end.

(** [(w *teeWriter) Write]; the other methods are those of the
    [codeWriter] it embeds. *)
Definition teeWriter_Write (w : teeWriter) (p : string) : teeWriter :=
  {| buf := buf w +:+ p;
     tw_ResponseWriter := codeWriter_call (tw_ResponseWriter w) (Write p) |}.

Definition teeWriter_call (w : teeWriter) (c : wcall) : teeWriter :=
  match c with
  | Write p => teeWriter_Write w p
  | _ => {| buf := buf w;
            tw_ResponseWriter := codeWriter_call (tw_ResponseWriter w) c |}
  end.

(** [mustUnescape] *)
Definition mustUnescape (s : string) : string :=
  match url_QueryUnescape s with
  | inl unescaped => unescaped
  | inr _ => s
  end.

(** The values of a log line. *)
Inductive logValue : Type :=
  | LogString (s : string)
  | LogInt (n : Z).

(** [logging(next, logger)], for a handler [next] given by the calls it
    makes on the writer it is handed: what is written to [w], and the keys
    and values that are logged. *)
Definition logging (next : Request → list wcall) (w : ResponseWriter)
    (r : Request) : ResponseWriter * list (string * logValue) :=
  let cw := {| cw_ResponseWriter := w; code := StatusOK |} in
  let tw := {| tw_ResponseWriter := cw; buf := EmptyString |} in
  let tw := foldl teeWriter_call tw (next r) in
  let cw := tw_ResponseWriter tw in
  let requestLogger :=
    [("url", LogString (mustUnescape (Request_URL_String r)));
     ("took", LogString time_Since);
     ("status_code", LogInt (code cw))] in
  let requestLogger :=
    if decide (code cw ≠ StatusOK)
    then requestLogger ++ [("error", LogString (strings_TrimSpace (buf tw)))]
    else requestLogger in
  (cw_ResponseWriter cw, requestLogger).
End handlers.

(** Externals of the service for the examples: the route variables and
    the form values are read from the headers of the request, every
    parser accepts every text but the empty one, and a daemon is
    connected when its instance is registered. *)
Definition exampleServerExternals : ServerExternals (ext := exampleExternals) :=
  Build_ServerExternals exampleExternals
    (λ r name, Header_Get (ReqHeader r) name)
    (λ r, None)
    (λ r key, match ReqHeader r !! key with Some x => [x] | None => [] end)
    (λ r key, match ReqHeader r !! key with Some x => [x] | None => [] end)
    (λ r key, Header_Get (ReqHeader r) key)
    (λ text, if decide (text = EmptyString)
             then inr (ErrorString "empty service spec") else inl text)
    (λ text, if decide (text = EmptyString)
             then inr (ErrorString "empty image spec") else inl text)
    (λ text, if decide (text = EmptyString)
             then inr (ErrorString "empty release kind") else inl text)
    (λ text, if decide (text = EmptyString)
             then inr (ErrorString "empty service ID") else inl text)
    (λ text, text)
    (λ s inst spec, @inl (option string) error (Some "job-1"))
    (λ s inst, if decide (inst ∈ s.*1) then None
               else Some (UserConfigProblem
                            (MkBaseError "start the daemon"
                               (ErrorString "daemon not connected"))))
    (λ s inst, None)
    (λ tok owner repo publicKey, None)
    (λ err, None)
    (λ r, "/v4/ping")
    (λ text, inl text)
    "1ms"
    (λ text, text).

Definition githubRequest : Request :=
  {| ReqHeader := {["owner" := "weaveworks"; "repository" := "flux";
                    "GithubToken" := "s3cret"]} |}.

(** ** The policy annotations of a manifest *)

(** [policy.Update]: the policies to add, with their values, the policies
    to remove, and the tag pattern for all containers. *)
Record PolicyUpdate : Type := MkPolicyUpdate {
  Add : gmap string string;
  Remove : gmap string string;
  TagAll : string
}.

Section policies.
(** [resource.PolicyPrefix] *)
Variable PolicyPrefix : string.

(** The function that [UpdatePolicies] hands to [updateAnnotations]: the
    annotations [a] after its two loops. *)
Definition UpdatePolicies_annotations (update : PolicyUpdate)
    (a : gmap string string) : gmap string string :=
  let a := map_fold (λ policy v a, <[PolicyPrefix +:+ policy := v]> a) a
             (Add update) in
  map_fold (λ policy _ a, delete (PolicyPrefix +:+ policy) a) a (Remove update).
End policies.

Definition examplePolicyUpdate : PolicyUpdate :=
  {| Add := {["automated" := "true"; "locked" := "true"]};
     Remove := {["locked" := "true"]};
     TagAll := EmptyString |}.

(** *** Iterating over the manifests of the services *)

Record Metadata : Type := MkMetadata {
  Name : string;
  Annotations : option (gmap string string)   (* [None] is the nil map *)
}.

Record Container : Type := MkContainer {
  ContainerName : string;
  Image : string
}.

Record Manifest : Type := MkManifest {
  Metadata_ : Metadata;
  Containers : list Container
}.

(** [(m Metadata) AnnotationsOrNil] *)
Definition AnnotationsOrNil (m : Metadata) : gmap string string :=
  match Annotations m with
  | None => ∅
  | Some a => a
  end.

Section manifests.
(** [ioutil.ReadFile] and [yaml.Unmarshal(def, &m)], which fills in the
    manifest [m] as far as it gets. *)
Variable ioutil_ReadFile : string → string + error.
Variable yaml_Unmarshal : string → Manifest * option error.
(** The state that the function [f] reads and writes. *)
Variable State : Type.

Definition parseManifest (def : string) : Manifest * option error :=
  match yaml_Unmarshal def with
  | (m, Some err) => (m, Some (errors_Wrap err "decoding annotations"))
  | (m, None) => (m, None)
  end.

(** [iterateManifests], over the services in the order in which [range]
    visits them; [f] returns the new state and its error. *)
Fixpoint iterateManifests (services : list (string * list string))
    (f : string → Manifest → State → State * option error) (st : State)
    : State * option error :=
  match services with
  | [] => (st, None)
  | (serviceID, paths) :: rest =>
      if decide (length paths ≠ 1) then iterateManifests rest f st
      else
        match paths with
        | [] => (st, None)   (* not reached: the length is 1 *)
        | path :: _ =>
            match ioutil_ReadFile path with
            | inr err => (st, Some err)
            | inl def =>
                match parseManifest def with
                | (_, Some err) => (st, Some err)
                | (manifest, None) =>
                    match f serviceID manifest st with
                    | (st, Some err) => (st, Some err)
                    | (st, None) => iterateManifests rest f st
                    end
                end
            end
        end
  end.
End manifests.

(** *** Further notions for [applyPatch] and [diffStruct] *)

(** A patch without [null]: no key, at any depth of its objects, is
    patched with [null]. *)
#[warnings="-register-all"] Inductive nullFree : gmap string json → Prop :=
  | nullFree_object cp :
      (∀ key value, cp !! key = Some value →
         value ≠ JNull ∧ ∀ nested, value = JObject nested → nullFree nested) →
      nullFree cp.

(** Two lists of field values with the same values in the exported
    fields of [fs], the first of which has the index [i]. *)
Fixpoint sameExported (fs : fields) (i : nat) (vs ws : list value) : Prop :=
  match fs with
  | FNil => True
  | FCons _ pkgPath _ rest =>
      (pkgPath = EmptyString → vs !! i = ws !! i) ∧ sameExported rest (S i) vs ws
  end.
(** *** Facts about the order on paths *)

Lemma strings_Compare_lt a b :
  strings_Compare a b = (-1)%Z ↔ String_as_OT.lt a b.
Proof.
  unfold strings_Compare, String_as_OT.lt.
  destruct (String_as_OT.compare a b); split; congruence || lia.
Qed.

Lemma str_lt_irrefl a : ¬ String_as_OT.lt a a.
Proof. apply (irreflexivity String_as_OT.lt). Qed.

Lemma str_lt_trans a b c :
  String_as_OT.lt a b → String_as_OT.lt b c → String_as_OT.lt a c.
Proof. apply (transitivity (R := String_as_OT.lt)). Qed.

Lemma strings_Compare_gt a b :
  strings_Compare a b = 1%Z ↔ String_as_OT.lt b a.
Proof.
  unfold strings_Compare.
  destruct (String_as_OT.compare_spec a b) as [Heq|Hlt|Hgt].
  - unfold String_as_OT.eq in Heq. subst. split; [lia|].
    intros H. by apply str_lt_irrefl in H.
  - split; [lia|]. intros H.
    exfalso. apply (str_lt_irrefl a). by eapply str_lt_trans.
  - done.
Qed.

Lemma strings_Compare_eq a b : strings_Compare a b = 0%Z ↔ a = b.
Proof.
  unfold strings_Compare.
  destruct (String_as_OT.compare_spec a b) as [Heq|Hlt|Hgt].
  - done.
  - split; [lia|]. intros ->. by apply str_lt_irrefl in Hlt.
  - split; [lia|]. intros ->. by apply str_lt_irrefl in Hgt.
Qed.

Lemma str_le_alt a b : str_le a b ↔ a = b ∨ String_as_OT.lt a b.
Proof.
  unfold str_le. rewrite <- strings_Compare_eq, <- strings_Compare_lt.
  unfold strings_Compare. destruct (String_as_OT.compare a b); split;
    intros; try lia; try (by left); try (by right); destruct H; lia.
Qed.

#[global] Instance str_le_refl : Reflexive str_le.
Proof. intros a. apply str_le_alt. by left. Qed.

#[global] Instance str_le_trans : Transitive str_le.
Proof.
  intros a b c. rewrite !str_le_alt. intros [->|H1] [->|H2]; auto.
  right. by eapply str_lt_trans.
Qed.

#[global] Instance str_le_antisym : AntiSymm (=) str_le.
Proof.
  intros a b. rewrite !str_le_alt. intros [->|H1] [H2|H2]; auto.
  exfalso. apply (str_lt_irrefl a). by eapply str_lt_trans.
Qed.

#[global] Instance str_le_total : Total str_le.
Proof.
  intros a b. unfold str_le. destruct (decide (strings_Compare a b = 1%Z)) as [H|H].
  - right. apply strings_Compare_gt in H. apply strings_Compare_lt in H. lia.
  - by left.
Qed.

#[global] Instance path_le_refl : Reflexive path_le.
Proof. intros x. unfold path_le. done. Qed.

#[global] Instance path_le_trans : Transitive path_le.
Proof. intros x y z. unfold path_le. apply transitivity. Qed.

Lemma Less_true x y : Less x y = true → path_le x y ∧ Path x ≠ Path y.
Proof.
  unfold Less, path_le, str_le. intros H%bool_decide_eq_true. split; [lia|].
  intros Heq. apply strings_Compare_eq in Heq. lia.
Qed.

Lemma Less_false x y : Less x y = false → path_le y x.
Proof.
  unfold Less, path_le, str_le. intros H%bool_decide_eq_false.
  intros Hgt. apply strings_Compare_gt, strings_Compare_lt in Hgt. done.
Qed.

(** *** [sort_Sort] returns a sorted permutation *)

Lemma insertBack_Permutation x rp : insertBack x rp ≡ₚ x :: rp.
Proof.
  induction rp as [|y rp IH]; simpl; [done|].
  destruct (Less x y); [|done]. rewrite IH. apply Permutation_swap.
Qed.

Lemma insertBack_sorted x rp :
  StronglySorted (flip path_le) rp →
  StronglySorted (flip path_le) (insertBack x rp).
Proof.
  induction 1 as [|y rp Hs IH Hall]; simpl.
  - repeat constructor.
  - destruct (Less x y) eqn:Hless.
    + constructor; [done|].
      rewrite insertBack_Permutation. constructor; [|done].
      by apply Less_true in Hless as [? _].
    + apply Less_false in Hless.
      constructor; [by constructor|].
      constructor; [done|].
      eapply Forall_impl; [exact Hall|].
      intros z Hz. unfold flip in *. by etrans.
Qed.

Lemma foldl_insertBack_Permutation data rp :
  foldl (λ rp x, insertBack x rp) rp data ≡ₚ data ++ rp.
Proof.
  revert rp. induction data as [|x data IH]; intros rp; simpl; [done|].
  rewrite IH, insertBack_Permutation. by rewrite Permutation_middle.
Qed.

Lemma foldl_insertBack_sorted data rp :
  StronglySorted (flip path_le) rp →
  StronglySorted (flip path_le) (foldl (λ rp x, insertBack x rp) rp data).
Proof.
  revert rp. induction data as [|x data IH]; intros rp Hs; simpl; [done|].
  by apply IH, insertBack_sorted.
Qed.

Lemma sort_Sort_Permutation data : sort_Sort data ≡ₚ data.
Proof.
  unfold sort_Sort. rewrite reverse_Permutation, foldl_insertBack_Permutation.
  by rewrite app_nil_r.
Qed.

Lemma sort_Sort_sorted data : StronglySorted path_le (sort_Sort data).
Proof.
  unfold sort_Sort. apply Sorted_StronglySorted; [apply _|].
  set (rp := foldl _ _ _).
  assert (Hs : Sorted (flip path_le) rp).
  { apply StronglySorted_Sorted, foldl_insertBack_sorted. constructor. }
  apply Sorted_reverse in Hs. done.
Qed.

Lemma sort_Sort_nil : sort_Sort [] = [].
Proof. reflexivity. Qed.

(** Two sorted permutations of each other with pairwise distinct paths
    are equal. *)
Lemma Permutation_fmap_inj {A B} (f : A → B) (l1 l2 : list A) :
  NoDup (f <$> l1) → l1 ≡ₚ l2 → f <$> l1 = f <$> l2 → l1 = l2.
Proof.
  revert l2. induction l1 as [|x l1 IH]; intros l2 Hnd Hperm Hmap.
  - by apply Permutation_nil_l in Hperm.
  - destruct l2 as [|y l2]; [by apply Permutation_nil_r in Hperm|].
    rewrite !fmap_cons in Hmap. rewrite fmap_cons in Hnd.
    injection Hmap as Hxy Hmap.
    apply NoDup_cons in Hnd as [Hnotin Hnd].
    assert (x = y) as <-.
    { assert (Hin : x ∈ y :: l2) by (rewrite <- Hperm; left).
      apply elem_of_cons in Hin as [->|Hin]; [done|].
      exfalso. apply Hnotin. rewrite Hmap. by apply list_elem_of_fmap_2. }
    f_equal. apply IH; [done| |done]. by apply (inj (cons x)).
Qed.

Lemma sorted_paths_unique (l1 l2 : list Chunk) :
  StronglySorted path_le l1 → StronglySorted path_le l2 →
  NoDup (Path <$> l1) → l1 ≡ₚ l2 → l1 = l2.
Proof.
  intros Hs1 Hs2 Hnd Hperm.
  apply (Permutation_fmap_inj Path); [done|done|].
  apply (StronglySorted_unique str_le).
  - eapply StronglySorted_fmap; [|exact Hs1]. done.
  - eapply StronglySorted_fmap; [|exact Hs2]. done.
  - by apply fmap_Permutation.
Qed.


(** *** Diff on values of different types (claim C3) *)

(** C3.  When the runtime types of [a] and [b] differ, [Diff] fails with
    [ErrNotDiffable]; it returns no chunk list. *)
Theorem Diff_types_differ (a b : iface) :
  TypeOf a ≠ TypeOf b →
  Diff a b = Fail ErrNotDiffable ∧ ∀ cs, Diff a b ≠ Ok cs.
Proof.
  intros Hne. assert (Hd : Diff a b = Fail ErrNotDiffable).
  { unfold Diff. by rewrite decide_True. }
  split; [done|]. intros cs. by rewrite Hd.
Qed.

Lemma Diff_types_differ_witness :
  TypeOf (ints [1]%Z) ≠ TypeOf nilIntPtr ∧
  Diff (ints [1]%Z) nilIntPtr = Fail ErrNotDiffable ∧
  ∀ cs, Diff (ints [1]%Z) nilIntPtr ≠ Ok cs.
Proof.
  assert (H : TypeOf (ints [1]%Z) ≠ TypeOf nilIntPtr) by (simpl; congruence).
  split; [exact H|]. exact (Diff_types_differ (ints [1]%Z) nilIntPtr H).
Defined.

(** With equal types, [Diff] is [diffValue] at the empty path. *)
Lemma Diff_same_type (typ : type) (v w : value) :
  Diff (Some (typ, v)) (Some (typ, w)) =
    diffValue typ (Some v) (Some w) EmptyString.
Proof. unfold Diff. simpl. by rewrite decide_False by (intros H; by apply H). Qed.

(** *** Sequences (claim C4) *)

Section seq_facts.
Variable diffElem : Value → Value → string → result (list Chunk).

(** The first loop stops at the shorter length, having collected the
    chunks of the common prefix. *)
Lemma diffElems_spec (la lb : list value) (path : string) (n i : nat)
    (changed : list Chunk) :
  length la ≤ i + n →
  diffElems diffElem la lb path n i changed =
    ds ← prefixDiffs diffElem path i (drop i la) (drop i lb);
    Ok (i + length (drop i la) `min` length (drop i lb), changed ++ ds).
Proof.
  revert i changed. induction n as [|n IH]; intros i changed Hlen.
  - rewrite (drop_ge la) by lia. cbn. rewrite app_nil_r. do 2 f_equal. lia.
  - simpl. destruct (la !! i) as [x|] eqn:Hx.
    + rewrite (drop_S _ _ _ Hx). destruct (lb !! i) as [y|] eqn:Hy.
      * rewrite (drop_S _ _ _ Hy). cbn.
        destruct (diffElem (Some x) (Some y) (indexPath path i)) as [d| |];
          cbn; [|done..].
        rewrite IH by lia.
        destruct (prefixDiffs diffElem path (S i) (drop (S i) la) (drop (S i) lb));
          cbn; [|done..].
        rewrite app_assoc. do 2 f_equal. lia.
      * apply lookup_ge_None in Hy. rewrite (drop_ge lb) by lia. cbn.
        rewrite app_nil_r. do 2 f_equal. lia.
    + apply lookup_ge_None in Hx. rewrite (drop_ge la) by lia. cbn.
      rewrite app_nil_r. do 2 f_equal. lia.
Qed.

(** The second and third loop collect the elements from [j] on. *)
Lemma surplus_spec (l : list value) (n j : nat) (acc : list value) :
  length l ≤ j + n → surplus l n j acc = acc ++ drop j l.
Proof.
  revert j acc. induction n as [|n IH]; intros j acc Hlen; simpl.
  - rewrite drop_ge by lia. by rewrite app_nil_r.
  - destruct (l !! j) as [v|] eqn:Hv.
    + rewrite IH by lia. rewrite (drop_S _ _ _ Hv). by rewrite <- app_assoc.
    + apply lookup_ge_None in Hv. rewrite drop_ge by lia. by rewrite app_nil_r.
Qed.

Lemma diffArrayOrSlice_spec (la lb : list value) (path : string) :
  diffArrayOrSlice diffElem (Some (VSeq la)) (Some (VSeq lb)) path =
    diffSeq_spec diffElem path la lb.
Proof.
  unfold diffArrayOrSlice, diffSeq_spec.
  rewrite diffElems_spec by lia. rewrite !drop_0.
  destruct (prefixDiffs diffElem path 0 la lb) as [changed| |]; cbn; [|done..].
  unfold overbite.
  repeat case_decide; try lia;
    rewrite ?surplus_spec by lia; by rewrite ?app_nil_l, ?app_nil_r.
Qed.

(** Exactly one trailing chunk when the lengths differ, none otherwise. *)
Lemma overbite_length (path : string) (la lb : list value) :
  length (overbite path la lb) = if decide (length la = length lb) then 0 else 1.
Proof. unfold overbite. repeat case_decide; simpl; lia. Qed.
End seq_facts.

(** C4.  On two slices (or two arrays) of the same type, [Diff] compares
    the elements by position up to the shorter length, each under the path
    extended by its index, and, when the lengths differ, appends one chunk
    at the index of the shorter length that holds all surplus elements as
    deletions (left longer) or additions (right longer). *)
Theorem Diff_sequences (elemTyp : type) (len : nat) (la lb : list value) :
  Diff (Some (TSlice elemTyp, VSeq la)) (Some (TSlice elemTyp, VSeq lb)) =
    (changed ← prefixDiffs (diffValue elemTyp) EmptyString 0 la lb;
     Ok (changed ++ overbite EmptyString la lb))
  ∧ Diff (Some (TArray len elemTyp, VSeq la)) (Some (TArray len elemTyp, VSeq lb)) =
    (changed ← prefixDiffs (diffValue elemTyp) EmptyString 0 la lb;
     Ok (changed ++ overbite EmptyString la lb))
  ∧ length (overbite EmptyString la lb) =
      (if decide (length la = length lb) then 0 else 1)
  ∧ (length lb < length la →
      overbite EmptyString la lb =
        [{| Deleted := drop (length lb) la; Added_ := [];
            Path := indexPath EmptyString (length lb) |}])
  ∧ (length la < length lb →
      overbite EmptyString la lb =
        [{| Deleted := []; Added_ := drop (length la) lb;
            Path := indexPath EmptyString (length la) |}]).
Proof.
  split_and!.
  - rewrite Diff_same_type. simpl. apply diffArrayOrSlice_spec.
  - rewrite Diff_same_type. simpl. apply diffArrayOrSlice_spec.
  - apply overbite_length.
  - intros Hlt. unfold overbite. rewrite decide_True by done.
    by rewrite Nat.min_r by lia.
  - intros Hlt. unfold overbite. rewrite decide_False by lia.
    rewrite decide_True by done. by rewrite Nat.min_l by lia.
Qed.

Lemma Diff_sequences_witness :
  Diff (ints [1; 2; 3]%Z) (ints [1; 2]%Z) =
    Ok [{| Deleted := [VGround (GInt 3)]; Added_ := []; Path := "[2]" |}]
  ∧ Diff (ints [1; 2]%Z) (ints [1; 2; 3]%Z) =
    Ok [{| Deleted := []; Added_ := [VGround (GInt 3)]; Path := "[2]" |}].
Proof.
  pose proof (Diff_sequences int 0
    [VGround (GInt 1); VGround (GInt 2); VGround (GInt 3)]
    [VGround (GInt 1); VGround (GInt 2)]) as (H1 & _ & _ & H1' & _).
  pose proof (Diff_sequences int 0
    [VGround (GInt 1); VGround (GInt 2)]
    [VGround (GInt 1); VGround (GInt 2); VGround (GInt 3)]) as (H2 & _ & _ & _ & H2').
  split.
  - unfold ints. simpl fmap. rewrite H1, H1' by (simpl; lia). reflexivity.
  - unfold ints. simpl fmap. rewrite H2, H2' by (simpl; lia). reflexivity.
Defined.

(** The example of the specification, by evaluation. *)
Example Diff_overbite_example :
  Diff (ints [1; 2; 3]%Z) (ints [1; 2]%Z) =
    Ok [{| Deleted := [VGround (GInt 3)]; Added_ := []; Path := "[2]" |}].
Proof. reflexivity. Qed.

Example Diff_underbite_example :
  Diff (ints [1; 2]%Z) (ints [1; 2; 3]%Z) =
    Ok [{| Deleted := []; Added_ := [VGround (GInt 3)]; Path := "[2]" |}].
Proof. reflexivity. Qed.

Example Diff_changed_element_example :
  Diff (ints [1; 5]%Z) (ints [1; 2; 3]%Z) =
    Ok [Changed (VGround (GInt 5)) (VGround (GInt 2)) "[1]";
        {| Deleted := []; Added_ := [VGround (GInt 3)]; Path := "[2]" |}].
Proof. reflexivity. Qed.

(** *** Keyed mappings (claim C5) *)

Lemma MapIndex_None (es : list (ground * value)) (k : ground) :
  MapIndex es k = None ↔ k ∉ es.*1.
Proof.
  induction es as [|[k' v] es IH]; simpl.
  - split; [intros _; apply not_elem_of_nil|done].
  - rewrite not_elem_of_cons. case_decide; subst.
    + split; [done|]. by intros [? _].
    + rewrite IH. split; [by intros ?; split|by intros [_ ?]].
Qed.

Lemma MapIndex_Some (es : list (ground * value)) (k : ground) (v : value) :
  NoDup es.*1 → MapIndex es k = Some v ↔ (k, v) ∈ es.
Proof.
  induction es as [|[k' v'] es IH]; simpl; intros Hnd.
  - split; [done|]. by intros ?%elem_of_nil.
  - apply NoDup_cons in Hnd as [Hnotin Hnd]. rewrite elem_of_cons.
    case_decide; subst.
    + split; [intros [= ->]; by left|].
      intros [[= ->]|Hin]; [done|].
      exfalso. apply Hnotin. apply list_elem_of_fmap. by exists (k, v).
    + rewrite IH by done. split; [by right|].
      intros [[= -> ->]|Hin]; done.
Qed.

Lemma MapIndex_Permutation (es es' : list (ground * value)) (k : ground) :
  NoDup es.*1 → es ≡ₚ es' → MapIndex es k = MapIndex es' k.
Proof.
  intros Hnd Hperm.
  assert (Hnd' : NoDup es'.*1) by (by rewrite <- Hperm).
  destruct (MapIndex es k) as [v|] eqn:Hk.
  - symmetry. apply MapIndex_Some; [done|]. rewrite <- Hperm.
    by apply MapIndex_Some.
  - symmetry. apply MapIndex_None. rewrite <- Hperm. by apply MapIndex_None.
Qed.

Lemma MapIndex_elem_of (es : list (ground * value)) (e : ground * value) :
  NoDup es.*1 → e ∈ es → MapIndex es e.1 = Some e.2.
Proof. intros Hnd Hin. apply MapIndex_Some; [done|]. by destruct e. Qed.

Section map_facts.
Variable diffElem : Value → Value → string → result (list Chunk).

(** The loop over the keys of the left mapping. *)
Lemma diffMap_rangeA_spec (ea eb es : list (ground * value)) (path : string)
    (diffs : list Chunk) :
  (∀ e, e ∈ es → MapIndex ea e.1 = Some e.2) →
  diffMap_rangeA diffElem ea eb path (MapKeys es) diffs =
    rest ← leftChunks diffElem eb path es; Ok (diffs ++ rest).
Proof.
  revert diffs. induction es as [|e es IH]; intros diffs Hes.
  - cbn. by rewrite app_nil_r.
  - cbn. rewrite (Hes e) by left. unfold leftEntry.
    destruct (MapIndex eb e.1) as [vb|] eqn:Hb.
    + rewrite decide_True by done.
      destruct (diffElem (Some e.2) (Some vb) (keyPath path e.1)) as [d| |];
        cbn; [|done..].
      unfold MapKeys in IH. rewrite IH by (intros; apply Hes; by right).
      destruct (leftChunks diffElem eb path es); cbn; [|done..].
      by rewrite app_assoc.
    + rewrite decide_False by (by intros H; apply H). cbn.
      unfold MapKeys in IH. rewrite IH by (intros; apply Hes; by right).
      destruct (leftChunks diffElem eb path es); cbn; [|done..].
      by rewrite <- app_assoc.
Qed.

(** The loop over the keys of the right mapping. *)
Lemma diffMap_rangeB_spec (ea eb es : list (ground * value)) (path : string)
    (diffs : list Chunk) :
  (∀ e, e ∈ es → MapIndex eb e.1 = Some e.2) →
  diffMap_rangeB ea eb path (MapKeys es) diffs =
    Ok (diffs ++ rightChunks ea path es).
Proof.
  revert diffs. induction es as [|e es IH]; intros diffs Hes.
  - cbn. by rewrite app_nil_r.
  - cbn. rewrite (Hes e) by left. unfold rightEntry.
    unfold MapKeys, rightChunks in IH.
    destruct (MapIndex ea e.1) as [va|] eqn:Ha.
    + rewrite decide_False by done.
      rewrite IH by (intros; apply Hes; by right). done.
    + rewrite decide_True by done. cbn.
      rewrite IH by (intros; apply Hes; by right).
      by rewrite <- app_assoc.
Qed.

Lemma diffMap_is_spec (ea eb : list (ground * value)) (path : string) :
  NoDup (MapKeys ea) → NoDup (MapKeys eb) →
  diffMap diffElem (Some (VMap ea)) (Some (VMap eb)) path =
    diffMap_spec diffElem path ea eb.
Proof.
  intros Ha Hb. unfold diffMap, diffMap_spec.
  rewrite diffMap_rangeA_spec by (intros; by apply MapIndex_elem_of).
  destruct (leftChunks diffElem eb path ea) as [ls| |]; cbn; [|done..].
  rewrite diffMap_rangeB_spec by (intros; by apply MapIndex_elem_of).
  done.
Qed.

Lemma leftChunks_cons_Ok (eb ea : list (ground * value)) (path : string)
    (e : ground * value) (ls : list Chunk) :
  leftChunks diffElem eb path (e :: ea) = Ok ls →
  ∃ cs rest, leftEntry diffElem eb path e = Ok cs ∧
             leftChunks diffElem eb path ea = Ok rest ∧ ls = cs ++ rest.
Proof.
  cbn. destruct (leftEntry diffElem eb path e) as [cs| |]; cbn; [|done..].
  destruct (leftChunks diffElem eb path ea) as [rest| |]; cbn; [|done..].
  intros [= <-]. eauto.
Qed.

Lemma leftChunks_cons (eb ea : list (ground * value)) (path : string)
    (e : ground * value) (cs rest : list Chunk) :
  leftEntry diffElem eb path e = Ok cs →
  leftChunks diffElem eb path ea = Ok rest →
  leftChunks diffElem eb path (e :: ea) = Ok (cs ++ rest).
Proof. intros He Hr. cbn. rewrite He. cbn. rewrite Hr. done. Qed.

(** Iterating over the left mapping in another order yields the same
    chunks, in another order. *)
Lemma leftChunks_Permutation (eb ea ea' : list (ground * value))
    (path : string) (ls : list Chunk) :
  ea ≡ₚ ea' → leftChunks diffElem eb path ea = Ok ls →
  ∃ ls', leftChunks diffElem eb path ea' = Ok ls' ∧ ls ≡ₚ ls'.
Proof.
  intros Hperm. revert ls.
  induction Hperm as [|e ea ea' Hperm IH|x y ea|ea ea' ea'' H1 IH1 H2 IH2];
    intros ls Hls.
  - eauto.
  - apply leftChunks_cons_Ok in Hls as (cs & rest & He & Hr & ->).
    destruct (IH _ Hr) as (rest' & Hr' & Hp).
    exists (cs ++ rest'). split; [by apply leftChunks_cons|by rewrite Hp].
  - apply leftChunks_cons_Ok in Hls as (csy & rest0 & Hy & Hr0 & ->).
    apply leftChunks_cons_Ok in Hr0 as (csx & rest & Hx & Hr & ->).
    exists (csx ++ csy ++ rest). split.
    + by repeat apply leftChunks_cons.
    + rewrite !app_assoc. by rewrite (Permutation_app_comm csy csx).
  - destruct (IH1 _ Hls) as (ls' & Hls' & Hp1).
    destruct (IH2 _ Hls') as (ls'' & Hls'' & Hp2).
    exists ls''. split; [done|by etrans].
Qed.

End map_facts.

Lemma rightChunks_Permutation (ea ea' eb eb' : list (ground * value))
    (path : string) :
  (∀ k, MapIndex ea k = MapIndex ea' k) → eb ≡ₚ eb' →
  rightChunks ea path eb ≡ₚ rightChunks ea' path eb'.
Proof.
  intros Hext Hperm. unfold rightChunks.
  rewrite (flat_map_ext (rightEntry ea path) (rightEntry ea' path)).
  - by apply Permutation_flat_map.
  - intros e. unfold rightEntry. by rewrite Hext.
Qed.





(** *** Diff of a value with itself (claim C2) *)





(** The equations of [diffValue]. *)
Lemma diffValue_TArray len e a b p :
  diffValue (TArray len e) a b p = diffArrayOrSlice (diffValue e) a b p.
Proof. reflexivity. Qed.
Lemma diffValue_TSlice e a b p :
  diffValue (TSlice e) a b p = diffArrayOrSlice (diffValue e) a b p.
Proof. reflexivity. Qed.
Lemma diffValue_TPtr e a b p :
  diffValue (TPtr e) a b p = diffValue e (Indirect a) (Indirect b) p.
Proof. reflexivity. Qed.
Lemma diffValue_TStruct name fs a b p :
  diffValue (TStruct name fs) a b p = diffStruct fs 0 a b p [].
Proof. reflexivity. Qed.
Lemma diffValue_TMap k e a b p :
  diffValue (TMap k e) a b p = diffMap (diffValue e) a b p.
Proof. reflexivity. Qed.



(** C2, at a nil pointer to [int]: [reflect.Indirect] yields the
    zero Value for both sides, and the comparison of the ground branch
    calls [Interface] on it, which panics.  [Diff(v, v)] returns neither
    an empty chunk list nor an error. *)
Theorem Diff_nil_pointer_panics :
  Diff nilIntPtr nilIntPtr = Panic "reflect.Value.Interface".
Proof. reflexivity. Qed.

(** The same through a nil pointer to a slice, and inside a slice of
    pointers; a nil pointer to a map is reported as an error by the guard
    of [diffMap]. *)
Example Diff_nil_slice_pointer_panics :
  Diff (Some (TPtr (TSlice int), VPtr None)) (Some (TPtr (TSlice int), VPtr None))
    = Panic "reflect.Value.Len".
Proof. reflexivity. Qed.

Example Diff_nil_pointer_element_panics :
  Diff (Some (TSlice (TPtr int), VSeq [VPtr None]))
       (Some (TSlice (TPtr int), VSeq [VPtr None]))
    = Panic "reflect.Value.Interface".
Proof. reflexivity. Qed.

Example Diff_nil_map_pointer_fails :
  Diff (Some (TPtr (TMap string_ int), VPtr None))
       (Some (TPtr (TMap string_ int), VPtr None))
    = Fail (ErrorString "both values must be maps").
Proof. reflexivity. Qed.

Example Diff_same_example :
  Diff (mapOf mapA1) (mapOf mapA1) = Ok [].
Proof. reflexivity. Qed.
(** *** [Diff] and the order of iteration of maps at any depth *)

Lemma sameChunk_paths (cs cs' : list Chunk) :
  Forall2 sameChunk cs cs' → Path <$> cs = Path <$> cs'.
Proof.
  induction 1 as [|c c' cs cs' [Hp _] _ IH]; [done|].
  rewrite !fmap_cons. by f_equal.
Qed.

Lemma Forall2_Permutation_r {A B} (R : A → B → Prop) (l : list A)
    (k k' : list B) :
  Forall2 R l k → k ≡ₚ k' → ∃ l', l ≡ₚ l' ∧ Forall2 R l' k'.
Proof.
  intros HF Hp. revert l HF.
  induction Hp as [|y k k' Hp IH|y z k|k k' k'' H1 IH1 H2 IH2]; intros l HF.
  - exists l. done.
  - apply Forall2_cons_inv_r in HF as (x & l0 & Hx & HF & ->).
    destruct (IH _ HF) as (l' & Hp' & HF').
    exists (x :: l'). split; [by constructor|by constructor].
  - apply Forall2_cons_inv_r in HF as (x & l0 & Hx & HF & ->).
    apply Forall2_cons_inv_r in HF as (x' & l1 & Hx' & HF & ->).
    exists (x' :: x :: l1). split; [apply Permutation_swap|].
    by repeat constructor.
  - destruct (IH1 _ HF) as (l' & Hp' & HF').
    destruct (IH2 _ HF') as (l'' & Hp'' & HF'').
    exists l''. split; [by etrans|done].
Qed.

(** Two sorted lists of chunks with pairwise distinct paths that are the
    same up to a permutation are the same position by position. *)
Lemma sorted_sameChunk (s s' m : list Chunk) :
  StronglySorted path_le s → StronglySorted path_le s' →
  NoDup (Path <$> s) → s ≡ₚ m → Forall2 sameChunk m s' →
  Forall2 sameChunk s s'.
Proof.
  intros Hs Hs' Hnd Hperm HF.
  assert (Hpaths : Path <$> s = Path <$> s').
  { apply (StronglySorted_unique str_le).
    - eapply StronglySorted_fmap; [|exact Hs]. done.
    - eapply StronglySorted_fmap; [|exact Hs']. done.
    - rewrite <- (sameChunk_paths _ _ HF). by apply fmap_Permutation. }
  apply Forall2_same_length_lookup. split.
  { rewrite <- (length_fmap Path s), Hpaths. by rewrite length_fmap. }
  intros i x y Hx Hy.
  assert (Hin : x ∈ m) by (rewrite <- Hperm; by eapply list_elem_of_lookup_2).
  apply list_elem_of_lookup_1 in Hin as [j Hj].
  destruct (Forall2_lookup_l _ _ _ _ _ HF Hj) as (y' & Hy' & Hxy').
  assert (i = j) as <-.
  { apply (NoDup_lookup (Path <$> s') i j (Path x)).
    - by rewrite <- Hpaths.
    - rewrite <- Hpaths, list_lookup_fmap, Hx. done.
    - rewrite list_lookup_fmap, Hy'. simpl. f_equal. symmetry. apply Hxy'. }
  by simplify_eq.
Qed.

Lemma sort_Sort_sameChunk (l l' m : list Chunk) :
  NoDup (Path <$> l) → l ≡ₚ m → Forall2 sameChunk m l' →
  Forall2 sameChunk (sort_Sort l) (sort_Sort l').
Proof.
  intros Hnd Hperm HF.
  destruct (Forall2_Permutation_r _ m l' (sort_Sort l') HF) as (m' & Hp' & HF').
  { by rewrite sort_Sort_Permutation. }
  apply (sorted_sameChunk _ _ m'); [apply sort_Sort_sorted..| | |done].
  - by rewrite sort_Sort_Permutation.
  - by rewrite sort_Sort_Permutation, Hperm.
Qed.

Lemma sameV_Some_inv (x : value) (a' : Value) :
  sameV (Some x) a' → ∃ x', a' = Some x' ∧ sameValue x x'.
Proof. inversion 1; eauto. Qed.

Lemma sameV_None_inv (a' : Value) : sameV None a' → a' = None.
Proof. by inversion 1. Qed.

Lemma distinctV_Some (x : value) : distinctKeys x → distinctV (Some x).
Proof. by intros H ? [= <-]. Qed.

Lemma sameV_Some (x x' : value) : sameValue x x' → sameV (Some x) (Some x').
Proof. by constructor. Qed.

Lemma Indirect_sameV (a a' : Value) : sameV a a' → sameV (Indirect a) (Indirect a').
Proof.
  destruct 1 as [x x' H|]; [|constructor].
  destruct H; simpl; try (by repeat constructor).
  econstructor. by econstructor.
Qed.

Lemma Indirect_distinctV (a : Value) : distinctV a → distinctV (Indirect a).
Proof.
  destruct a as [x|]; [|done]. intros H.
  specialize (H x eq_refl).
  destruct H; simpl; try (by apply distinctV_Some; constructor).
  - by intros ? [=].
  - by apply distinctV_Some.
Qed.

(** *** Sequences *)

Lemma overbite_sameChunk (path : string) (la la' lb lb' : list value) :
  Forall2 sameValue la la' → Forall2 sameValue lb lb' →
  Forall2 sameChunk (overbite path la lb) (overbite path la' lb').
Proof.
  intros Ha Hb. unfold overbite.
  rewrite <- (Forall2_length _ _ _ Ha), <- (Forall2_length _ _ _ Hb).
  repeat case_decide; repeat constructor; simpl; by apply Forall2_drop.
Qed.

Section sequences_order.
Variable diffElem : Value → Value → string → result (list Chunk).
Hypothesis elems : orderIndependent diffElem.

Lemma prefixDiffs_sameChunk (path : string) (la la' : list value) :
  Forall2 sameValue la la' →
  ∀ (i : nat) (lb lb' : list value) (cs : list Chunk),
  Forall distinctKeys la → Forall distinctKeys lb →
  Forall2 sameValue lb lb' →
  prefixDiffs diffElem path i la lb = Ok cs → NoDup (Path <$> cs) →
  ∃ cs', prefixDiffs diffElem path i la' lb' = Ok cs' ∧ Forall2 sameChunk cs cs'.
Proof using elems.
  induction 1 as [|x x' la la' Hx Ha IH]; intros i lb lb' cs Hda Hdb Hb Hcs Hnd.
  - simpl in *. injection Hcs as <-. by exists [].
  - destruct Hb as [|y y' lb lb' Hy Hb].
    { simpl in *. injection Hcs as <-. by exists []. }
    cbn in Hcs.
    destruct (diffElem (Some x) (Some y) (indexPath path i)) as [d| |] eqn:Hd;
      cbn in Hcs; [|done..].
    destruct (prefixDiffs diffElem path (S i) la lb) as [ds| |] eqn:Hds;
      cbn in Hcs; [|done..].
    injection Hcs as <-.
    rewrite fmap_app in Hnd. apply NoDup_app in Hnd as (Hnd1 & _ & Hnd2).
    apply Forall_cons in Hda as [Hdx Hda]. apply Forall_cons in Hdb as [Hdy Hdb].
    destruct (elems (Some x) (Some x') (Some y) (Some y') (indexPath path i) d)
      as (d' & Hd' & Hsame); [by apply distinctV_Some|by apply distinctV_Some|by constructor|
          by constructor|done|done|].
    destruct (IH (S i) lb lb' ds) as (ds' & Hds' & Hsames); [done..|].
    exists (d' ++ ds'). split; [|by apply Forall2_app].
    cbn. rewrite Hd'. cbn. rewrite Hds'. done.
Qed.

Lemma diffArrayOrSlice_orderIndependent :
  orderIndependent (diffArrayOrSlice diffElem).
Proof using elems.
  intros a a' b b' path cs Hda Hdb Ha Hb Hcs Hnd.
  destruct a as [[|la| | | | |]|]; try done.
  destruct b as [[|lb| | | | |]|]; try done.
  apply sameV_Some_inv in Ha as (x' & -> & Ha).
  apply sameV_Some_inv in Hb as (y' & -> & Hb).
  inversion Ha as [|? la' Hla| | | | | |]; subst.
  inversion Hb as [|? lb' Hlb| | | | | |]; subst.
  specialize (Hda _ eq_refl). specialize (Hdb _ eq_refl).
  inversion Hda; subst. inversion Hdb; subst.
  rewrite diffArrayOrSlice_spec in *. unfold diffSeq_spec in *.
  destruct (prefixDiffs diffElem path 0 la lb) as [changed| |] eqn:Hch;
    cbn in Hcs; [|done..].
  injection Hcs as <-.
  rewrite fmap_app in Hnd. apply NoDup_app in Hnd as (Hnd1 & _ & _).
  destruct (prefixDiffs_sameChunk path la la' Hla 0 lb lb' changed)
    as (changed' & -> & Hsame); [done..|].
  cbn. eexists. split; [done|].
  apply Forall2_app; [done|by apply overbite_sameChunk].
Qed.
End sequences_order.

(** *** Mappings *)

Lemma sameEntries_keys (es es' : list (ground * value)) :
  sameEntries es es' → MapKeys es = MapKeys es'.
Proof.
  unfold MapKeys. induction 1 as [|e e' es es' [Hk _] _ IH]; [done|].
  rewrite !fmap_cons. by f_equal.
Qed.

Lemma MapIndex_sameEntries (es es' : list (ground * value)) (k : ground) :
  sameEntries es es' → sameV (MapIndex es k) (MapIndex es' k).
Proof.
  induction 1 as [|[k1 v] [k2 v'] es es' [Hk Hv] _ IH]; simpl in *.
  - constructor.
  - subst. case_decide; [by constructor|done].
Qed.

Lemma MapIndex_Forall (P : value → Prop) (es : list (ground * value))
    (k : ground) (v : value) :
  Forall (λ e, P e.2) es → MapIndex es k = Some v → P v.
Proof.
  induction 1 as [|[k' v'] es Hv _ IH]; simpl; [done|].
  case_decide; [by intros [= <-]|done].
Qed.

Lemma rightChunks_sameChunk (ea ea' eb eb' : list (ground * value))
    (path : string) :
  (∀ k, sameV (MapIndex ea k) (MapIndex ea' k)) → sameEntries eb eb' →
  Forall2 sameChunk (rightChunks ea path eb) (rightChunks ea' path eb').
Proof.
  intros Hidx. unfold rightChunks.
  induction 1 as [|e e' eb eb' [Hk Hv] _ IH]; simpl; [constructor|].
  apply Forall2_app; [|done].
  unfold rightEntry. rewrite <- Hk.
  destruct (Hidx e.1); [constructor|].
  repeat constructor; done.
Qed.

Section mappings_order.
Variable diffElem : Value → Value → string → result (list Chunk).
Hypothesis elems : orderIndependent diffElem.

Lemma leftChunks_sameChunk (eb eb' : list (ground * value)) (path : string)
    (ea ea' : list (ground * value)) :
  (∀ k, sameV (MapIndex eb k) (MapIndex eb' k)) →
  Forall (λ e, distinctKeys e.2) eb →
  sameEntries ea ea' →
  ∀ ls, Forall (λ e, distinctKeys e.2) ea →
  leftChunks diffElem eb path ea = Ok ls → NoDup (Path <$> ls) →
  ∃ ls', leftChunks diffElem eb' path ea' = Ok ls' ∧ Forall2 sameChunk ls ls'.
Proof using elems.
  intros Hidx Hdb.
  induction 1 as [|e e' ea ea' [Hk Hv] _ IH]; intros ls Hda Hls Hnd.
  - simpl in *. injection Hls as <-. by exists [].
  - apply leftChunks_cons_Ok in Hls as (cs & rest & He & Hr & ->).
    rewrite fmap_app in Hnd. apply NoDup_app in Hnd as (Hnd1 & _ & Hnd2).
    apply Forall_cons in Hda as [Hde Hda].
    destruct (IH rest) as (rest' & Hr' & Hsames); [done..|].
    assert (∃ cs', leftEntry diffElem eb' path e' = Ok cs' ∧
                   Forall2 sameChunk cs cs') as (cs' & He' & Hsame).
    { unfold leftEntry in *. rewrite <- Hk.
      pose proof (Hidx e.1) as Hi.
      destruct (MapIndex eb e.1) as [vb|] eqn:Hvb.
      - apply sameV_Some_inv in Hi as (vb' & -> & Hsame).
        apply (elems (Some e.2) (Some e'.2) (Some vb) (Some vb')); try done.
        + by apply distinctV_Some.
        + apply distinctV_Some. by apply (MapIndex_Forall distinctKeys eb e.1).
        + by constructor.
        + by constructor.
      - apply sameV_None_inv in Hi as ->.
        injection He as <-. eexists. split; [done|].
        repeat constructor; done. }
    exists (cs' ++ rest'). split; [by apply leftChunks_cons|by apply Forall2_app].
Qed.

Lemma diffMap_orderIndependent : orderIndependent (diffMap diffElem).
Proof using elems.
  intros a a' b b' path cs Hda Hdb Ha Hb Hcs Hnd.
  destruct a as [[| | | |ea| |]|]; try done.
  destruct b as [[| | | |eb| |]|]; try done.
  apply sameV_Some_inv in Ha as (x' & -> & Ha).
  apply sameV_Some_inv in Hb as (y' & -> & Hb).
  inversion Ha as [| | | | |? ea' ma Hpa Hea| |]; subst.
  inversion Hb as [| | | | |? eb' mb Hpb Heb| |]; subst.
  specialize (Hda _ eq_refl). specialize (Hdb _ eq_refl).
  inversion Hda as [| | | | |? Hka Hva| |]; subst.
  inversion Hdb as [| | | | |? Hkb Hvb| |]; subst.
  fold (sameEntries ma ea') in Hea. fold (sameEntries mb eb') in Heb.
  assert (Hka' : NoDup (MapKeys ea')).
  { rewrite <- (sameEntries_keys _ _ Hea). unfold MapKeys in *. by rewrite <- Hpa. }
  assert (Hkb' : NoDup (MapKeys eb')).
  { rewrite <- (sameEntries_keys _ _ Heb). unfold MapKeys in *. by rewrite <- Hpb. }
  rewrite diffMap_is_spec in * by done. unfold diffMap_spec in *.
  destruct (leftChunks diffElem eb path ea) as [ls| |] eqn:Hls; cbn in Hcs;
    [|done..].
  injection Hcs as <-.
  assert (Hidxa : ∀ k, sameV (MapIndex ea k) (MapIndex ea' k)).
  { intros k. rewrite (MapIndex_Permutation ea ma) by done.
    by apply MapIndex_sameEntries. }
  assert (Hidxb : ∀ k, sameV (MapIndex eb k) (MapIndex eb' k)).
  { intros k. rewrite (MapIndex_Permutation eb mb) by done.
    by apply MapIndex_sameEntries. }
  rewrite sort_Sort_Permutation in Hnd.
  destruct (leftChunks_Permutation diffElem eb ea ma path ls Hpa Hls)
    as (ls1 & Hls1 & Hp1).
  destruct (leftChunks_sameChunk eb eb' path ma ea' Hidxb Hvb Hea ls1)
    as (ls' & Hls' & Hsame); [by rewrite <- Hpa|done| |].
  { rewrite <- Hp1. rewrite fmap_app in Hnd. by apply NoDup_app in Hnd as (? & _ & _). }
  rewrite Hls'. cbn. eexists. split; [done|].
  apply (sort_Sort_sameChunk _ _ (ls1 ++ rightChunks ea path mb)); [done| |].
  - rewrite Hp1. apply Permutation_app_head.
    by apply rightChunks_Permutation.
  - apply Forall2_app; [done|]. by apply rightChunks_sameChunk.
Qed.
End mappings_order.

(** *** Structs, and every type *)

Lemma diffStruct_acc (fs : fields) (i : nat) (a b : Value) (path : string)
    (diffs : list Chunk) :
  diffStruct fs i a b path diffs =
    rest ← diffStruct fs i a b path []; Ok (diffs ++ rest).
Proof.
  revert i diffs. induction fs as [|name pkgPath fieldTyp rest IH];
    intros i diffs; simpl.
  - by rewrite app_nil_r.
  - case_decide; [|apply IH].
    destruct (Field a i) as [fa| |]; cbn; [|done..].
    destruct (Field b i) as [fb| |]; cbn; [|done..].
    destruct (diffValue fieldTyp fa fb _) as [fd| |]; cbn; [|done..].
    rewrite (IH _ (diffs ++ fd)), (IH _ fd).
    destruct (diffStruct rest (S i) a b path []); cbn; [|done..].
    by rewrite app_assoc.
Qed.

Lemma Field_sameV (a a' : Value) (i : nat) (fa : Value) :
  sameV a a' → distinctV a → Field a i = Ok fa →
  ∃ fa', Field a' i = Ok fa' ∧ sameV fa fa' ∧ distinctV fa.
Proof.
  intros Ha Hda Hf.
  destruct a as [[| | |vs| | |]|]; try done.
  apply sameV_Some_inv in Ha as (x' & -> & Ha).
  inversion Ha as [| | | |? vs' Hvs| | |]; subst.
  specialize (Hda _ eq_refl). inversion Hda as [| | | |? Hall| | |]; subst.
  simpl in *. destruct (vs !! i) as [x|] eqn:Hx; [|done].
  injection Hf as <-.
  destruct (Forall2_lookup_l _ _ _ _ _ Hvs Hx) as (y & -> & Hxy).
  eexists. split; [done|]. split; [by constructor|].
  apply distinctV_Some. by eapply Forall_lookup_1.
Qed.

Lemma diffGround_orderIndependent : orderIndependent diffGround.
Proof.
  intros a a' b b' path cs Hda Hdb Ha Hb Hcs Hnd.
  destruct a as [x|]; [|done]. destruct b as [y|]; [|done].
  apply sameV_Some_inv in Ha as (x' & -> & Ha).
  apply sameV_Some_inv in Hb as (y' & -> & Hb).
  unfold diffGround in *. cbn in *.
  destruct Ha; try done. destruct Hb; try done.
  case_decide; injection Hcs as <-; eexists; (split; [done|]);
    repeat constructor.
Qed.

(** [diffValue] at every type, and [diffStruct] at every list of fields,
    give the same chunks, up to the order of iteration of the maps inside
    the values, on the same values up to that order, provided the chunks
    have pairwise distinct paths. *)
Lemma diffValue_orderIndependent :
  (∀ typ, orderIndependent (diffValue typ)) ∧
  (∀ fs i, orderIndependent (λ a b path, diffStruct fs i a b path [])).
Proof.
  apply type_and_fields_ind.
  - intros name k. apply diffGround_orderIndependent.
  - intros len elemTyp IH. by apply diffArrayOrSlice_orderIndependent.
  - intros elemTyp IH. by apply diffArrayOrSlice_orderIndependent.
  - intros name a a' b b' path cs _ _ _ _ Hcs. done.
  - intros elemTyp IH a a' b b' path cs Hda Hdb Ha Hb Hcs Hnd.
    rewrite diffValue_TPtr in *.
    apply (IH (Indirect a) (Indirect a') (Indirect b) (Indirect b'));
      auto using Indirect_sameV, Indirect_distinctV.
  - intros name fs IH. apply (IH 0).
  - intros keyTyp _ elemTyp IH. by apply diffMap_orderIndependent.
  - intros name a a' b b' path cs _ _ _ _ Hcs. done.
  - intros i a a' b b' path cs _ _ _ _ [= <-] _. by exists [].
  - intros name pkgPath fieldTyp IHt rest IHr i a a' b b' path cs
      Hda Hdb Ha Hb Hcs Hnd.
    simpl in *. case_decide; [|by apply (IHr (S i) a a' b b')].
    destruct (Field a i) as [fa| |] eqn:Hfa; cbn in Hcs; [|done..].
    destruct (Field b i) as [fb| |] eqn:Hfb; cbn in Hcs; [|done..].
    destruct (diffValue fieldTyp fa fb _) as [fd| |] eqn:Hfd; cbn in Hcs;
      [|done..].
    rewrite diffStruct_acc in Hcs.
    destruct (diffStruct rest (S i) a b path []) as [ds| |] eqn:Hds;
      cbn in Hcs; [|done..].
    injection Hcs as <-.
    rewrite fmap_app in Hnd. apply NoDup_app in Hnd as (Hnd1 & _ & Hnd2).
    destruct (Field_sameV a a' i fa) as (fa' & -> & Hsa & Hdfa); [done..|].
    destruct (Field_sameV b b' i fb) as (fb' & -> & Hsb & Hdfb); [done..|].
    destruct (IHt fa fa' fb fb' (path +:+ "." +:+ name) fd)
      as (fd' & Hfd' & Hsame); [done..|].
    destruct (IHr (S i) a a' b b' path ds) as (ds' & Hds' & Hsames); [done..|].
    cbn. rewrite Hfd'. cbn. rewrite diffStruct_acc, Hds'. cbn.
    eexists. split; [done|]. by apply Forall2_app.
Qed.

(** [sameValue] is reflexive, and relates a map with every permutation
    of its entries. *)
Lemma sameValue_refl (v : value) : sameValue v v.
Proof.
  revert v. fix IH 1. intros [g|l|[x|]|vs|es|d|name].
  - constructor.
  - constructor. induction l as [|x l IHl]; constructor; [apply IH|apply IHl].
  - constructor. apply IH.
  - constructor.
  - constructor. induction vs as [|x l IHl]; constructor; [apply IH|apply IHl].
  - apply (same_map es es es); [done|].
    induction es as [|[k x] es IHes]; constructor; [|apply IHes].
    split; [done|apply IH].
  - constructor.
  - constructor.
Qed.

Lemma sameValue_Permutation (es es' : list (ground * value)) :
  es ≡ₚ es' → sameValue (VMap es) (VMap es').
Proof.
  intros Hp. apply (same_map es es' es'); [done|].
  apply Forall_Forall2_diag, Forall_forall. intros e _.
  split; [done|apply sameValue_refl].
Qed.

(** X6.  Under another order of iteration of the maps inside the two values,
    at any depth, [Diff] returns the same chunks, each with the same path
    and with values that are the same up to the order of their maps,
    provided the paths of the chunks are pairwise distinct. *)
Theorem Diff_iteration_order (typ : type) (a a' b b' : value)
    (cs : list Chunk) :
  distinctKeys a → distinctKeys b → sameValue a a' → sameValue b b' →
  Diff (Some (typ, a)) (Some (typ, b)) = Ok cs → NoDup (Path <$> cs) →
  ∃ cs', Diff (Some (typ, a')) (Some (typ, b')) = Ok cs' ∧
         Forall2 sameChunk cs cs'.
Proof.
  intros Hda Hdb Ha Hb Hcs Hnd. rewrite Diff_same_type in *.
  destruct diffValue_orderIndependent as [H _].
  apply (H typ (Some a) (Some a') (Some b) (Some b') EmptyString cs);
    auto using distinctV_Some, sameV_Some.
Qed.

Example Diff_iteration_order_example :
  sameValue nestedA1 nestedA2 ∧
  Diff (Some (nestedMaps, nestedA1)) (Some (nestedMaps, nestedB)) =
    Ok [Changed (VGround (GInt 1)) (VGround (GInt 3)) "[a][x]";
        Removed (VGround (GInt 2)) "[a][y]"] ∧
  Diff (Some (nestedMaps, nestedA2)) (Some (nestedMaps, nestedB)) =
    Diff (Some (nestedMaps, nestedA1)) (Some (nestedMaps, nestedB)).
Proof.
  split_and!; [|reflexivity..].
  unfold nestedA1, nestedA2. eapply same_map; [reflexivity|].
  constructor; [|constructor]. split; [done|]. simpl.
  apply sameValue_Permutation, Permutation_swap.
Qed.

(** ** Facts about the HTTP transport *)

(** *** MakeURL (claim C10) *)

Lemma pairs_cons2 (key value : string) (rest : list string) :
  pairs (key :: value :: rest) = (key, value) :: pairs rest.
Proof. reflexivity. Qed.

Lemma valuesOf_cons (p : string * string) (ps : list (string * string))
    (v : gmap string (list string)) :
  valuesOf (p :: ps) v = valuesOf ps (Values_Add v p.1 p.2).
Proof. reflexivity. Qed.

Lemma Values_Get_Add (v : gmap string (list string)) (key value k : string) :
  Values_Get (Values_Add v key value) k =
    if decide (key = k) then Values_Get v k ++ [value] else Values_Get v k.
Proof.
  unfold Values_Get, Values_Add. case_decide; subst.
  - by rewrite lookup_insert_eq.
  - by rewrite lookup_insert_ne.
Qed.

(** The values of a key are the second components of the pairs with that
    key, in their order. *)
Lemma Values_Get_valuesOf (ps : list (string * string))
    (v : gmap string (list string)) (k : string) :
  Values_Get (valuesOf ps v) k =
    Values_Get v k ++ (filter (λ p, p.1 = k) ps).*2.
Proof.
  revert v. induction ps as [|p ps IH]; intros v.
  - by rewrite app_nil_r.
  - rewrite valuesOf_cons, IH, Values_Get_Add, filter_cons.
    case_decide; [|done]. rewrite fmap_cons. by rewrite <- app_assoc.
Qed.

Lemma mod2_SS (m : nat) : S (S m) `mod` 2 = m `mod` 2.
Proof. replace (S (S m)) with (m + 1 * 2) by lia. apply Nat.Div0.mod_add. Qed.

Section makeurl_facts.
Context `{ext : Externals}.

(** With an even number of entries left, the loop never indexes out of
    range and adds the entries two by two. *)
Lemma addParams_spec (l : list string) (n i : nat)
    (v : gmap string (list string)) :
  length (drop i l) `mod` 2 = 0 → length l - i ≤ n →
  addParams l n i v = Ok (valuesOf (pairs (drop i l)) v).
Proof.
  revert i v. induction n as [|n IH]; intros i v Heven Hn.
  - rewrite drop_ge by lia. done.
  - simpl. case_decide as Hi.
    + destruct (lookup_lt_is_Some_2 l i Hi) as [key Hkey].
      rewrite Hkey. rewrite (drop_S _ _ _ Hkey) in Heven |- *.
      destruct (l !! (i + 1)) as [value|] eqn:Hvalue.
      * replace (i + 1) with (S i) in Hvalue by lia.
        rewrite (drop_S _ _ _ Hvalue) in Heven |- *.
        rewrite pairs_cons2, valuesOf_cons. simpl.
        replace (i + 2) with (S (S i)) by lia.
        apply IH; [|lia].
        rewrite !length_cons, mod2_SS in Heven. done.
      * exfalso. apply lookup_ge_None in Hvalue.
        rewrite drop_ge in Heven by lia. vm_compute in Heven. discriminate.
    + rewrite drop_ge by lia. done.
Qed.
End makeurl_facts.

(** C10.  [MakeURL] panics when the number of [urlParams] is odd.  When it
    is even, the panic statement is not reached and no index is out of
    range: the outcome is the error of [url.Parse] or of the route lookup
    (or the panic of the latter on a route that does not exist), and
    otherwise a URL whose path is the endpoint path joined with the route
    path and whose query encodes the values obtained by pairing the
    consecutive entries of [urlParams] as key and value. *)
Theorem MakeURL_spec `{ext : Externals} (endpoint : string) (router : Router)
    (routeName : string) (urlParams : list string) :
  (length urlParams `mod` 2 ≠ 0 →
     MakeURL endpoint router routeName urlParams = Panic "urlParams must be even!")
  ∧ (length urlParams `mod` 2 = 0 →
     MakeURL endpoint router routeName urlParams =
       match url_Parse endpoint with
       | inr err => Fail (errors_Wrap err ("parsing endpoint " +:+ endpoint))
       | inl endpointURL =>
           match Route_URL router routeName with
           | Panic what => Panic what
           | Fail err =>
               Fail (errors_Wrap err ("retrieving route path " +:+ routeName))
           | Ok routeURL =>
               Ok {| Scheme := Scheme endpointURL;
                     Host := Host endpointURL;
                     URLPath := path_Join (URLPath endpointURL) (URLPath routeURL);
                     RawQuery := Values_Encode (valuesOf (pairs urlParams) ∅) |}
           end
       end)
  ∧ (∀ key, Values_Get (valuesOf (pairs urlParams) ∅) key =
              (filter (λ p, p.1 = key) (pairs urlParams)).*2).
Proof.
  split_and!.
  - intros Hodd. unfold MakeURL. by rewrite decide_True.
  - intros Heven. unfold MakeURL. rewrite decide_False by lia.
    destruct (url_Parse endpoint) as [endpointURL|err]; [|done].
    destruct (Route_URL router routeName) as [routeURL|err|what]; [|done..].
    rewrite addParams_spec by (rewrite ?drop_0; lia). by rewrite drop_0.
  - intros key. by rewrite Values_Get_valuesOf.
Qed.

Lemma MakeURL_spec_witness :
  length ["a"; "b"; "c"] `mod` 2 ≠ 0 ∧
  MakeURL (ext := exampleExternals) "flux" exampleRouter "ListServices" ["a"; "b"; "c"] =
    Panic "urlParams must be even!" ∧
  length ["namespace"; "default"] `mod` 2 = 0 ∧
  MakeURL (ext := exampleExternals) "flux" exampleRouter "ListServices" ["namespace"; "default"] =
    Ok {| Scheme := "http"; Host := "flux";
          URLPath := "/api/flux/v3/services";
          RawQuery := "namespace=default" |}.
Proof.
  assert (Hodd : length ["a"; "b"; "c"] `mod` 2 ≠ 0) by (simpl; lia).
  assert (Heven : length ["namespace"; "default"] `mod` 2 = 0) by reflexivity.
  split_and!; [exact Hodd| |exact Heven|].
  - exact (proj1 (MakeURL_spec (ext := exampleExternals) "flux" exampleRouter "ListServices" ["a"; "b"; "c"])
             Hodd).
  - rewrite (proj1 (proj2
      (MakeURL_spec (ext := exampleExternals) "flux" exampleRouter "ListServices" ["namespace"; "default"]))
      Heven).
    vm_compute. reflexivity.
Defined.

(** *** WriteError (claim C7) *)

Lemma charsetQualified_json : charsetQualified "application/json; charset=utf-8".
Proof. by exists "application/json". Qed.

Lemma charsetQualified_plain : charsetQualified "text/plain; charset=utf-8".
Proof. by exists "text/plain". Qed.

Section transport_facts.
Context `{ext : Externals}.

(** Every branch of [WriteError] makes the same three calls, with the
    given code in all branches but the one taken when the error cannot
    be encoded, which uses 500. *)
Lemma WriteError_calls (w : ResponseWriter) (r : Request) (code : Z)
    (err : error) :
  ∃ calls c, WriteError w r code err = w ++ calls ∧ writesResponse calls c ∧
             (c = code ∨ c = StatusInternalServerError).
Proof.
  unfold WriteError, writePlainError, writesResponse.
  repeat case_decide; try destruct (json_Marshal_error err);
    eexists _, _; (split; [reflexivity|]);
    eauto 10 using charsetQualified_json, charsetQualified_plain.
Qed.

Lemma ErrorResponse_default (w : ResponseWriter) (r : Request)
    (apiError : error) :
  kindOf apiError = None →
  ErrorResponse w r apiError =
    WriteError w r StatusInternalServerError
      (BaseErrorPtr (CoverAllError apiError)).
Proof.
  unfold kindOf, ErrorResponse.
  by destruct (errors_Cause apiError).
Qed.

Lemma ErrorResponse_kind (w : ResponseWriter) (r : Request) (k : kind)
    (b : BaseError) :
  ErrorResponse w r (errorOf k b) = WriteError w r (statusOf k) (BaseErrorPtr b).
Proof. by destruct k. Qed.
End transport_facts.

(** C7.  [WriteError] honours the content negotiation.  For a request
    with an [Accept] header that negotiates [application/json], the
    response is the JSON encoding of the error at the given status code;
    for one that negotiates [text/plain] it is, at the same status code,
    the help text of a [*flux.BaseError] and the error text of any other
    error.  In every branch the calls are: a charset-qualified
    [Content-Type], then the status code, then the body. *)
Theorem WriteError_negotiation `{ext : Externals} (w : ResponseWriter)
    (r : Request) (code : Z) (err : error) :
  (0 < String.length (Header_Get (ReqHeader r) "Accept") →
   negotiateContentType r ["application/json"; "text/plain"] = "application/json" →
   ∀ body, json_Marshal_error err = inl body →
     WriteError w r code err =
       w ++ [SetHeader "Content-Type" "application/json; charset=utf-8";
             WriteHeader code; Write body])
  ∧ (0 < String.length (Header_Get (ReqHeader r) "Accept") →
     negotiateContentType r ["application/json"; "text/plain"] = "text/plain" →
     WriteError w r code err =
       w ++ [SetHeader "Content-Type" "text/plain; charset=utf-8";
             WriteHeader code;
             Write (match err with BaseErrorPtr b => Help b | _ => Error err end)])
  ∧ (∃ calls c, WriteError w r code err = w ++ calls ∧ writesResponse calls c).
Proof.
  split_and!.
  - intros Haccept Hneg body Hbody. unfold WriteError.
    rewrite decide_True by done. rewrite Hneg, decide_True by done.
    by rewrite Hbody.
  - intros Haccept Hneg. unfold WriteError.
    rewrite decide_True by done. rewrite Hneg.
    rewrite decide_False by done. by rewrite decide_True.
  - destruct (WriteError_calls w r code err) as (calls & c & Heq & Hw & _).
    eauto.
Qed.

Lemma WriteError_negotiation_witness :
  WriteError (ext := exampleExternals) [] jsonRequest StatusNotFound
      (BaseErrorPtr notFound) =
    [SetHeader "Content-Type" "application/json; charset=utf-8";
     WriteHeader StatusNotFound; Write "not found"]
  ∧ WriteError (ext := exampleExternals) [] plainRequest StatusNotFound
      (BaseErrorPtr notFound) =
    [SetHeader "Content-Type" "text/plain; charset=utf-8";
     WriteHeader StatusNotFound; Write "no such service"].
Proof.
  split.
  - refine (proj1 (WriteError_negotiation (ext := exampleExternals) []
      jsonRequest StatusNotFound (BaseErrorPtr notFound)) _ _ "not found" _).
    + vm_compute. lia.
    + reflexivity.
    + reflexivity.
  - refine (proj1 (proj2 (WriteError_negotiation (ext := exampleExternals) []
      plainRequest StatusNotFound (BaseErrorPtr notFound))) _ _).
    + vm_compute. lia.
    + reflexivity.
Defined.


(** *** ErrorResponse (claim C6) *)

(** C6.  An error whose cause is none of [flux.Missing],
    [flux.UserConfigProblem] and [flux.ServerException] is replaced by
    [CoverAllError(apiError)] and written by [WriteError] with status 500:
    the status written is 500 in every branch, and what is written is the
    [*flux.BaseError] that [CoverAllError] returns. *)
Theorem ErrorResponse_cover_all `{ext : Externals} (w : ResponseWriter)
    (r : Request) (apiError : error) :
  kindOf apiError = None →
  ErrorResponse w r apiError =
    WriteError w r StatusInternalServerError (BaseErrorPtr (CoverAllError apiError))
  ∧ ∃ calls, ErrorResponse w r apiError = w ++ calls ∧
             writesResponse calls StatusInternalServerError.
Proof.
  intros Hkind. rewrite ErrorResponse_default by done. split; [done|].
  destruct (WriteError_calls w r StatusInternalServerError
              (BaseErrorPtr (CoverAllError apiError)))
    as (calls & c & Heq & Hw & [->| ->]); eauto.
Qed.

Lemma ErrorResponse_cover_all_witness :
  kindOf (errors_Wrap (ErrorString "connection refused") "listing services") = None ∧
  ErrorResponse (ext := exampleExternals) [] plainRequest
      (errors_Wrap (ErrorString "connection refused") "listing services") =
    [SetHeader "Content-Type" "text/plain; charset=utf-8";
     WriteHeader StatusInternalServerError; Write "Internal server error"].
Proof.
  assert (Hk : kindOf (errors_Wrap (ErrorString "connection refused")
                         "listing services") = None) by reflexivity.
  split; [exact Hk|].
  rewrite (proj1 (ErrorResponse_cover_all (ext := exampleExternals) [] plainRequest
    (errors_Wrap (ErrorString "connection refused") "listing services") Hk)).
  reflexivity.
Defined.

(** *** JSONResponse (claim C8) *)

(** C8.  [JSONResponse] writes the encoded result with status 200 and a
    JSON content type; when the result cannot be encoded it calls
    [ErrorResponse] with the encoding error, so that a response is
    written all the same. *)
Theorem JSONResponse_spec `{ext : Externals} (w : ResponseWriter) (r : Request)
    (result : JSONValue) :
  (∀ body, json_Marshal result = inl body →
     JSONResponse w r result =
       w ++ [SetHeader "Content-Type" "application/json; charset=utf-8";
             WriteHeader StatusOK; Write body])
  ∧ (∀ err, json_Marshal result = inr err →
       JSONResponse w r result = ErrorResponse w r err
       ∧ ∃ calls c, JSONResponse w r result = w ++ calls ∧ writesResponse calls c).
Proof.
  split.
  - intros body Hbody. unfold JSONResponse. by rewrite Hbody.
  - intros err Herr. unfold JSONResponse. rewrite Herr. split; [done|].
    unfold ErrorResponse.
    destruct (match errors_Cause err with
              | Missing b => (StatusNotFound, b)
              | UserConfigProblem b => (StatusUnprocessableEntity, b)
              | ServerException b => (StatusInternalServerError, b)
              | _ => (StatusInternalServerError, CoverAllError err)
              end) as [code outErr].
    destruct (WriteError_calls w r code (BaseErrorPtr outErr))
      as (calls & c & Heq & Hw & _).
    eauto.
Qed.

Lemma JSONResponse_spec_witness :
  JSONResponse (ext := exampleExternals) [] jsonRequest (Some "[]") =
    [SetHeader "Content-Type" "application/json; charset=utf-8";
     WriteHeader StatusOK; Write "[]"]
  ∧ JSONResponse (ext := exampleExternals) [] jsonRequest None =
      ErrorResponse (ext := exampleExternals) [] jsonRequest
        (ErrorString "json: unsupported value").
Proof.
  split.
  - exact (proj1 (JSONResponse_spec (ext := exampleExternals) [] jsonRequest
      (Some "[]")) "[]" eq_refl).
  - exact (proj1 (proj2 (JSONResponse_spec (ext := exampleExternals) []
      jsonRequest None) (ErrorString "json: unsupported value") eq_refl)).
Defined.

(** *** doRegister (claim C9) *)

(** C9.  When the websocket upgrade fails, [doRegister] writes status 400
    and the error text (passed to [fmt.Fprintf] as the format) after
    whatever the upgrade wrote, creates no RPC client and leaves the
    service as it was.  The RPC client is created, registered and closed
    when the upgrade succeeds, and only then. *)
Theorem doRegister_upgrade `{ext : Externals} (s : Service) (w : ResponseWriter)
    (r : Request) (newRPCFn : Websocket → RPCClient) :
  (∀ w' err, websocket_Upgrade w r = (w', inr err) →
     doRegister s w r newRPCFn =
       {| writer := w' ++ [WriteHeader StatusBadRequest;
                           Write (fmt_Sprintf (Error err))];
          service := s;
          calls := [] |})
  ∧ (∀ w' ws, websocket_Upgrade w r = (w', inl ws) →
       doRegister s w r newRPCFn =
         {| writer := w';
            service := RegisterDaemon s (getInstanceID r) (newRPCFn ws);
            calls := [NewRPC ws;
                      CallRegisterDaemon (getInstanceID r) (newRPCFn ws);
                      CallClose (newRPCFn ws)] |})
  ∧ (∀ c, c ∈ calls (doRegister s w r newRPCFn) →
       ∃ w' ws, websocket_Upgrade w r = (w', inl ws)).
Proof.
  split_and!.
  - intros w' err Hup. unfold doRegister. by rewrite Hup.
  - intros w' ws Hup. unfold doRegister. by rewrite Hup.
  - intros c. unfold doRegister.
    destruct (websocket_Upgrade w r) as [w' [ws|err]]; simpl.
    + eauto.
    + by intros ?%elem_of_nil.
Qed.

Lemma doRegister_upgrade_witness :
  doRegister (ext := exampleExternals) noDaemons [] oldRequest (λ ws, S ws) =
    MkRegisterOutcome (ext := exampleExternals)
      [WriteHeader StatusBadRequest; Write "Bad Request";
       WriteHeader StatusBadRequest;
       Write "websocket: not a websocket handshake"]
      noDaemons
      []
  ∧ doRegister (ext := exampleExternals) noDaemons [] upgradeRequest (λ ws, S ws) =
    MkRegisterOutcome (ext := exampleExternals)
      []
      ((EmptyString, 1) :: noDaemons)
      [NewRPC (ext := exampleExternals) 0;
       CallRegisterDaemon (ext := exampleExternals) EmptyString 1;
       CallClose (ext := exampleExternals) 1].
Proof.
  split.
  - exact (proj1 (doRegister_upgrade (ext := exampleExternals) noDaemons [] oldRequest
      (λ ws, S ws)) _ _ eq_refl).
  - exact (proj1 (proj2 (doRegister_upgrade (ext := exampleExternals) noDaemons []
      upgradeRequest (λ ws, S ws))) _ _ eq_refl).
Defined.

(** *** The error writer followed by the client (claim C1) *)

Lemma statusOf_inj (k1 k2 : kind) : statusOf k1 = statusOf k2 → k1 = k2.
Proof. by destruct k1, k2. Qed.

Lemma append_empty_r (s : string) : s +:+ EmptyString = s.
Proof.
  induction s as [|a s IH]; [done|].
  change (String a (s +:+ EmptyString) = String a s). by rewrite IH.
Qed.

Section roundtrip_facts.
Context `{ext : Externals}.

(** The response to a JSON error written at [code] on a fresh writer. *)
Lemma sentResponse_json (code : Z) (body : string) :
  sentResponse [SetHeader "Content-Type" "application/json; charset=utf-8";
                WriteHeader code; Write body] =
    {| StatusCode := code;
       Status := pretty code +:+ " " +:+ StatusText code;
       RespHeader := {["Content-Type" := "application/json; charset=utf-8"]};
       Body := BodyBytes body |}.
Proof.
  unfold sentResponse. simpl. by rewrite append_empty_r.
Qed.

(** The client on a JSON error response whose status is none of 200,
    201, 204 and 401: the error is the decoded [flux.BaseError]. *)
Lemma executeRequest_json (resp : Response) (data : string)
    (niceError : BaseError) :
  StatusCode resp ≠ StatusOK → StatusCode resp ≠ StatusCreated →
  StatusCode resp ≠ StatusNoContent → StatusCode resp ≠ StatusUnauthorized →
  Header_Get (RespHeader resp) "Content-Type" = "application/json; charset=utf-8" →
  Body resp = BodyBytes data →
  json_Decode_BaseError data = inl niceError →
  executeRequest (inl resp) = (Some resp, Some (BaseErrorPtr niceError)).
Proof.
  intros H200 H201 H204 H401 Hct Hbody Hdec. unfold executeRequest.
  rewrite decide_False by (intros [?|[?|?]]; done).
  rewrite decide_False by done.
  rewrite Hct. change (String.prefix _ _) with true. cbv iota.
  rewrite Hbody. simpl. by rewrite Hdec.
Qed.

(** Writing a [*flux.BaseError] at [code] for a request that negotiates
    JSON, and reading the response back. *)
Lemma WriteError_executeRequest (r : Request) (code : Z) (b niceError : BaseError)
    (body : string) :
  0 < String.length (Header_Get (ReqHeader r) "Accept") →
  negotiateContentType r ["application/json"; "text/plain"] = "application/json" →
  json_Marshal_error (BaseErrorPtr b) = inl body →
  json_Decode_BaseError body = inl niceError →
  code ≠ StatusOK → code ≠ StatusCreated → code ≠ StatusNoContent →
  code ≠ StatusUnauthorized →
  let resp := sentResponse (WriteError [] r code (BaseErrorPtr b)) in
  StatusCode resp = code ∧
  executeRequest (inl resp) = (Some resp, Some (BaseErrorPtr niceError)).
Proof.
  intros Hacc Hneg Hbody Hdec H200 H201 H204 H401 resp. subst resp.
  unfold WriteError. rewrite decide_True by done.
  rewrite Hneg, decide_True by done. rewrite Hbody, app_nil_l.
  rewrite sentResponse_json. split; [done|].
  by apply (executeRequest_json _ body).
Qed.
End roundtrip_facts.

(** C1, as amended.  For each of the three kinds of error that
    [ErrorResponse] tells apart (Missing, UserConfigProblem and
    ServerException, written with 404, 422 and 500, distinct kinds having
    distinct codes), writing the error with [ErrorResponse] for a request
    that negotiates JSON and reading the response with [executeRequest]
    yields the response with the status code of the kind and, as the
    error, the [*flux.BaseError] that the JSON decoder reads from the
    body.  The Deprecated error is written with 410 by the handler of the
    deprecated routes through [WriteError] and read back in the same way;
    a response with status 401 is read as [ErrorUnauthorized] whatever its
    body. *)
Theorem error_roundtrip `{ext : Externals} (r : Request) (k : kind)
    (b niceError : BaseError) (body : string) :
  (0 < String.length (Header_Get (ReqHeader r) "Accept") →
   negotiateContentType r ["application/json"; "text/plain"] = "application/json" →
   json_Marshal_error (BaseErrorPtr b) = inl body →
   json_Decode_BaseError body = inl niceError →
   let resp := sentResponse (ErrorResponse [] r (errorOf k b)) in
   StatusCode resp = statusOf k ∧
   executeRequest (inl resp) = (Some resp, Some (BaseErrorPtr niceError)))
  ∧ (∀ k', statusOf k = statusOf k' → k = k')
  ∧ (0 < String.length (Header_Get (ReqHeader r) "Accept") →
     negotiateContentType r ["application/json"; "text/plain"] = "application/json" →
     json_Marshal_error (BaseErrorPtr ErrorDeprecated) = inl body →
     json_Decode_BaseError body = inl niceError →
     let resp := sentResponse (deprecated [] r) in
     StatusCode resp = StatusGone ∧
     executeRequest (inl resp) = (Some resp, Some (BaseErrorPtr niceError)))
  ∧ (∀ resp, StatusCode resp = StatusUnauthorized →
       executeRequest (inl resp) = (Some resp, Some (BaseErrorPtr ErrorUnauthorized))).
Proof.
  split_and!.
  - intros Hacc Hneg Hbody Hdec. rewrite ErrorResponse_kind.
    apply (WriteError_executeRequest r (statusOf k) b niceError body);
      try done; by destruct k.
  - intros k'. apply statusOf_inj.
  - intros Hacc Hneg Hbody Hdec. unfold deprecated.
    by apply (WriteError_executeRequest r StatusGone ErrorDeprecated niceError body).
  - intros resp H401. unfold executeRequest. rewrite H401.
    rewrite decide_False by (intros [?|[?|?]]; done).
    by rewrite decide_True.
Qed.

Lemma error_roundtrip_witness :
  let resp := sentResponse
    (ErrorResponse (ext := exampleExternals) [] jsonRequest (Missing notFound)) in
  StatusCode resp = StatusNotFound ∧
  executeRequest (ext := exampleExternals) (inl resp) =
    (Some resp,
     Some (BaseErrorPtr (MkBaseError EmptyString (ErrorString "not found")))).
Proof.
  refine (proj1 (error_roundtrip (ext := exampleExternals) jsonRequest KMissing
    notFound (MkBaseError EmptyString (ErrorString "not found")) "not found")
    _ _ _ _).
  - vm_compute. lia.
  - reflexivity.
  - reflexivity.
  - reflexivity.
Defined.

(** The claim as it is written fails: the client never rebuilds the kind.
    A Missing error written with 404 is read back as a plain
    [*flux.BaseError], which [ErrorResponse] would classify by its default
    branch and write with 500; and [ErrorResponse] writes the Unauthorized
    and the Deprecated error with 500, not with 401 and 410. *)
Lemma error_kind_not_preserved :
  let resp := sentResponse
    (ErrorResponse (ext := exampleExternals) [] jsonRequest (Missing notFound)) in
  let decoded := BaseErrorPtr (MkBaseError EmptyString (ErrorString "not found")) in
  StatusCode resp = StatusNotFound ∧
  executeRequest (ext := exampleExternals) (inl resp) = (Some resp, Some decoded) ∧
  kindOf (Missing notFound) = Some KMissing ∧
  kindOf decoded = None ∧
  kindOf decoded ≠ kindOf (Missing notFound) ∧
  sentStatus (ErrorResponse (ext := exampleExternals) [] jsonRequest decoded)
    = StatusInternalServerError ∧
  sentStatus (ErrorResponse (ext := exampleExternals) [] jsonRequest
                (BaseErrorPtr (ErrorUnauthorized (Externals := exampleExternals))))
    = StatusInternalServerError ∧
  sentStatus (ErrorResponse (ext := exampleExternals) [] jsonRequest
                (BaseErrorPtr (ErrorDeprecated (Externals := exampleExternals))))
    = StatusInternalServerError.
Proof.
  cbv zeta. split_and!; try reflexivity. discriminate.
Qed.


(** ** More about [Diff] *)


(** *** [Diff] returns no chunk exactly on values that are alike *)

Section alike_facts.
Variable diffElem : Value → Value → string → result (list Chunk).
Variable P : value → Prop.
Variable R : value → value → Prop.
Hypothesis elems : ∀ x y p, P x → P y →
  ∃ cs, diffElem (Some x) (Some y) p = Ok cs ∧ (cs = [] ↔ R x y).




End alike_facts.






(** *** What every chunk of [Diff] looks like *)

Lemma append_assoc (a b c : string) : (a +:+ b) +:+ c = a +:+ (b +:+ c).
Proof.
  induction a as [|x a IH]; [done|].
  change (String x ((a +:+ b) +:+ c) = String x (a +:+ (b +:+ c))).
  by rewrite IH.
Qed.

Lemma chunkAt_here (path : string) (c : Chunk) :
  Path c = path → nonEmpty c → chunkAt path c.
Proof.
  intros Hp Hne. split; [|done]. exists EmptyString. by rewrite append_empty_r.
Qed.

Lemma chunkAt_below (path s : string) (c : Chunk) :
  chunkAt (path +:+ s) c → chunkAt path c.
Proof.
  intros [[s' Hs] Hne]. split; [|done]. exists (s +:+ s').
  by rewrite <- append_assoc.
Qed.

Lemma chunkAt_below_all (path s : string) (cs : list Chunk) :
  Forall (chunkAt (path +:+ s)) cs → Forall (chunkAt path) cs.
Proof.
  intros H. eapply Forall_impl; [exact H|]. intros c. apply chunkAt_below.
Qed.

Lemma overbite_chunkAt (path : string) (la lb : list value) :
  Forall (chunkAt path) (overbite path la lb).
Proof.
  unfold overbite. repeat case_decide; [| |constructor].
  - constructor; [|constructor]. split.
    + by exists ("[" +:+ pretty (length la `min` length lb) +:+ "]").
    + left. simpl. intros Hnil%(f_equal length).
      rewrite length_drop in Hnil. simpl in Hnil. lia.
  - constructor; [|constructor]. split.
    + by exists ("[" +:+ pretty (length la `min` length lb) +:+ "]").
    + right. simpl. intros Hnil%(f_equal length).
      rewrite length_drop in Hnil. simpl in Hnil. lia.
Qed.

Section chunk_facts.
Variable diffElem : Value → Value → string → result (list Chunk).
Hypothesis elems : ∀ a b path cs,
  diffElem a b path = Ok cs → Forall (chunkAt path) cs.

Lemma prefixDiffs_chunkAt (path : string) (la : list value) :
  ∀ (i : nat) (lb : list value) (cs : list Chunk),
  prefixDiffs diffElem path i la lb = Ok cs → Forall (chunkAt path) cs.
Proof using elems.
  induction la as [|x la IH]; intros i lb cs Hcs.
  - injection Hcs as <-. constructor.
  - destruct lb as [|y lb]; [injection Hcs as <-; constructor|].
    cbn in Hcs.
    destruct (diffElem (Some x) (Some y) (indexPath path i)) as [d| |] eqn:Hd;
      cbn in Hcs; [|done..].
    destruct (prefixDiffs diffElem path (S i) la lb) as [ds| |] eqn:Hds;
      cbn in Hcs; [|done..].
    injection Hcs as <-. apply Forall_app. split; [|by eapply IH].
    apply elems in Hd. by apply chunkAt_below_all in Hd.
Qed.

Lemma diffArrayOrSlice_chunkAt (a b : Value) (path : string) (cs : list Chunk) :
  diffArrayOrSlice diffElem a b path = Ok cs → Forall (chunkAt path) cs.
Proof using elems.
  destruct a as [[|la| | | | |]|]; try done.
  destruct b as [[|lb| | | | |]|]; try done.
  rewrite diffArrayOrSlice_spec. unfold diffSeq_spec.
  destruct (prefixDiffs diffElem path 0 la lb) as [changed| |] eqn:Hch; cbn;
    [|done..].
  intros [= <-]. apply Forall_app. split.
  - by eapply prefixDiffs_chunkAt.
  - apply overbite_chunkAt.
Qed.

Lemma diffMap_rangeA_chunkAt (ea eb : list (ground * value)) (path : string)
    (keys : list ground) :
  ∀ diffs out, Forall (chunkAt path) diffs →
  diffMap_rangeA diffElem ea eb path keys diffs = Ok out →
  Forall (chunkAt path) out.
Proof using elems.
  induction keys as [|keyA keys IH]; intros diffs out Hdiffs Hout.
  - by injection Hout as <-.
  - simpl in Hout. case_decide.
    + destruct (diffElem (MapIndex ea keyA) (MapIndex eb keyA) (keyPath path keyA))
        as [more| |] eqn:Hmore; cbn in Hout; [|done..].
      eapply IH; [|exact Hout].
      apply Forall_app. split; [done|].
      apply elems in Hmore. by apply chunkAt_below_all in Hmore.
    + destruct (MapIndex ea keyA) as [A|]; cbn in Hout; [|done].
      eapply IH; [|exact Hout].
      apply Forall_app. split; [done|]. constructor; [|constructor]. split.
      * by exists ("[" +:+ format_v keyA +:+ "]").
      * by left.
Qed.

Lemma diffMap_rangeB_chunkAt (ea eb : list (ground * value)) (path : string)
    (keys : list ground) :
  ∀ diffs out, Forall (chunkAt path) diffs →
  diffMap_rangeB ea eb path keys diffs = Ok out →
  Forall (chunkAt path) out.
Proof.
  induction keys as [|keyB keys IH]; intros diffs out Hdiffs Hout.
  - by injection Hout as <-.
  - simpl in Hout. case_decide; [|by eapply IH].
    destruct (MapIndex eb keyB) as [B|]; cbn in Hout; [|done].
    eapply IH; [|exact Hout].
    apply Forall_app. split; [done|]. constructor; [|constructor]. split.
    + by exists ("[" +:+ format_v keyB +:+ "]").
    + by right.
Qed.

Lemma diffMap_chunkAt (a b : Value) (path : string) (cs : list Chunk) :
  diffMap diffElem a b path = Ok cs → Forall (chunkAt path) cs.
Proof using elems.
  destruct a as [[| | | |ea| |]|]; try done.
  destruct b as [[| | | |eb| |]|]; try done.
  unfold diffMap.
  destruct (diffMap_rangeA diffElem ea eb path (MapKeys ea) []) as [d1| |] eqn:H1;
    cbn; [|done..].
  destruct (diffMap_rangeB ea eb path (MapKeys eb) d1) as [d2| |] eqn:H2;
    cbn; [|done..].
  intros [= <-]. rewrite sort_Sort_Permutation.
  eapply diffMap_rangeB_chunkAt; [|exact H2].
  eapply diffMap_rangeA_chunkAt; [|exact H1]. constructor.
Qed.
End chunk_facts.

Lemma diffValue_chunkAt :
  (∀ typ a b path cs, diffValue typ a b path = Ok cs → Forall (chunkAt path) cs) ∧
  (∀ fs i a b path diffs out, Forall (chunkAt path) diffs →
     diffStruct fs i a b path diffs = Ok out → Forall (chunkAt path) out).
Proof.
  apply type_and_fields_ind.
  - intros name k a b path cs. unfold diffValue, diffGround.
    destruct a as [x|]; [|done]. destruct b as [y|]; [|done]. cbn.
    destruct x as [g| | | | | |]; try done. destruct y as [h| | | | | |]; try done.
    case_decide; intros [= <-]; [|constructor].
    constructor; [|constructor]. split.
    + exists EmptyString. simpl. by rewrite append_empty_r.
    + by left.
  - intros len elemTyp IH a b path cs. rewrite diffValue_TArray.
    by apply diffArrayOrSlice_chunkAt.
  - intros elemTyp IH a b path cs. rewrite diffValue_TSlice.
    by apply diffArrayOrSlice_chunkAt.
  - done.
  - intros elemTyp IH a b path cs. rewrite diffValue_TPtr. apply IH.
  - intros name fs IH a b path cs. rewrite diffValue_TStruct.
    by apply IH.
  - intros keyTyp _ elemTyp IH a b path cs. rewrite diffValue_TMap.
    by apply diffMap_chunkAt.
  - done.
  - intros i a b path diffs out Hdiffs [= <-]. done.
  - intros name pkgPath fieldTyp IHt rest IHr i a b path diffs out Hdiffs Hout.
    simpl in Hout. case_decide; [|by eapply IHr].
    destruct (Field a i) as [fa| |]; cbn in Hout; [|done..].
    destruct (Field b i) as [fb| |]; cbn in Hout; [|done..].
    destruct (diffValue fieldTyp fa fb _) as [fd| |] eqn:Hfd; cbn in Hout;
      [|done..].
    eapply IHr; [|exact Hout]. apply Forall_app. split; [done|].
    apply IHt in Hfd. by apply chunkAt_below_all in Hfd.
Qed.

(** X4.  Every chunk that [Diff] returns reports at least one value:
    its deletions and its additions are not both empty. *)
Theorem Diff_chunks_nonEmpty (a b : iface) (cs : list Chunk) :
  Diff a b = Ok cs → Forall nonEmpty cs.
Proof.
  unfold Diff. case_decide; [done|].
  destruct (TypeOf a) as [typ|]; [|done]. intros Hcs.
  destruct diffValue_chunkAt as [Hall _]. apply Hall in Hcs.
  eapply Forall_impl; [exact Hcs|]. by intros c [_ ?].
Qed.

Lemma Diff_chunks_nonEmpty_witness :
  Diff (mapOf mapC1) (mapOf mapD) =
    Ok [Changed (VGround (GInt 1)) (VGround (GInt 2)) "[a][0]";
        Removed (VSeq []) "[b]"; Added (VSeq []) "[c]"] ∧
  Forall nonEmpty
    [Changed (VGround (GInt 1)) (VGround (GInt 2)) "[a][0]";
     Removed (VSeq []) "[b]"; Added (VSeq []) "[c]"].
Proof.
  assert (H : Diff (mapOf mapC1) (mapOf mapD) =
    Ok [Changed (VGround (GInt 1)) (VGround (GInt 2)) "[a][0]";
        Removed (VSeq []) "[b]"; Added (VSeq []) "[c]"]) by reflexivity.
  split; [exact H|]. exact (Diff_chunks_nonEmpty _ _ _ H).
Defined.

(** X5.  Every chunk that [diffValue] returns when it is called with
    [path] has a path that starts with [path]: the chunks of an element, a
    field or an entry lie below the path of the value they belong to. *)
Theorem diffValue_paths_extend (typ : type) (a b : Value) (path : string)
    (cs : list Chunk) :
  diffValue typ a b path = Ok cs → Forall (extends path) cs.
Proof.
  intros Hcs. destruct diffValue_chunkAt as [H _]. apply H in Hcs.
  eapply Forall_impl; [exact Hcs|]. by intros c [? _].
Qed.

Lemma diffValue_paths_extend_witness :
  diffValue (TMap string_ (TSlice int)) (Some (VMap mapC1)) (Some (VMap mapD)) "m"
    = Ok diffCD ∧
  Forall (extends "m") diffCD.
Proof.
  assert (H : diffValue (TMap string_ (TSlice int)) (Some (VMap mapC1))
                (Some (VMap mapD)) "m" = Ok diffCD) by reflexivity.
  split; [exact H|]. exact (diffValue_paths_extend _ _ _ _ _ H).
Defined.

(** *** Witnesses for facts proved above *)


Lemma Diff_iteration_order_witness :
  distinctKeys nestedA1 ∧ distinctKeys nestedB ∧
  sameValue nestedA1 nestedA2 ∧ sameValue nestedB nestedB ∧
  Diff (Some (nestedMaps, nestedA1)) (Some (nestedMaps, nestedB)) =
    Ok [Changed (VGround (GInt 1)) (VGround (GInt 3)) "[a][x]";
        Removed (VGround (GInt 2)) "[a][y]"] ∧
  ∃ cs', Diff (Some (nestedMaps, nestedA2)) (Some (nestedMaps, nestedB)) = Ok cs' ∧
         Forall2 sameChunk
           [Changed (VGround (GInt 1)) (VGround (GInt 3)) "[a][x]";
            Removed (VGround (GInt 2)) "[a][y]"] cs'.
Proof.
  assert (Ha : distinctKeys nestedA1).
  { apply distinct_map; [compute_done|]. constructor; [|constructor].
    apply distinct_map; [compute_done|]. repeat constructor. }
  assert (Hb : distinctKeys nestedB).
  { apply distinct_map; [compute_done|]. constructor; [|constructor].
    apply distinct_map; [compute_done|]. repeat constructor. }
  assert (Hs : sameValue nestedA1 nestedA2).
  { unfold nestedA1, nestedA2. eapply same_map; [reflexivity|].
    constructor; [|constructor]. split; [reflexivity|]. simpl.
    apply sameValue_Permutation, Permutation_swap. }
  assert (Hcs : Diff (Some (nestedMaps, nestedA1)) (Some (nestedMaps, nestedB)) =
    Ok [Changed (VGround (GInt 1)) (VGround (GInt 3)) "[a][x]";
        Removed (VGround (GInt 2)) "[a][y]"]) by reflexivity.
  split_and!; [exact Ha|exact Hb|exact Hs|apply sameValue_refl|exact Hcs|].
  apply (Diff_iteration_order nestedMaps nestedA1 nestedA2 nestedB nestedB _
           Ha Hb Hs (sameValue_refl _) Hcs).
  compute_done.
Defined.

(** *** [Diff] with its arguments exchanged *)

Lemma mirror_Path (cs : list Chunk) : Path <$> (mirror <$> cs) = Path <$> cs.
Proof. induction cs as [|c cs IH]; [done|]. rewrite !fmap_cons. by f_equal. Qed.

Lemma mirror_sorted (cs : list Chunk) :
  StronglySorted path_le cs → StronglySorted path_le (mirror <$> cs).
Proof.
  induction 1 as [|c cs Hs IH Hall]; [constructor|].
  rewrite fmap_cons. constructor; [done|].
  apply Forall_fmap. eapply Forall_impl; [exact Hall|]. done.
Qed.

Lemma overbite_mirror (path : string) (la lb : list value) :
  overbite path lb la = mirror <$> overbite path la lb.
Proof.
  unfold overbite. rewrite (Nat.min_comm (length lb)).
  repeat case_decide; try lia; done.
Qed.

Lemma Field_distinctV (a : Value) (i : nat) (fa : Value) :
  distinctV a → Field a i = Ok fa → distinctV fa.
Proof.
  intros Hda Hf. destruct a as [[| | |vs| | |]|]; try done.
  specialize (Hda _ eq_refl). inversion Hda as [| | | |? Hall| | |]; subst.
  simpl in Hf. destruct (vs !! i) as [x|] eqn:Hx; [|done].
  injection Hf as <-. apply distinctV_Some. by eapply Forall_lookup_1.
Qed.

Lemma leftChunks_ext_in (d : Value → Value → string → result (list Chunk))
    (eb eb' ea : list (ground * value)) (path : string) :
  (∀ e, e ∈ ea → MapIndex eb e.1 = MapIndex eb' e.1) →
  leftChunks d eb path ea = leftChunks d eb' path ea.
Proof.
  induction ea as [|e ea IH]; intros Hext; [done|].
  cbn. unfold leftEntry. rewrite (Hext e) by left.
  rewrite IH; [done|]. intros; apply Hext; by right.
Qed.

Lemma rightChunks_ext_in (ea ea' eb : list (ground * value)) (path : string) :
  (∀ e, e ∈ eb → MapIndex ea e.1 = MapIndex ea' e.1) →
  rightChunks ea path eb = rightChunks ea' path eb.
Proof.
  unfold rightChunks. induction eb as [|e eb IH]; intros Hext; [done|].
  simpl. unfold rightEntry at 1 3. rewrite (Hext e) by left.
  rewrite IH; [done|]. intros; apply Hext; by right.
Qed.

Lemma MapIndex_cons_ne (e : ground * value) (es : list (ground * value))
    (k : ground) :
  e.1 ≠ k → MapIndex (e :: es) k = MapIndex es k.
Proof. destruct e as [k' v]. simpl. intros. by rewrite decide_False. Qed.

Lemma MapIndex_cons_eq (e : ground * value) (es : list (ground * value)) :
  MapIndex (e :: es) e.1 = Some e.2.
Proof. destruct e as [k' v]. simpl. by rewrite decide_True. Qed.

Lemma rightChunks_cons_absent (e : ground * value)
    (ea eb : list (ground * value)) (path : string) :
  e.1 ∉ MapKeys eb →
  rightChunks (e :: ea) path eb = rightChunks ea path eb.
Proof.
  intros Hnotin. apply rightChunks_ext_in.
  intros f Hf. apply MapIndex_cons_ne. intros Heq. apply Hnotin.
  rewrite Heq. by apply list_elem_of_fmap_2.
Qed.

Lemma rightChunks_cons_present (e : ground * value)
    (ea eb : list (ground * value)) (path : string) (vb : value) :
  NoDup (MapKeys eb) → MapIndex ea e.1 = None →
  MapIndex eb e.1 = Some vb →
  rightChunks ea path eb ≡ₚ
    Added vb (keyPath path e.1) :: rightChunks (e :: ea) path eb.
Proof.
  intros Hnd Hea. unfold rightChunks.
  induction eb as [|f eb IH]; intros Hvb; [done|].
  apply NoDup_cons in Hnd as [Hf Hnd]. simpl.
  destruct (decide (f.1 = e.1)) as [Heq|Hne].
  - rewrite <- Heq, MapIndex_cons_eq in Hvb. injection Hvb as <-.
    pose proof (rightChunks_cons_absent e ea eb path) as Hright.
    unfold rightChunks in Hright. rewrite Hright by (by rewrite <- Heq).
    unfold rightEntry. rewrite Heq, MapIndex_cons_eq, Hea. done.
  - rewrite MapIndex_cons_ne in Hvb by done.
    rewrite (IH Hnd Hvb). unfold rightEntry at 1 3.
    rewrite MapIndex_cons_ne by done.
    by rewrite Permutation_middle.
Qed.

Section mirror_maps.
Variable d : Value → Value → string → result (list Chunk).

(** An entry [e] whose key is not in [eb] changes nothing in the chunks
    of the entries of [eb]. *)
Lemma leftChunks_cons_absent (e : ground * value) (ea eb : list (ground * value))
    (path : string) :
  e.1 ∉ MapKeys eb →
  leftChunks d (e :: ea) path eb = leftChunks d ea path eb.
Proof.
  intros Hnotin. apply leftChunks_ext_in.
  intros f Hf. apply MapIndex_cons_ne. intros Heq. apply Hnotin.
  rewrite Heq. by apply list_elem_of_fmap_2.
Qed.

(** An entry [e] whose key is in [eb], with the value [vb], and not in
    [ea]: the deletion of [vb] becomes the comparison of [vb] with the
    value of [e], and the addition of [vb] disappears. *)
Lemma leftChunks_cons_present (e : ground * value)
    (ea eb : list (ground * value)) (path : string) (vb : value)
    (D' ls0 : list Chunk) :
  NoDup (MapKeys eb) → MapIndex ea e.1 = None →
  MapIndex eb e.1 = Some vb →
  d (Some vb) (Some e.2) (keyPath path e.1) = Ok D' →
  leftChunks d ea path eb = Ok ls0 →
  ∃ ls', leftChunks d (e :: ea) path eb = Ok ls' ∧
         ls' ++ [Removed vb (keyPath path e.1)] ≡ₚ D' ++ ls0.
Proof.
  intros Hnd Hea. revert ls0.
  induction eb as [|f eb IH]; intros ls0 Hvb HD Hls0; [done|].
  apply NoDup_cons in Hnd as [Hf Hnd].
  apply leftChunks_cons_Ok in Hls0 as (cs & rest & Hcs & Hrest & ->).
  destruct (decide (f.1 = e.1)) as [Heq|Hne].
  - rewrite <- Heq, MapIndex_cons_eq in Hvb. injection Hvb as <-.
    assert (Hleft := leftChunks_cons_absent e ea eb path).
    rewrite <- Heq in Hleft. specialize (Hleft Hf).
    exists (D' ++ rest). split.
    + apply leftChunks_cons; [|by rewrite Hleft].
      unfold leftEntry. rewrite Heq, MapIndex_cons_eq. done.
    + unfold leftEntry in Hcs. rewrite Heq, Hea in Hcs. injection Hcs as <-.
      rewrite <- app_assoc. apply Permutation_app_head.
      simpl. by rewrite <- Permutation_cons_append.
  - rewrite MapIndex_cons_ne in Hvb by done.
    destruct (IH Hnd rest Hvb HD Hrest) as (ls' & Hls' & Hperm).
    exists (cs ++ ls'). split.
    + apply leftChunks_cons; [|done].
      unfold leftEntry in *. rewrite MapIndex_cons_ne by done. done.
    + rewrite <- app_assoc, Hperm. rewrite !app_assoc.
      apply Permutation_app_tail, Permutation_app_comm.
Qed.

Hypothesis elems : mirrored d.

Lemma leftChunks_mirror (eb : list (ground * value)) (path : string)
    (ea : list (ground * value)) :
  NoDup (MapKeys eb) → Forall (λ e, distinctKeys e.2) eb →
  NoDup (MapKeys ea) → Forall (λ e, distinctKeys e.2) ea →
  ∀ ls, leftChunks d eb path ea = Ok ls →
  ∃ ls', leftChunks d ea path eb = Ok ls' ∧
         ls' ++ rightChunks eb path ea ≡ₚ
           mirror <$> (ls ++ rightChunks ea path eb).
Proof using elems.
  intros Hkb Hdb Hka Hda. induction Hda as [|e ea Hde Hda IH]; intros ls Hls.
  - injection Hls as <-. clear Hka.
    exists (flat_map (λ f, [Removed f.2 (keyPath path f.1)]) eb). split.
    + clear. induction eb as [|f eb IH]; [done|].
      cbn. rewrite IH. done.
    + unfold rightChunks. simpl. rewrite app_nil_r. clear.
      induction eb as [|f eb IH]; [done|]. simpl. by rewrite IH.
  - apply NoDup_cons in Hka as [He Hka].
    apply leftChunks_cons_Ok in Hls as (cs & rest & Hcs & Hrest & ->).
    destruct (IH Hka rest Hrest) as (ls0 & Hls0 & Hperm).
    assert (Hea : MapIndex ea e.1 = None) by (by apply MapIndex_None).
    unfold leftEntry in Hcs. destruct (MapIndex eb e.1) as [vb|] eqn:Hvb.
    + destruct (elems (Some e.2) (Some vb) (keyPath path e.1) cs)
        as (D' & HD' & HpermD & _); [by apply distinctV_Some| |done|].
      { apply distinctV_Some. by apply (MapIndex_Forall distinctKeys eb e.1). }
      destruct (leftChunks_cons_present e ea eb path vb D' ls0)
        as (ls' & Hls' & Hperm'); [done..|].
      exists ls'. split; [done|].
      assert (Hright : rightChunks eb path (e :: ea) = rightChunks eb path ea).
      { unfold rightChunks. simpl. unfold rightEntry at 1. by rewrite Hvb. }
      rewrite Hright.
      apply (Permutation_cons_inv (a := Removed vb (keyPath path e.1))).
      trans ((ls' ++ [Removed vb (keyPath path e.1)]) ++ rightChunks eb path ea).
      { rewrite <- app_assoc. simpl. by rewrite Permutation_middle. }
      rewrite Hperm', <- app_assoc, Hperm, HpermD.
      rewrite (rightChunks_cons_present e ea eb path vb) by done.
      rewrite !fmap_app, fmap_cons, <- !app_assoc.
      change (mirror (Added vb (keyPath path e.1)))
        with (Removed vb (keyPath path e.1)).
      rewrite (app_assoc (mirror <$> cs)). rewrite <- Permutation_middle.
      by rewrite <- app_assoc.
    + injection Hcs as <-.
      assert (Hnotin : e.1 ∉ MapKeys eb) by (by apply MapIndex_None).
      pose proof (leftChunks_cons_absent e ea eb path Hnotin) as Hleft.
      pose proof (rightChunks_cons_absent e ea eb path Hnotin) as Hright.
      exists ls0. split; [by rewrite Hleft|].
      rewrite Hright. unfold rightChunks at 1. simpl.
      unfold rightEntry at 1. rewrite Hvb. simpl.
      rewrite <- Permutation_middle. fold (rightChunks eb path ea).
      rewrite Hperm. done.
Qed.

Lemma diffMap_mirrored : mirrored (diffMap d).
Proof using elems.
  intros a b path cs Hda Hdb Hcs.
  destruct a as [[| | | |ea| |]|]; try done.
  destruct b as [[| | | |eb| |]|]; try done.
  specialize (Hda _ eq_refl). specialize (Hdb _ eq_refl).
  inversion Hda as [| | | | |? Hka Hva| |]; subst.
  inversion Hdb as [| | | | |? Hkb Hvb| |]; subst.
  rewrite diffMap_is_spec in * by done. unfold diffMap_spec in *.
  destruct (leftChunks d eb path ea) as [ls| |] eqn:Hls; cbn in Hcs; [|done..].
  injection Hcs as <-.
  destruct (leftChunks_mirror eb path ea Hkb Hvb Hka Hva ls Hls)
    as (ls' & -> & Hperm).
  cbn. eexists. split; [done|].
  assert (Hp : sort_Sort (ls' ++ rightChunks eb path ea) ≡ₚ
               mirror <$> sort_Sort (ls ++ rightChunks ea path eb)).
  { by rewrite !sort_Sort_Permutation. }
  split; [done|]. intros Hnd. symmetry.
  apply sorted_paths_unique; [|apply sort_Sort_sorted| |done].
  - apply mirror_sorted, sort_Sort_sorted.
  - by rewrite mirror_Path.
Qed.
End mirror_maps.

Section mirror_sequences.
Variable d : Value → Value → string → result (list Chunk).
Hypothesis elems : mirrored d.

Lemma prefixDiffs_mirror (path : string) (la : list value) :
  ∀ (i : nat) (lb : list value) (cs : list Chunk),
  Forall distinctKeys la → Forall distinctKeys lb →
  prefixDiffs d path i la lb = Ok cs →
  ∃ cs', prefixDiffs d path i lb la = Ok cs' ∧ cs' ≡ₚ mirror <$> cs ∧
         (NoDup (Path <$> cs) → cs' = mirror <$> cs).
Proof using elems.
  induction la as [|x la IH]; intros i lb cs Ha Hb Hcs.
  - injection Hcs as <-. exists []. by destruct lb.
  - destruct lb as [|y lb]; [injection Hcs as <-; by exists []|].
    cbn in Hcs.
    destruct (d (Some x) (Some y) (indexPath path i)) as [c| |] eqn:Hc;
      cbn in Hcs; [|done..].
    destruct (prefixDiffs d path (S i) la lb) as [ds| |] eqn:Hds;
      cbn in Hcs; [|done..].
    injection Hcs as <-.
    apply Forall_cons in Ha as [Hx Ha]. apply Forall_cons in Hb as [Hy Hb].
    destruct (elems (Some x) (Some y) (indexPath path i) c)
      as (c' & Hc' & Hpc & Heqc); [by apply distinctV_Some..|done|].
    destruct (IH (S i) lb ds Ha Hb Hds) as (ds' & Hds' & Hpds & Heqds).
    exists (c' ++ ds'). split_and!.
    + cbn. rewrite Hc'. cbn. rewrite Hds'. done.
    + by rewrite fmap_app, Hpc, Hpds.
    + rewrite !fmap_app. intros (Hnd1 & _ & Hnd2)%NoDup_app.
      by rewrite Heqc, Heqds.
Qed.

Lemma diffArrayOrSlice_mirrored : mirrored (diffArrayOrSlice d).
Proof using elems.
  intros a b path cs Hda Hdb Hcs.
  destruct a as [[|la| | | | |]|]; try done.
  destruct b as [[|lb| | | | |]|]; try done.
  specialize (Hda _ eq_refl). specialize (Hdb _ eq_refl).
  inversion Hda; subst. inversion Hdb; subst.
  rewrite diffArrayOrSlice_spec in *. unfold diffSeq_spec in *.
  destruct (prefixDiffs d path 0 la lb) as [changed| |] eqn:Hch; cbn in Hcs;
    [|done..].
  injection Hcs as <-.
  destruct (prefixDiffs_mirror path la 0 lb changed) as (ch' & -> & Hp & Heq);
    [done..|].
  cbn. eexists. split; [done|]. rewrite overbite_mirror, !fmap_app. split.
  - by rewrite Hp.
  - intros (Hnd1 & _ & _)%NoDup_app. by rewrite Heq.
Qed.
End mirror_sequences.

Lemma diffGround_mirrored : mirrored diffGround.
Proof.
  intros a b path cs _ _ Hcs.
  destruct a as [x|]; [|done]. destruct b as [y|]; [|done].
  unfold diffGround in *. cbn in *.
  destruct x as [g| | | | | |]; try done. destruct y as [h| | | | | |]; try done.
  case_decide as Hgh; injection Hcs as <-.
  - rewrite decide_True by (by intros ->). by eexists.
  - rewrite decide_False by (intros Hhg; by apply Hhg). by eexists.
Qed.

Lemma diffValue_mirrored :
  (∀ typ, mirrored (diffValue typ)) ∧
  (∀ fs i, mirrored (λ a b path, diffStruct fs i a b path [])).
Proof.
  apply type_and_fields_ind.
  - intros name k. apply diffGround_mirrored.
  - intros len elemTyp IH. by apply diffArrayOrSlice_mirrored.
  - intros elemTyp IH. by apply diffArrayOrSlice_mirrored.
  - intros name a b path cs _ _ Hcs. done.
  - intros elemTyp IH a b path cs Hda Hdb Hcs. rewrite diffValue_TPtr in *.
    apply (IH (Indirect a) (Indirect b)); auto using Indirect_distinctV.
  - intros name fs IH. apply (IH 0).
  - intros keyTyp _ elemTyp IH. by apply diffMap_mirrored.
  - intros name a b path cs _ _ Hcs. done.
  - intros i a b path cs _ _ [= <-]. by exists [].
  - intros name pkgPath fieldTyp IHt rest IHr i a b path cs Hda Hdb Hcs.
    simpl in *. case_decide; [|by apply (IHr (S i) a b)].
    destruct (Field a i) as [fa| |] eqn:Hfa; cbn in Hcs; [|done..].
    destruct (Field b i) as [fb| |] eqn:Hfb; cbn in Hcs; [|done..].
    destruct (diffValue fieldTyp fa fb _) as [fd| |] eqn:Hfd; cbn in Hcs;
      [|done..].
    rewrite diffStruct_acc in Hcs.
    destruct (diffStruct rest (S i) a b path []) as [ds| |] eqn:Hds;
      cbn in Hcs; [|done..].
    injection Hcs as <-.
    destruct (IHt fa fb (path +:+ "." +:+ name) fd)
      as (fd' & Hfd' & Hpfd & Heqfd);
      [by apply (Field_distinctV a i)|by apply (Field_distinctV b i)|done|].
    destruct (IHr (S i) a b path ds) as (ds' & Hds' & Hpds & Heqds); [done..|].
    cbn. rewrite Hfd'. cbn. rewrite diffStruct_acc, Hds'. cbn.
    eexists. split; [done|]. rewrite !fmap_app. split.
    + by rewrite Hpfd, Hpds.
    + intros (Hnd1 & _ & Hnd2)%NoDup_app. by rewrite Heqfd, Heqds.
Qed.

(** X7.  [Diff] with its arguments exchanged returns the mirrored
    chunks, the deletions of one being the additions of the other: the
    same chunks up to their order, and in the same order when the paths
    of the chunks are pairwise distinct. *)
Theorem Diff_mirror (typ : type) (a b : value) (cs : list Chunk) :
  distinctKeys a → distinctKeys b →
  Diff (Some (typ, a)) (Some (typ, b)) = Ok cs →
  ∃ cs', Diff (Some (typ, b)) (Some (typ, a)) = Ok cs' ∧
         cs' ≡ₚ mirror <$> cs ∧
         (NoDup (Path <$> cs) → cs' = mirror <$> cs).
Proof.
  intros Ha Hb. rewrite !Diff_same_type.
  destruct diffValue_mirrored as [H _].
  apply H; by apply distinctV_Some.
Qed.

Lemma Diff_mirror_witness :
  distinctKeys (VMap mapC1) ∧ distinctKeys (VMap mapD) ∧
  Diff (mapOf mapC1) (mapOf mapD) =
    Ok [Changed (VGround (GInt 1)) (VGround (GInt 2)) "[a][0]";
        Removed (VSeq []) "[b]"; Added (VSeq []) "[c]"] ∧
  ∃ cs', Diff (mapOf mapD) (mapOf mapC1) = Ok cs' ∧
         cs' ≡ₚ [Changed (VGround (GInt 2)) (VGround (GInt 1)) "[a][0]";
                 Added (VSeq []) "[b]"; Removed (VSeq []) "[c]"] ∧
         (NoDup ["[a][0]"; "[b]"; "[c]"] →
          cs' = [Changed (VGround (GInt 2)) (VGround (GInt 1)) "[a][0]";
                 Added (VSeq []) "[b]"; Removed (VSeq []) "[c]"]).
Proof.
  assert (Ha : distinctKeys (VMap mapC1)).
  { apply distinct_map; [compute_done|]. repeat constructor. }
  assert (Hb : distinctKeys (VMap mapD)).
  { apply distinct_map; [compute_done|]. repeat constructor. }
  assert (Hcs : Diff (mapOf mapC1) (mapOf mapD) =
    Ok [Changed (VGround (GInt 1)) (VGround (GInt 2)) "[a][0]";
        Removed (VSeq []) "[b]"; Added (VSeq []) "[c]"]) by reflexivity.
  split_and!; [exact Ha|exact Hb|exact Hcs|].
  exact (Diff_mirror _ _ _ _ Ha Hb Hcs).
Defined.

(** ** Patching the untyped configuration *)

Lemma applyPatchEntry_alter (key : string) (value : json)
    (uc : gmap string json) :
  applyPatchEntry key value uc = partial_alter (patchAt value) key uc.
Proof.
  apply map_eq. intros k.
  destruct (decide (k = key)) as [->|Hne].
  - rewrite lookup_partial_alter_eq.
    destruct value as [| | | | |cp]; simpl;
      rewrite ?lookup_delete_eq, ?lookup_insert_eq; try done.
    destruct (uc !! key) as [[| | | | |nested]|] eqn:Hold;
      rewrite ?lookup_insert_eq, ?Hold; rewrite ?lookup_insert_eq, ?Hold;
      done.
  - rewrite lookup_partial_alter_ne by done.
    destruct value as [| | | | |cp]; simpl;
      rewrite ?lookup_delete_ne, ?lookup_insert_ne by done; try done.
    destruct (uc !! key) as [[| | | | |nested]|] eqn:Hold;
      rewrite ?lookup_insert_eq, ?Hold;
      rewrite ?lookup_insert_ne by done; done.
Qed.

(** The iterations for two different keys commute. *)
Lemma applyPatchEntry_comm (k1 k2 : string) (v1 v2 : json)
    (uc : gmap string json) :
  k1 ≠ k2 →
  applyPatchEntry k1 v1 (applyPatchEntry k2 v2 uc) =
    applyPatchEntry k2 v2 (applyPatchEntry k1 v1 uc).
Proof.
  intros Hne. rewrite !applyPatchEntry_alter. by apply partial_alter_partial_alter_ne.
Qed.

Lemma applyPatch_empty (uc : gmap string json) : applyPatch uc ∅ = uc.
Proof. apply map_fold_empty. Qed.

Lemma applyPatch_insert (uc cp : gmap string json) (key : string) (value : json) :
  cp !! key = None →
  applyPatch uc (<[key := value]> cp) = applyPatchEntry key value (applyPatch uc cp).
Proof.
  intros Hnone. unfold applyPatch. apply map_fold_insert_L; [|done].
  intros j1 j2 z1 z2 y Hne _ _. by apply applyPatchEntry_comm.
Qed.

Lemma applyPatch_patchAt (uc cp : gmap string json) (key : string) :
  applyPatch uc cp !! key =
    match cp !! key with
    | None => uc !! key
    | Some value => patchAt value (uc !! key)
    end.
Proof.
  induction cp as [|i x cp Hi IH] using map_ind.
  - by rewrite applyPatch_empty, lookup_empty.
  - rewrite applyPatch_insert, applyPatchEntry_alter by done.
    destruct (decide (key = i)) as [->|Hne].
    + rewrite lookup_partial_alter_eq, lookup_insert_eq, IH, Hi. done.
    + rewrite lookup_partial_alter_ne, lookup_insert_ne by done. done.
Qed.

(** X8.  The map after [applyPatch(uc, cp)], key by key: a key that the
    patch does not name keeps its value; a key patched with [null] is
    deleted; a key patched with an object gets the patched nested object,
    an empty one being created when the key is absent or [null], and keeps
    its value when that is neither an object nor [null]; any other patch
    value replaces the value of the key. *)
Theorem applyPatch_lookup (uc cp : gmap string json) (key : string) :
  applyPatch uc cp !! key =
    match cp !! key with
    | None => uc !! key
    | Some JNull => None
    | Some (JObject nestedPatch) =>
        match uc !! key with
        | None | Some JNull => Some (JObject (applyPatch ∅ nestedPatch))
        | Some (JObject nested) => Some (JObject (applyPatch nested nestedPatch))
        | Some other => Some other
        end
    | Some value => Some value
    end.
Proof.
  rewrite applyPatch_patchAt. destruct (cp !! key) as [[| | | | |]|]; done.
Qed.

Lemma applyPatchIn_foldr (entries : list (string * json)) (uc : gmap string json) :
  applyPatchIn entries uc = foldr (uncurry applyPatchEntry) uc (reverse entries).
Proof.
  unfold applyPatchIn. revert uc.
  induction entries as [|[k v] entries IH]; intros uc; [done|].
  simpl. rewrite reverse_cons, foldr_app. simpl. apply IH.
Qed.

(** The result of [applyPatch] does not depend on the order in which
    the loop visits the entries of the patch. *)
Lemma applyPatch_any_order (uc cp : gmap string json)
    (entries : list (string * json)) :
  entries ≡ₚ map_to_list cp → applyPatchIn entries uc = applyPatch uc cp.
Proof.
  intros Hperm. rewrite applyPatchIn_foldr. unfold applyPatch.
  rewrite map_fold_foldr. symmetry.
  apply (foldr_permutation (=) (uncurry applyPatchEntry) uc
           (map_to_list cp) (reverse entries)).
  - intros j1 [k1 v1] j2 [k2 v2] b Hj H1 H2. simpl.
    apply applyPatchEntry_comm. intros ->. apply Hj.
    apply (NoDup_lookup (map_to_list cp).*1 j1 j2 k2).
    + apply NoDup_fst_map_to_list.
    + by rewrite list_lookup_fmap, H1.
    + by rewrite list_lookup_fmap, H2.
  - by rewrite reverse_Permutation.
Qed.

Lemma size_JObject (m : gmap string json) :
  size (JObject m) = S (map_fold (λ _ x n, size x + n) 0 m).
Proof. reflexivity. Qed.

Lemma size_lookup (m : gmap string json) (key : string) (v : json) :
  m !! key = Some v → size v < size (JObject m).
Proof.
  intros Hv. rewrite size_JObject.
  rewrite (map_fold_delete_L _ _ key v m); [lia| |done].
  intros. lia.
Qed.

Lemma applyPatch_idempotent_below (n : nat) :
  ∀ uc cp, size (JObject cp) ≤ n →
  applyPatch (applyPatch uc cp) cp = applyPatch uc cp.
Proof.
  induction n as [|n IH]; intros uc cp Hsize.
  { rewrite size_JObject in Hsize. lia. }
  apply map_eq. intros key. rewrite (applyPatch_patchAt (applyPatch uc cp)).
  rewrite (applyPatch_patchAt uc cp).
  destruct (cp !! key) as [value|] eqn:Hvalue; [|done].
  destruct value as [| | | | |nestedPatch]; try done. simpl.
  assert (Hnested : ∀ uc, applyPatch (applyPatch uc nestedPatch) nestedPatch =
                          applyPatch uc nestedPatch).
  { intros uc'. apply IH. apply size_lookup in Hvalue. lia. }
  destruct (uc !! key) as [[| | | | |nested]|]; by rewrite ?Hnested.
Qed.

(** X9.  [applyPatch] is idempotent: applying the same patch a second
    time changes nothing. *)
Theorem applyPatch_idempotent (uc cp : gmap string json) :
  applyPatch (applyPatch uc cp) cp = applyPatch uc cp.
Proof. by apply (applyPatch_idempotent_below (size (JObject cp))). Qed.

Lemma applyPatchEntry_JObject (key : string) (cp uc : gmap string json) :
  applyPatchEntry key (JObject cp) uc =
    match ensureObject uc key !! key with
    | Some (JObject nested) =>
        <[key := JObject (applyPatch nested cp)]> (ensureObject uc key)
    | _ => ensureObject uc key
    end.
Proof. reflexivity. Qed.

Lemma patched_sound :
  (∀ uc cp uc', patched uc cp uc' → uc' = applyPatch uc cp) ∧
  (∀ uc entries uc', patchedIn uc entries uc' → uc' = applyPatchIn entries uc) ∧
  (∀ uc key value uc', patchedEntry uc key value uc' →
     uc' = applyPatchEntry key value uc).
Proof.
  apply patched_mutind.
  - intros uc cp entries uc' Hperm _ ->. by apply applyPatch_any_order.
  - done.
  - intros uc key value entries uc1 uc' _ -> _ ->. done.
  - done.
  - intros uc key cp nested nested' Hnested _ ->.
    by rewrite applyPatchEntry_JObject, Hnested.
  - intros uc key cp Hskip. rewrite applyPatchEntry_JObject.
    destruct (ensureObject uc key !! key) as [[| | | | |nested]|] eqn:Hold;
      try done.
    by destruct (Hskip nested).
  - intros uc key value Hnull Hmap.
    destruct value as [| | | | |cp]; try done. by destruct (Hmap cp).
Qed.

Lemma patchedEntry_complete (key : string) (value : json) :
  (∀ cp, value = JObject cp → ∀ nested, patched nested cp (applyPatch nested cp)) →
  ∀ uc, patchedEntry uc key value (applyPatchEntry key value uc).
Proof.
  intros Hnested uc. destruct value as [| | | | |cp];
    try (by apply patched_default).
  - apply patched_nil.
  - rewrite applyPatchEntry_JObject.
    destruct (ensureObject uc key !! key) as [[| | | | |nested]|] eqn:Hold;
      try (apply patched_map_skipped; intros nested'; by rewrite Hold).
    apply (patched_map _ _ _ nested); [done|by apply Hnested].
Qed.

Lemma patchedIn_complete (entries : list (string * json)) :
  Forall (λ e, ∀ uc, patchedEntry uc e.1 e.2 (applyPatchEntry e.1 e.2 uc)) entries →
  ∀ uc, patchedIn uc entries (applyPatchIn entries uc).
Proof.
  induction 1 as [|[key value] entries He _ IH]; intros uc.
  - apply patchedIn_done.
  - eapply patchedIn_next; [apply He|apply IH].
Qed.

Lemma patched_complete_below (n : nat) :
  ∀ uc cp, size (JObject cp) ≤ n → patched uc cp (applyPatch uc cp).
Proof.
  induction n as [|n IH]; intros uc cp Hsize.
  { rewrite size_JObject in Hsize. lia. }
  rewrite <- (applyPatch_any_order uc cp (map_to_list cp)) by done.
  apply (patched_range _ _ (map_to_list cp)); [done|].
  apply patchedIn_complete, Forall_forall.
  intros [key value] Hin%elem_of_map_to_list uc'. simpl.
  apply patchedEntry_complete. intros nestedPatch -> nested.
  apply IH. apply size_lookup in Hin. lia.
Qed.

(** X10.  With the entries of the patch visited in any order, in the
    nested calls too, [applyPatch(uc, cp)] leaves one and the same map
    behind: the one that [applyPatch] computes. *)
Theorem patched_iff_applyPatch (uc cp uc' : gmap string json) :
  patched uc cp uc' ↔ uc' = applyPatch uc cp.
Proof.
  split.
  - apply patched_sound.
  - intros ->. by apply (patched_complete_below (size (JObject cp))).
Qed.

(** ** The client *)

Lemma foldl_snoc_pair (key : string) (values : list string) (args : list string) :
  foldl (λ args x, args ++ [key; x]) args values =
    args ++ flat_map (λ x, [key; x]) values.
Proof.
  revert args. induction values as [|x values IH]; intros args; simpl.
  - by rewrite app_nil_r.
  - rewrite IH. by rewrite <- app_assoc.
Qed.

Lemma pairs_app_even (l k : list string) :
  length l `mod` 2 = 0 → pairs (l ++ k) = pairs l ++ pairs k.
Proof.
  revert l. fix IH 1. intros [|a [|b l]] Heven; [done| |].
  - vm_compute in Heven. discriminate.
  - rewrite !length_cons, mod2_SS in Heven.
    change (pairs ((a :: b :: l) ++ k)) with ((a, b) :: pairs (l ++ k)).
    rewrite (IH l Heven). done.
Qed.

Lemma pairs_flat_map (key : string) (values : list string) :
  pairs (flat_map (λ x, [key; x]) values) = (λ x, (key, x)) <$> values.
Proof. induction values as [|x values IH]; [done|]. simpl. by rewrite IH. Qed.

Lemma length_flat_map_pair (key : string) (values : list string) :
  length (flat_map (λ x, [key; x]) values) `mod` 2 = 0.
Proof.
  induction values as [|x values IH]; [done|].
  change (flat_map (λ x, [key; x]) (x :: values))
    with (key :: x :: flat_map (λ x, [key; x]) values).
  by rewrite !length_cons, mod2_SS.
Qed.

Lemma length_app_even (l k : list string) :
  length l `mod` 2 = 0 → length k `mod` 2 = 0 → length (l ++ k) `mod` 2 = 0.
Proof.
  intros Hl Hk. rewrite length_app.
  rewrite Nat.Div0.add_mod, Hl, Hk. done.
Qed.

(** The pairs of the [args] of [UpdateImages]. *)
Lemma updateImagesArgs_pairs (s : ReleaseSpec) :
  length (updateImagesArgs s) `mod` 2 = 0 ∧
  pairs (updateImagesArgs s) =
    [("image", ImageSpec s); ("kind", Kind s); ("user", User (Cause s))]
    ++ ((λ x, ("service", x)) <$> ServiceSpecs s)
    ++ ((λ x, ("exclude", x)) <$> Excludes s)
    ++ (if decide (Message (Cause s) ≠ EmptyString)
        then [("message", Message (Cause s))] else []).
Proof.
  unfold updateImagesArgs. rewrite !foldl_snoc_pair.
  set (fixed := ["image"; ImageSpec s; "kind"; Kind s; "user"; User (Cause s)]).
  assert (H1 : length fixed `mod` 2 = 0) by reflexivity.
  pose proof (length_flat_map_pair "service" (ServiceSpecs s)) as H2.
  pose proof (length_flat_map_pair "exclude" (Excludes s)) as H3.
  assert (H12 := length_app_even _ _ H1 H2).
  assert (H123 := length_app_even _ _ H12 H3).
  assert (Hp : pairs ((fixed ++ flat_map (λ x, ["service"; x]) (ServiceSpecs s))
                      ++ flat_map (λ x, ["exclude"; x]) (Excludes s)) =
    [("image", ImageSpec s); ("kind", Kind s); ("user", User (Cause s))]
    ++ ((λ x, ("service", x)) <$> ServiceSpecs s)
    ++ ((λ x, ("exclude", x)) <$> Excludes s)).
  { rewrite !pairs_app_even, !pairs_flat_map by done. by rewrite <- app_assoc. }
  case_decide.
  - split; [by apply length_app_even|].
    rewrite pairs_app_even, Hp by done. by rewrite <- !app_assoc.
  - split; [done|]. rewrite Hp. by rewrite app_nil_r.
Qed.

Lemma filter_key_pairs (key k : string) (values : list string) :
  (filter (λ p : string * string, p.1 = k) ((λ x, (key, x)) <$> values)).*2 =
    if decide (key = k) then values else [].
Proof.
  induction values as [|x values IH]; [by case_decide|].
  rewrite fmap_cons, filter_cons. simpl. case_decide.
  - rewrite fmap_cons, IH. done.
  - done.
Qed.

Section client_facts.
Context `{cext : ClientExternals}.

Lemma MakeURL_even (endpoint : string) (router : Router) (routeName : string)
    (urlParams : list string) :
  length urlParams `mod` 2 = 0 →
  MakeURL endpoint router routeName urlParams =
    match url_Parse endpoint with
    | inr err => Fail (errors_Wrap err ("parsing endpoint " +:+ endpoint))
    | inl endpointURL =>
        match Route_URL router routeName with
        | Panic what => Panic what
        | Fail err => Fail (errors_Wrap err ("retrieving route path " +:+ routeName))
        | Ok routeURL =>
            Ok {| Scheme := Scheme endpointURL;
                  Host := Host endpointURL;
                  URLPath := path_Join (URLPath endpointURL) (URLPath routeURL);
                  RawQuery := Values_Encode (valuesOf (pairs urlParams) ∅) |}
        end
    end.
Proof.
  intros Heven. unfold MakeURL. rewrite decide_False by lia.
  destruct (url_Parse endpoint) as [endpointURL|err]; [|done].
  destruct (Route_URL router routeName) as [routeURL|err|what]; [|done..].
  rewrite addParams_spec by (rewrite ?drop_0; lia). by rewrite drop_0.
Qed.

Lemma executeRequest_response (do : Response + error) :
  (∃ resp, do = inl resp ∧ fst (executeRequest do) = Some resp) ∨
  (∃ err, do = inr err ∧ executeRequest do = (None, Some (errors_Wrap err "executing HTTP request"))).
Proof.
  destruct do as [resp|err]; [left|right; eauto].
  exists resp. split; [done|]. unfold executeRequest.
  repeat case_decide; try done.
  destruct (String.prefix _ _).
  - by destruct (Decode_BaseError (Body resp)).
  - by destruct (ReadAll (Body resp)).
Qed.

End client_facts.

(** X11.  The URL that [UpdateImages] asks [MakeURL] for carries the
    release in its query: the image, the kind and the user once each,
    every service specification under [service] and every excluded
    service under [exclude], in their order, and the message under
    [message] when it is not empty. *)
Theorem UpdateImages_query `{cext : ClientExternals} (c : Client) (s : ReleaseSpec)
    (u : URL) :
  MakeURL (endpoint c) (router c) "UpdateImages" (updateImagesArgs s) = Ok u →
  ∃ v, RawQuery u = Values_Encode v ∧
       Values_Get v "image" = [ImageSpec s] ∧
       Values_Get v "kind" = [Kind s] ∧
       Values_Get v "user" = [User (Cause s)] ∧
       Values_Get v "service" = ServiceSpecs s ∧
       Values_Get v "exclude" = Excludes s ∧
       Values_Get v "message" =
         (if decide (Message (Cause s) ≠ EmptyString)
          then [Message (Cause s)] else []).
Proof.
  destruct (updateImagesArgs_pairs s) as [Heven Hpairs].
  rewrite MakeURL_even by done.
  destruct (url_Parse (endpoint c)) as [endpointURL|err]; [|done].
  destruct (Route_URL (router c) "UpdateImages") as [routeURL|err|what]; [|done..].
  intros [= <-]. eexists. split; [reflexivity|].
  rewrite Hpairs.
  split_and!; rewrite Values_Get_valuesOf; unfold Values_Get;
    rewrite lookup_empty; simpl default; rewrite app_nil_l;
    rewrite !filter_app, !fmap_app, !filter_key_pairs;
    rewrite !filter_cons, filter_nil; simpl;
    try (case_decide; simpl; rewrite ?filter_cons, ?filter_nil; simpl);
    by rewrite ?app_nil_r.
Qed.

Lemma UpdateImages_query_witness :
  MakeURL (ext := exampleExternals) (endpoint exampleClient) (router exampleClient)
      "UpdateImages" (updateImagesArgs exampleRelease) =
    Ok {| Scheme := "http"; Host := "flux";
          URLPath := "/api/flux/v6/update-images";
          RawQuery := Values_Encode (Externals := exampleExternals)
            (valuesOf (pairs (updateImagesArgs exampleRelease)) ∅) |} ∧
  ∃ v, Values_Encode (Externals := exampleExternals)
         (valuesOf (pairs (updateImagesArgs exampleRelease)) ∅) =
       Values_Encode (Externals := exampleExternals) v ∧
       Values_Get v "image" = ["<all latest>"] ∧
       Values_Get v "kind" = ["execute"] ∧
       Values_Get v "user" = ["ann"] ∧
       Values_Get v "service" = ["default/a"; "default/b"] ∧
       Values_Get v "exclude" = ["default/c"] ∧
       Values_Get v "message" = [].
Proof.
  assert (H : MakeURL (ext := exampleExternals) (endpoint exampleClient)
      (router exampleClient) "UpdateImages" (updateImagesArgs exampleRelease) =
    Ok {| Scheme := "http"; Host := "flux";
          URLPath := "/api/flux/v6/update-images";
          RawQuery := Values_Encode (Externals := exampleExternals)
            (valuesOf (pairs (updateImagesArgs exampleRelease)) ∅) |}).
  { rewrite MakeURL_even by reflexivity. reflexivity. }
  split; [exact H|].
  exact (UpdateImages_query (cext := exampleClientExternals) exampleClient
           exampleRelease _ H).
Defined.

(** X12.  [UpdateImages] hands [MakeURL] an even number of parameters,
    whatever the release: unless the route lookup panics, it returns, with
    an error or without, and the panic of [MakeURL] on an odd number of
    parameters is never raised. *)
Theorem UpdateImages_returns `{cext : ClientExternals} (c : Client)
    (s : ReleaseSpec) :
  (∀ what, Route_URL (router c) "UpdateImages" ≠ Panic what) →
  length (updateImagesArgs s) `mod` 2 = 0 ∧ ∃ o, UpdateImages c s = Ok o.
Proof.
  intros Hroute. destruct (updateImagesArgs_pairs s) as [Heven _].
  split; [done|]. unfold UpdateImages, methodWithResp.
  rewrite MakeURL_even by done.
  destruct (url_Parse (endpoint c)) as [endpointURL|err]; [|by eexists].
  destruct (Route_URL (router c) "UpdateImages") as [routeURL|err|what] eqn:Hr;
    [|by eexists|by destruct (Hroute what)].
  destruct (newRequest c "POST" _ _) as [req|err]; [|by eexists].
  destruct (executeRequest_response (client_Do req))
    as [(resp & Hdo & Hresp)|(err & Hdo & Hresp)].
  - destruct (executeRequest (client_Do req)) as [resp' [err|]];
      [destruct resp'; by eexists|]. simpl in Hresp. subst resp'.
    destruct (ReadAll (Body resp)) as [respBytes|err]; [|by eexists].
    case_decide; [by eexists|].
    destruct (json_Unmarshal respBytes); by eexists.
  - rewrite Hresp. by eexists.
Qed.

Lemma UpdateImages_returns_witness :
  (∀ what, Route_URL (Externals := exampleExternals) (router exampleClient)
             "UpdateImages" ≠ Panic what) ∧
  length (updateImagesArgs exampleRelease) `mod` 2 = 0 ∧
  ∃ o, UpdateImages (cext := exampleClientExternals) exampleClient exampleRelease = Ok o.
Proof.
  assert (H : ∀ what, Route_URL (Externals := exampleExternals)
                (router exampleClient) "UpdateImages" ≠ Panic what).
  { intros what Heq. vm_compute in Heq. discriminate Heq. }
  split; [exact H|].
  exact (UpdateImages_returns (cext := exampleClientExternals) exampleClient
           exampleRelease H).
Defined.



(** ** The handlers of the service *)

Section handler_facts.
Context `{sext : ServerExternals}.

Lemma parseEach_inl (parse : string → string + error) (texts : list string) :
  ∀ parsed out, parseEach parse texts parsed = inl out →
  ∃ xs, out = parsed ++ xs ∧ Forall2 (λ text x, parse text = inl x) texts xs.
Proof.
  induction texts as [|text texts IH]; intros parsed out Hout; simpl in Hout.
  - injection Hout as <-. exists []. by rewrite app_nil_r.
  - destruct (parse text) as [x|err] eqn:Hx; [|done].
    destruct (IH _ _ Hout) as (xs & -> & Hall).
    exists (x :: xs). split; [by rewrite <- app_assoc|by constructor].
Qed.

Lemma parseEach_inr (parse : string → string + error) (texts : list string) :
  ∀ parsed text err, parseEach parse texts parsed = inr (text, err) →
  text ∈ texts ∧ parse text = inr err.
Proof.
  induction texts as [|t texts IH]; intros parsed text err Hout; simpl in Hout;
    [done|].
  destruct (parse t) as [x|err'] eqn:Hx.
  - destruct (IH _ _ _ Hout) as [Hin Herr]. split; [by right|done].
  - injection Hout as <- <-. split; [by left|done].
Qed.

Lemma badRequest_written (w : ResponseWriter) (r : Request) (err : error) :
  ∃ calls c, WriteError w r StatusBadRequest err = w ++ calls ∧
    writesResponse calls c ∧
    (c = StatusBadRequest ∨ c = StatusInternalServerError).
Proof. apply WriteError_calls. Qed.
End handler_facts.

(** X14.  [UpdateImages] of the service validates before it acts.  Either
    the service is not called and an error response is written with
    status 400 (500 when the error cannot be encoded); or the form, every
    [service] value, the image, the kind and every [exclude] value parse,
    and the service is called exactly once, with the parsed values in the
    order of the request and the user and message of the form. *)
Theorem HTTPService_UpdateImages_validates `{sext : ServerExternals}
    (s : Service) (w : ResponseWriter) (r : Request) :
  (called (HTTPService_UpdateImages s w r) = [] ∧
   ∃ calls c, response (HTTPService_UpdateImages s w r) = w ++ calls ∧
     writesResponse calls c ∧
     (c = StatusBadRequest ∨ c = StatusInternalServerError))
  ∨ (∃ spec,
       called (HTTPService_UpdateImages s w r) =
         [CallUpdateImages (getInstanceID r) spec] ∧
       ParseForm r = None ∧
       Forall2 (λ text x, ParseServiceSpec text = inl x)
         (Form r "service") (ServiceSpecs spec) ∧
       ParseImageSpec (mux_Var r "image") = inl (ImageSpec spec) ∧
       ParseReleaseKind (mux_Var r "kind") = inl (Kind spec) ∧
       Forall2 (λ text x, ParseServiceID text = inl x)
         (URL_Query r "exclude") (Excludes spec) ∧
       Cause spec = {| User := FormValue r "user";
                       Message := FormValue r "message" |}).
Proof.
  unfold HTTPService_UpdateImages.
  destruct (ParseForm r) as [err|] eqn:Hform.
  { left. split; [done|]. apply badRequest_written. }
  destruct (parseEach ParseServiceSpec (Form r "service") [])
    as [serviceSpecs|[service err]] eqn:Hservices.
  2: { left. split; [done|]. apply badRequest_written. }
  destruct (ParseImageSpec (mux_Var r "image")) as [imageSpec|err] eqn:Himage.
  2: { left. split; [done|]. apply badRequest_written. }
  destruct (ParseReleaseKind (mux_Var r "kind")) as [releaseKind|err] eqn:Hkind.
  2: { left. split; [done|]. apply badRequest_written. }
  destruct (parseEach ParseServiceID (URL_Query r "exclude") [])
    as [excludes|[ex err]] eqn:Hexcludes.
  2: { left. split; [done|]. apply badRequest_written. }
  right.
  apply parseEach_inl in Hservices as (xs & -> & Hxs).
  apply parseEach_inl in Hexcludes as (ys & -> & Hys).
  eexists. split; [by destruct (server_UpdateImages _ _ _)|].
  by split_and!.
Qed.


(** X16.  [PostIntegrationsGithub] calls nothing when the repository, the
    owner or the token is empty, and answers 422 (500 when the error
    cannot be encoded); otherwise it first generates the deploy key, and
    inserts a key at GitHub, with the owner and repository of the route
    and the token of the header, only when that succeeded. *)
Theorem HTTPService_PostIntegrationsGithub_calls `{sext : ServerExternals}
    (s : Service) (w : ResponseWriter) (r : Request) :
  let inst := getInstanceID r in
  let owner := mux_Var r "owner" in
  let repo := mux_Var r "repository" in
  let tok := Header_Get (ReqHeader r) "GithubToken" in
  let h := HTTPService_PostIntegrationsGithub s w r in
  (repo = EmptyString ∨ owner = EmptyString ∨ tok = EmptyString →
   called h = [] ∧
   ∃ calls c, response h = w ++ calls ∧ writesResponse calls c ∧
     (c = StatusUnprocessableEntity ∨ c = StatusInternalServerError))
  ∧ (repo ≠ EmptyString → owner ≠ EmptyString → tok ≠ EmptyString →
     (∀ err, server_GenerateDeployKey s inst = Some err →
        called h = [CallGenerateDeployKey inst] ∧
        response h = ErrorResponse w r err)
     ∧ (server_GenerateDeployKey s inst = None →
        called h = [CallGenerateDeployKey inst;
                    CallInsertDeployKey tok owner repo "abc123"] ∧
        (InsertDeployKey tok owner repo "abc123" = None →
         response h = w ++ [WriteHeader StatusOK]) ∧
        (∀ err, InsertDeployKey tok owner repo "abc123" = Some err →
         response h =
           WriteError w r (default StatusInternalServerError
                             (APIError_StatusCode err)) err))).
Proof.
  intros inst owner repo tok h. subst h. unfold HTTPService_PostIntegrationsGithub.
  fold inst owner repo tok. split.
  - intros Hempty. rewrite decide_True by done. split; [done|].
    apply WriteError_calls.
  - intros Hrepo Howner Htok.
    rewrite decide_False by (intros [?|[?|?]]; done). split.
    + by intros err ->.
    + intros ->. split_and!.
      * by destruct (InsertDeployKey tok owner repo "abc123").
      * by intros ->.
      * intros err ->. simpl. by destruct (APIError_StatusCode err).
Qed.

(** *** The logging wrapper *)

Lemma teeWriter_calls (calls : list wcall) (tw : teeWriter) :
  cw_ResponseWriter (tw_ResponseWriter (foldl teeWriter_call tw calls)) =
    cw_ResponseWriter (tw_ResponseWriter tw) ++ calls
  ∧ buf (foldl teeWriter_call tw calls) = buf tw +:+ sentBody calls.
Proof.
  revert tw. induction calls as [|c calls IH]; intros tw.
  - simpl. by rewrite app_nil_r, append_empty_r.
  - simpl foldl. destruct (IH (teeWriter_call tw c)) as [-> ->].
    destruct c as [k v|c|p]; simpl; rewrite <- ?app_assoc, ?append_assoc; done.
Qed.

Lemma teeWriter_code_kept (ws : list wcall) (tw : teeWriter) :
  Forall (λ call, ∀ c', call ≠ WriteHeader c') ws →
  code (tw_ResponseWriter (foldl teeWriter_call tw ws)) = code (tw_ResponseWriter tw).
Proof.
  intros Hws. revert tw.
  induction Hws as [|call ws Hcall _ IH]; intros tw; [done|].
  simpl foldl. rewrite IH. destruct call as [k v|c'|p]; try done.
  by destruct (Hcall c').
Qed.

Lemma teeWriter_code (hs : list wcall) (c : Z) (ws : list wcall) (tw : teeWriter) :
  Forall (λ call, ∀ c', call ≠ WriteHeader c') ws →
  code (tw_ResponseWriter (foldl teeWriter_call tw (hs ++ WriteHeader c :: ws))) = c.
Proof.
  intros Hws. rewrite foldl_app.
  change (foldl teeWriter_call ?a (WriteHeader c :: ws))
    with (foldl teeWriter_call (teeWriter_call a (WriteHeader c)) ws).
  by rewrite teeWriter_code_kept.
Qed.

(** X17.  The logging wrapper passes every call of the handler on to the
    writer it wraps, unchanged and in order: what is written is what the
    handler alone would write. *)
Theorem logging_transparent `{sext : ServerExternals}
    (next : Request → list wcall) (w : ResponseWriter) (r : Request) :
  fst (logging next w r) = w ++ next r.
Proof. unfold logging. simpl. by destruct (teeWriter_calls (next r) (MkTeeWriter (MkCodeWriter w StatusOK) EmptyString)) as [-> _]. Qed.

(** X18.  For a handler that answers as [WriteError], [ErrorResponse] and
    [JSONResponse] do (a content type, then a status code, then a body)
    or with a status code alone, the wrapper logs the status code that is
    sent, and the body, trimmed, as the error when that code is not 200. *)
Theorem logging_logs_response `{sext : ServerExternals}
    (next : Request → list wcall) (w : ResponseWriter) (r : Request) (c : Z) :
  writesResponse (next r) c ∨ next r = [WriteHeader c] →
  sentStatus (next r) = c ∧
  snd (logging next w r) =
    [("url", LogString (mustUnescape (Request_URL_String r)));
     ("took", LogString time_Since);
     ("status_code", LogInt c)]
    ++ (if decide (c ≠ StatusOK)
        then [("error", LogString (strings_TrimSpace (sentBody (next r))))]
        else []).
Proof.
  intros Hshape.
  assert (Hcalls : ∃ hs ws, next r = hs ++ WriteHeader c :: ws ∧
            Forall (λ call, ∀ c', call ≠ WriteHeader c') ws ∧ sentStatus (next r) = c).
  { destruct Hshape as [(contentType & body & _ & ->)| ->].
    - exists [SetHeader "Content-Type" contentType], [Write body].
      split_and!; [done| |done]. by repeat constructor.
    - exists [], []. by split_and!. }
  destruct Hcalls as (hs & ws & Hnext & Hws & Hsent). split; [done|].
  unfold logging. simpl.
  destruct (teeWriter_calls (next r)
    (MkTeeWriter (MkCodeWriter w StatusOK) EmptyString)) as [_ ->].
  assert (Hcode : code (tw_ResponseWriter (foldl teeWriter_call
            (MkTeeWriter (MkCodeWriter w StatusOK) EmptyString) (next r))) = c).
  { rewrite Hnext. by apply teeWriter_code. }
  rewrite Hcode. by case_decide.
Qed.

(** The status code that the wrapper logs is that of the last
    [WriteHeader], while net/http sends that of the first and 200 when
    the body is written first: the two differ for a handler that writes a
    body and then a status code. *)
Example logging_late_status `{sext : ServerExternals} (w : ResponseWriter)
    (r : Request) :
  sentStatus [Write "partial"; WriteHeader StatusInternalServerError] = StatusOK ∧
  snd (logging (λ _, [Write "partial"; WriteHeader StatusInternalServerError]) w r) =
    [("url", LogString (mustUnescape (Request_URL_String r)));
     ("took", LogString time_Since);
     ("status_code", LogInt StatusInternalServerError);
     ("error", LogString (strings_TrimSpace "partial"))].
Proof. split; reflexivity. Qed.


Lemma HTTPService_PostIntegrationsGithub_calls_witness :
  called (HTTPService_PostIntegrationsGithub (sext := exampleServerExternals)
            noDaemons [] oldRequest) = [] ∧
  called (HTTPService_PostIntegrationsGithub (sext := exampleServerExternals)
            noDaemons [] githubRequest) =
    [CallGenerateDeployKey (ext := exampleExternals) EmptyString;
     CallInsertDeployKey (ext := exampleExternals) "s3cret" "weaveworks" "flux"
       "abc123"] ∧
  response (HTTPService_PostIntegrationsGithub (sext := exampleServerExternals)
              noDaemons [] githubRequest) = [] ++ [WriteHeader StatusOK].
Proof.
  pose proof (HTTPService_PostIntegrationsGithub_calls
    (sext := exampleServerExternals) noDaemons [] oldRequest) as [H1 _].
  pose proof (HTTPService_PostIntegrationsGithub_calls
    (sext := exampleServerExternals) noDaemons [] githubRequest) as [_ H2].
  split.
  - apply H1. left. reflexivity.
  - destruct H2 as [_ H2]; [discriminate..|].
    destruct (H2 eq_refl) as (Hcalled & Hok & _).
    split; [exact Hcalled|]. exact (Hok eq_refl).
Defined.

Lemma logging_logs_response_witness :
  writesResponse
    (WriteError (ext := exampleExternals) [] jsonRequest StatusNotFound
       (BaseErrorPtr notFound)) StatusNotFound ∧
  snd (logging (sext := exampleServerExternals)
         (λ r, WriteError (ext := exampleExternals) [] r StatusNotFound
                 (BaseErrorPtr notFound)) [] jsonRequest) =
    [("url", LogString "/v4/ping"); ("took", LogString "1ms");
     ("status_code", LogInt StatusNotFound);
     ("error", LogString "not found")].
Proof.
  assert (H : writesResponse
    (WriteError (ext := exampleExternals) [] jsonRequest StatusNotFound
       (BaseErrorPtr notFound)) StatusNotFound).
  { exists "application/json; charset=utf-8", "not found".
    split; [apply charsetQualified_json|reflexivity]. }
  split; [exact H|].
  exact (proj2 (logging_logs_response (sext := exampleServerExternals)
    (λ r, WriteError (ext := exampleExternals) [] r StatusNotFound
            (BaseErrorPtr notFound)) [] jsonRequest StatusNotFound (or_introl H))).
Defined.

(** ** More facts about the transport and the order on chunks *)

(** X19.  [sorted.Less] is a strict order on the paths of the chunks, as
    [sort.Sort] needs: no chunk is less than itself, two chunks are never
    less than each other, the relation is transitive, and two chunks
    neither of which is less than the other have the same path. *)
Theorem Less_strict_order :
  (∀ x, Less x x = false) ∧
  (∀ x y, Less x y = true → Less y x = false) ∧
  (∀ x y z, Less x y = true → Less y z = true → Less x z = true) ∧
  (∀ x y, Less x y = false → Less y x = false → Path x = Path y).
Proof.
  unfold Less. split_and!.
  - intros x. apply bool_decide_eq_false. rewrite strings_Compare_lt.
    apply str_lt_irrefl.
  - intros x y Hxy%bool_decide_eq_true. apply bool_decide_eq_false.
    rewrite strings_Compare_lt in *. intros Hyx.
    apply (str_lt_irrefl (Path x)). by eapply str_lt_trans.
  - intros x y z Hxy%bool_decide_eq_true Hyz%bool_decide_eq_true.
    apply bool_decide_eq_true. rewrite strings_Compare_lt in *.
    by eapply str_lt_trans.
  - intros x y Hxy%bool_decide_eq_false Hyx%bool_decide_eq_false.
    rewrite strings_Compare_lt in *.
    destruct (String_as_OT.compare_spec (Path x) (Path y)) as [Heq|Hlt|Hgt];
      done.
Qed.



(** ** The policy annotations *)

Section policy_facts.
Variable PolicyPrefix : string.

Lemma add_annotations (add a : gmap string string) :
  (∀ policy,
     map_fold (λ policy v a, <[PolicyPrefix +:+ policy := v]> a) a add
       !! (PolicyPrefix +:+ policy) =
     match add !! policy with
     | Some v => Some v
     | None => a !! (PolicyPrefix +:+ policy)
     end) ∧
  (∀ key, (∀ policy, key ≠ PolicyPrefix +:+ policy) →
     map_fold (λ policy v a, <[PolicyPrefix +:+ policy := v]> a) a add !! key =
       a !! key).
Proof.
  apply (map_fold_weak_ind (λ r m,
    (∀ policy, r !! (PolicyPrefix +:+ policy) =
       match m !! policy with
       | Some v => Some v
       | None => a !! (PolicyPrefix +:+ policy)
       end) ∧
    (∀ key, (∀ policy, key ≠ PolicyPrefix +:+ policy) → r !! key = a !! key))).
  - split; [|done]. intros policy. by rewrite lookup_empty.
  - intros i x m r Hi [IH1 IH2]. split.
    + intros policy. destruct (decide (i = policy)) as [->|Hne].
      * by rewrite !lookup_insert_eq.
      * rewrite !lookup_insert_ne; [apply IH1|done|].
        intros Heq. by apply (inj (String.app PolicyPrefix)) in Heq.
    + intros key Hkey. rewrite lookup_insert_ne by (intros Heq; by eapply Hkey).
      by apply IH2.
Qed.

Lemma remove_annotations (remove a : gmap string string) :
  (∀ policy,
     map_fold (λ policy _ a, delete (PolicyPrefix +:+ policy) a) a remove
       !! (PolicyPrefix +:+ policy) =
     match remove !! policy with
     | Some _ => None
     | None => a !! (PolicyPrefix +:+ policy)
     end) ∧
  (∀ key, (∀ policy, key ≠ PolicyPrefix +:+ policy) →
     map_fold (λ policy _ a, delete (PolicyPrefix +:+ policy) a) a remove !! key =
       a !! key).
Proof.
  apply (map_fold_weak_ind (λ r m,
    (∀ policy, r !! (PolicyPrefix +:+ policy) =
       match m !! policy with
       | Some _ => None
       | None => a !! (PolicyPrefix +:+ policy)
       end) ∧
    (∀ key, (∀ policy, key ≠ PolicyPrefix +:+ policy) → r !! key = a !! key))).
  - split; [|done]. intros policy. by rewrite lookup_empty.
  - intros i x m r Hi [IH1 IH2]. split.
    + intros policy. destruct (decide (i = policy)) as [->|Hne].
      * by rewrite lookup_insert_eq, lookup_delete_eq.
      * rewrite lookup_insert_ne by done. rewrite lookup_delete_ne; [apply IH1|].
        intros Heq. by apply (inj (String.app PolicyPrefix)) in Heq.
    + intros key Hkey. rewrite lookup_delete_ne by (intros Heq; by eapply Hkey).
      by apply IH2.
Qed.
End policy_facts.

(** X21.  The annotations after the function of [UpdatePolicies]: the
    annotation of a policy to remove is deleted, also when the update adds
    that policy; the annotation of a policy to add, and not to remove, has
    the value of the update; every other annotation is as it was. *)
Theorem UpdatePolicies_annotations_lookup (PolicyPrefix : string)
    (update : PolicyUpdate) (a : gmap string string) :
  (∀ policy,
     UpdatePolicies_annotations PolicyPrefix update a !! (PolicyPrefix +:+ policy) =
       match Remove update !! policy with
       | Some _ => None
       | None =>
           match Add update !! policy with
           | Some v => Some v
           | None => a !! (PolicyPrefix +:+ policy)
           end
       end) ∧
  (∀ key, (∀ policy, key ≠ PolicyPrefix +:+ policy) →
     UpdatePolicies_annotations PolicyPrefix update a !! key = a !! key).
Proof.
  unfold UpdatePolicies_annotations. split.
  - intros policy.
    rewrite (proj1 (remove_annotations PolicyPrefix (Remove update) _)).
    destruct (Remove update !! policy); [done|].
    apply (add_annotations PolicyPrefix).
  - intros key Hkey.
    rewrite (proj2 (remove_annotations PolicyPrefix (Remove update) _)) by done.
    by apply (add_annotations PolicyPrefix).
Qed.

Lemma UpdatePolicies_annotations_lookup_witness :
  let a := UpdatePolicies_annotations "flux.weave.works/" examplePolicyUpdate
             {["flux.weave.works/locked" := "true"; "app" := "frob"]} in
  a !! ("flux.weave.works/" +:+ "locked") = None ∧
  a !! ("flux.weave.works/" +:+ "automated") = Some "true" ∧
  (∀ policy, "app" ≠ "flux.weave.works/" +:+ policy) ∧
  a !! "app" = Some "frob".
Proof.
  destruct (UpdatePolicies_annotations_lookup "flux.weave.works/"
    examplePolicyUpdate
    {["flux.weave.works/locked" := "true"; "app" := "frob"]}) as [H1 H2].
  assert (Happ : ∀ policy, "app" ≠ "flux.weave.works/" +:+ policy).
  { intros policy Heq. cbv in Heq. discriminate Heq. }
  cbv zeta. split_and!.
  - rewrite (H1 "locked"). reflexivity.
  - rewrite (H1 "automated"). reflexivity.
  - exact Happ.
  - rewrite (H2 "app" Happ). reflexivity.
Defined.

(** *** Iterating over the manifests *)

(** X22.  [iterateManifests] visits the services that are defined in
    exactly one file and passes over the others: the outcome is that of
    the iteration over the services with one path alone. *)
Theorem iterateManifests_single_path
    (ioutil_ReadFile : string → string + error)
    (yaml_Unmarshal : string → Manifest * option error) (State : Type)
    (services : list (string * list string))
    (f : string → Manifest → State → State * option error) (st : State) :
  iterateManifests ioutil_ReadFile yaml_Unmarshal State services f st =
    iterateManifests ioutil_ReadFile yaml_Unmarshal State
      (filter (λ service, length service.2 = 1) services) f st.
Proof.
  revert st. induction services as [|[serviceID paths] services IH]; intros st;
    [done|].
  rewrite filter_cons. simpl. case_decide as Hlen.
  - rewrite decide_False by done. apply IH.
  - rewrite decide_True by done. simpl.
    rewrite decide_False by (by intros ?).
    destruct paths as [|path paths]; [done|].
    destruct (ioutil_ReadFile path) as [def|err]; [|done].
    destruct (parseManifest yaml_Unmarshal def) as [manifest [err|]]; [done|].
    destruct (f serviceID manifest st) as [st' [err|]]; [done|]. apply IH.
Qed.

(** ** More facts about [Diff], [applyPatch] and the transport *)

Lemma diffStruct_sameExported (fs : fields) :
  ∀ i vs ws b path diffs, sameExported fs i vs ws →
  diffStruct fs i (Some (VStruct vs)) b path diffs =
    diffStruct fs i (Some (VStruct ws)) b path diffs.
Proof.
  induction fs as [|name pkgPath fieldTyp rest IH]; intros i vs ws b path diffs;
    [done|].
  intros [Hfield Hrest]. simpl. case_decide; [|by apply IH].
  rewrite (Hfield H). destruct (ws !! i); cbn; [|done].
  destruct (Field b i); cbn; [|done..].
  destruct (diffValue fieldTyp _ _ _); cbn; [|done..].
  by apply IH.
Qed.

(** X23.  [Diff] does not look at the unexported fields of a struct: two
    structs with the same values in the exported fields have the same
    diff against any value. *)
Theorem Diff_ignores_unexported (name : string) (fs : fields)
    (vs ws : list value) (b : value) :
  sameExported fs 0 vs ws →
  Diff (Some (TStruct name fs, VStruct vs)) (Some (TStruct name fs, b)) =
    Diff (Some (TStruct name fs, VStruct ws)) (Some (TStruct name fs, b)).
Proof.
  intros Hsame. rewrite !Diff_same_type, !diffValue_TStruct.
  by apply diffStruct_sameExported.
Qed.

Lemma Diff_ignores_unexported_witness :
  sameExported
    (FCons "Name" EmptyString string_ (FCons "secret" "remote" int FNil)) 0
    [VGround (GString "ann"); VGround (GInt 1)]
    [VGround (GString "ann"); VGround (GInt 2)] ∧
  Diff (Some (account, account1))
       (Some (account, VStruct [VGround (GString "bob"); VGround (GInt 3)])) =
    Diff (Some (account, account2))
         (Some (account, VStruct [VGround (GString "bob"); VGround (GInt 3)])).
Proof.
  assert (H : sameExported
    (FCons "Name" EmptyString string_ (FCons "secret" "remote" int FNil)) 0
    [VGround (GString "ann"); VGround (GInt 1)]
    [VGround (GString "ann"); VGround (GInt 2)]).
  { simpl. split; [done|]. split; [intros Heq; discriminate Heq|exact I]. }
  split; [exact H|].
  exact (Diff_ignores_unexported "account" _ _ _ _ H).
Defined.

Lemma applyPatch_empty_nullFree_below (n : nat) :
  ∀ cp, size (JObject cp) ≤ n → nullFree cp → applyPatch ∅ cp = cp.
Proof.
  induction n as [|n IH]; intros cp Hsize Hfree.
  { rewrite size_JObject in Hsize. lia. }
  destruct Hfree as [cp Hfree].
  apply map_eq. intros key. rewrite applyPatch_patchAt, lookup_empty.
  destruct (cp !! key) as [value|] eqn:Hvalue; [|done].
  destruct (Hfree key value Hvalue) as [Hnull Hnested].
  destruct value as [| | | | |nested]; try done. simpl.
  rewrite IH; [done| |by apply Hnested].
  apply size_lookup in Hvalue. lia.
Qed.

(** X24.  Patching the empty map with a patch without [null] yields the
    patch itself. *)
Theorem applyPatch_empty_nullFree (cp : gmap string json) :
  nullFree cp → applyPatch ∅ cp = cp.
Proof. by apply (applyPatch_empty_nullFree_below (size (JObject cp))). Qed.

Lemma applyPatch_empty_nullFree_witness :
  nullFree {["slack" := JObject {["username" := JString "flux"]}]} ∧
  applyPatch ∅ {["slack" := JObject {["username" := JString "flux"]}]} =
    {["slack" := JObject {["username" := JString "flux"]}]}.
Proof.
  assert (H : nullFree {["slack" := JObject {["username" := JString "flux"]}]}).
  { constructor. intros key value Hkv.
    apply lookup_singleton_Some in Hkv as [<- <-]. split; [done|].
    intros nested [= <-]. constructor. intros key' value' Hkv'.
    apply lookup_singleton_Some in Hkv' as [<- <-]. by split. }
  split; [exact H|]. exact (applyPatch_empty_nullFree _ H).
Defined.

(** X25.  [executeRequest] returns the response without an error exactly
    for the status codes 200, 201 and 204; for every other status code it
    returns the response together with an error. *)
Theorem executeRequest_classifies `{ext : Externals} (resp : Response) :
  (StatusCode resp = StatusOK ∨ StatusCode resp = StatusCreated
   ∨ StatusCode resp = StatusNoContent →
   executeRequest (inl resp) = (Some resp, None))
  ∧ (StatusCode resp ≠ StatusOK → StatusCode resp ≠ StatusCreated →
     StatusCode resp ≠ StatusNoContent →
     ∃ err, executeRequest (inl resp) = (Some resp, Some err)).
Proof.
  unfold executeRequest. split.
  - intros Hok. by rewrite decide_True.
  - intros H200 H201 H204. rewrite decide_False by (intros [?|[?|?]]; done).
    case_decide; [by eexists|].
    destruct (String.prefix _ _).
    + destruct (Decode_BaseError (Body resp)); by eexists.
    + destruct (ReadAll (Body resp)); by eexists.
Qed.

Lemma executeRequest_classifies_witness :
  let resp := sentResponse (WriteError (ext := exampleExternals) [] oldRequest
                              StatusGone (ErrorString "gone")) in
  StatusCode resp ≠ StatusOK ∧
  ∃ err, executeRequest (ext := exampleExternals) (inl resp) = (Some resp, Some err).
Proof.
  cbv zeta. split; [intros H; discriminate H|].
  refine (proj2 (executeRequest_classifies (ext := exampleExternals) _) _ _ _);
    intros H; discriminate H.
Defined.

(** X26.  What [JSONResponse] writes for a result that can be encoded
    comes back from [get] decoded: the client reads the response with
    status 200 without an error and hands the encoded result to the JSON
    decoder. *)
Theorem JSONResponse_get_roundtrip `{cext : ClientExternals} (c : Client)
    (route : string) (queryParams : list string) (u : URL) (req : ClientRequest)
    (r : Request) (result : JSONValue) (body : string) :
  MakeURL (endpoint c) (router c) route queryParams = Ok u →
  newRequest c "GET" u None = inl req →
  client_Do req = inl (sentResponse (JSONResponse [] r result)) →
  json_Marshal result = inl body →
  get c route queryParams =
    Ok (match json_Decode body with
        | inl v => {| decoded := Some v; returned := None |}
        | inr err => failed (errors_Wrap err "decoding response from server")
        end).
Proof.
  intros Hurl Hreq Hdo Hbody. unfold get. rewrite Hurl, Hreq, Hdo.
  unfold JSONResponse. rewrite Hbody, app_nil_l. rewrite sentResponse_json.
  unfold executeRequest. simpl StatusCode.
  rewrite decide_True by (by left). simpl.
  by destruct (json_Decode body).
Qed.

Lemma JSONResponse_get_roundtrip_witness :
  JobStatus (cext := exampleClientExternals) exampleClient "1" =
    Ok (MkOutcome (ext := exampleExternals) (Some (Some "1")) None).
Proof.
  refine (JSONResponse_get_roundtrip (cext := exampleClientExternals)
    exampleClient "JobStatus" ["id"; "1"]
    {| Scheme := "http"; Host := "flux"; URLPath := "/api/flux/v6/jobs";
       RawQuery := "id=1" |}
    _ jsonRequest (Some "1") "1" _ eq_refl _ eq_refl).
  - rewrite MakeURL_even by reflexivity. vm_compute. reflexivity.
  - reflexivity.
Defined.
